(** * Copado tools: the change-description parser, the identifier-list
    parser, the status classification and the request preparation of the
    four tools, embedded from the TypeScript sources.

    Strings are sequences of UTF-16 code units in the source.  The model
    covers the code units below 256 (the Latin-1 range), one [ascii] per
    code unit: on that range [toLowerCase], the regular-expression classes,
    [\s], [\b] and [trim] are modelled as ECMAScript defines them. *)

From Stdlib Require Import String Ascii List Bool Arith Lia.
Import ListNotations.

(** ** Characters and strings *)

Definition str := list ascii.

Definition lit (s : string) : str := list_ascii_of_string s.

Definition code (c : ascii) : nat := nat_of_ascii c.

(** The double quote, code unit 34. *)
Definition dquote : ascii := ascii_of_nat 34.

Definition between (lo hi n : nat) : bool := (lo <=? n) && (n <=? hi).

(** [String.prototype.toLowerCase] on one code unit below 256. *)
Definition lower_char (c : ascii) : ascii :=
  let n := code c in
  if between 65 90 n then ascii_of_nat (n + 32)
  else if between 192 222 n && negb (n =? 215) then ascii_of_nat (n + 32)
  else c.

(** The [Canonicalize] operation of a case-insensitive, non-unicode regular
    expression: the upper-case form, as long as it is a single code unit
    (U+00B5, U+00DF and U+00FF stay as they are within this range). *)
Definition canonicalize (c : ascii) : ascii :=
  let n := code c in
  if between 97 122 n then ascii_of_nat (n - 32)
  else if between 224 254 n && negb (n =? 247) then ascii_of_nat (n - 32)
  else c.

Definition toLowerCase (s : str) : str := map lower_char s.

(** WhiteSpace and LineTerminator code units below 256: what [\s] matches
    and what [trim] removes. *)
Definition is_space (c : ascii) : bool :=
  let n := code c in between 9 13 n || (n =? 32) || (n =? 160).

(** The word characters of [\b]: [A-Za-z0-9_]. *)
Definition is_word (c : ascii) : bool :=
  let n := code c in
  between 65 90 n || between 97 122 n || between 48 57 n || (n =? 95).

Definition is_upper (c : ascii) : bool := between 65 90 (code c).

Fixpoint str_eqb (a b : str) : bool :=
  match a, b with
  | [], [] => true
  | x :: a', y :: b' => Ascii.eqb x y && str_eqb a' b'
  | _, _ => false
  end.

Fixpoint starts_with (p s : str) : bool :=
  match p, s with
  | [], _ => true
  | x :: p', y :: s' => Ascii.eqb x y && starts_with p' s'
  | _ :: _, [] => false
  end.

(** [String.prototype.includes]. *)
Fixpoint includes (s sub : str) : bool :=
  starts_with sub s ||
  match s with
  | [] => false
  | _ :: s' => includes s' sub
  end.

(** The length of the longest prefix whose characters all satisfy [p]. *)
Fixpoint run_length (p : ascii -> bool) (s : str) : nat :=
  match s with
  | c :: s' => if p c then S (run_length p s') else 0
  | [] => 0
  end.

(** [String.prototype.substring] (arguments are clamped to the length and
    swapped when out of order). *)
Definition substring (s : str) (a b : nat) : str :=
  let lo := Nat.min a b in
  let hi := Nat.max a b in
  firstn (hi - lo) (skipn lo s).

Fixpoint trim_start (s : str) : str :=
  match s with
  | c :: s' => if is_space c then trim_start s' else s
  | [] => []
  end.

Definition trim_end (s : str) : str := rev (trim_start (rev s)).

(** [String.prototype.trim]. *)
Definition trim (s : str) : str := trim_end (trim_start s).

(** [String.prototype.split] with a one-character separator: the pieces
    between the separators, at least one piece. *)
Fixpoint split (sep : ascii) (s : str) : list str :=
  match s with
  | [] => [[]]
  | c :: s' =>
      if Ascii.eqb c sep then [] :: split sep s'
      else match split sep s' with
           | p :: ps => (c :: p) :: ps
           | [] => [[c]]
           end
  end.

(** [Array.prototype.join]. *)
Fixpoint join (sep : str) (l : list str) : str :=
  match l with
  | [] => []
  | [x] => x
  | x :: l' => x ++ sep ++ join sep l'
  end.

(** ** Regular expressions

    The fragment of ECMAScript regular expressions the sources use, with
    the backtracking semantics of the language: [rx_match] lists the
    states a pattern can end in, in the order backtracking tries them. *)

Inductive charset :=
| CRanges (rs : list (ascii * ascii))   (* [..]: ranges, a single character c as (c, c) *)
| CSpace.                                (* \s *)

Inductive regex :=
| REps
| RSet (cs : charset)
| RWordB                                 (* \b *)
| RBol                                   (* ^ *)
| REol                                   (* $ *)
| RSeq (r1 r2 : regex)
| RAlt (r1 r2 : regex)
| ROpt (r : regex)                       (* r? *)
| RRep (min : nat) (cs : charset)        (* cs{min,}: * is min 0, + is min 1 *)
| RGroup (n : nat) (r : regex).          (* the n-th capture group *)

Definition in_range (c : ascii) (r : ascii * ascii) : bool :=
  between (code (fst r)) (code (snd r)) (code c).

Definition in_ranges (rs : list (ascii * ascii)) (c : ascii) : bool :=
  existsb (in_range c) rs.

(** A character matches a class when it is in it or, under the [i] flag,
    when a member of the class has the same canonical form. *)
Definition cs_match (ic : bool) (cs : charset) (c : ascii) : bool :=
  match cs with
  | CSpace => is_space c
  | CRanges rs =>
      in_ranges rs c ||
      (ic && (in_ranges rs (canonicalize c) || in_ranges rs (lower_char c)))
  end.

Record mstate := MState {
  m_seen : str;                (* the input before the position, reversed *)
  m_rest : str;                (* the input from the position on *)
  m_caps : list (nat * str)    (* the capture groups set so far *)
}.

Definition m_pos (st : mstate) : nat := length (m_seen st).

(** The state after the first [k] characters of [rest]. *)
Definition advance (k : nat) (seen rest : str) (caps : list (nat * str)) : mstate :=
  MState (rev (firstn k rest) ++ seen) (skipn k rest) caps.

Definition at_word_boundary (st : mstate) : bool :=
  let a := match m_seen st with c :: _ => is_word c | [] => false end in
  let b := match m_rest st with c :: _ => is_word c | [] => false end in
  xorb a b.

Fixpoint rep_match (ic : bool) (cs : charset) (min : nat)
    (seen rest : str) (caps : list (nat * str)) : list mstate :=
  let here := if min =? 0 then [MState seen rest caps] else [] in
  match rest with
  | c :: rest' =>
      if cs_match ic cs c
      then rep_match ic cs (pred min) (c :: seen) rest' caps ++ here
      else here
  | [] => here
  end.

Definition set_group (n : nat) (st0 st : mstate) : mstate :=
  MState (m_seen st) (m_rest st)
         ((n, rev (firstn (m_pos st - m_pos st0) (m_seen st))) :: m_caps st).

Fixpoint rx_match (ic : bool) (r : regex) (st : mstate) : list mstate :=
  match r with
  | REps => [st]
  | RSet cs =>
      match m_rest st with
      | c :: rest' =>
          if cs_match ic cs c then [MState (c :: m_seen st) rest' (m_caps st)] else []
      | [] => []
      end
  | RWordB => if at_word_boundary st then [st] else []
  | RBol => match m_seen st with [] => [st] | _ :: _ => [] end
  | REol => match m_rest st with [] => [st] | _ :: _ => [] end
  | RSeq r1 r2 => flat_map (rx_match ic r2) (rx_match ic r1 st)
  | RAlt r1 r2 => rx_match ic r1 st ++ rx_match ic r2 st
  | ROpt r1 =>
      filter (fun st' => m_pos st <? m_pos st') (rx_match ic r1 st) ++ [st]
  | RRep min cs => rep_match ic cs min (m_seen st) (m_rest st) (m_caps st)
  | RGroup n r1 => map (set_group n st) (rx_match ic r1 st)
  end.

Fixpoint group (n : nat) (caps : list (nat * str)) : option str :=
  match caps with
  | [] => None
  | (k, v) :: caps' => if k =? n then Some v else group n caps'
  end.

(** The result of [RegExp.prototype.exec]: the index of the match, the
    position after it and the capture groups. *)
Record rmatch := RMatch {
  index : nat;
  m_end : mstate;
}.

Definition capture (n : nat) (m : rmatch) : option str := group n (m_caps (m_end m)).

(** The first match at the position of [seen]/[rest] or after it. *)
Fixpoint rx_search (ic : bool) (r : regex) (seen rest : str) : option rmatch :=
  match rx_match ic r (MState seen rest []) with
  | e :: _ => Some (RMatch (length seen) e)
  | [] =>
      match rest with
      | [] => None
      | c :: rest' => rx_search ic r (c :: seen) rest'
      end
  end.

(** [while ((match = pattern.exec(s)) !== null)] on a pattern with the [g]
    flag: every call searches from [lastIndex], the position after the
    previous match.  A match of the empty string leaves [lastIndex] where it
    is and the loop never ends, so the loop is run on fuel: [None] is a loop
    that has not ended within the fuel. *)
Fixpoint exec_all (fuel : nat) (ic : bool) (r : regex) (seen rest : str)
    : option (list rmatch) :=
  match fuel with
  | 0 => None
  | S fuel' =>
      match rx_search ic r seen rest with
      | None => Some []
      | Some m =>
          match exec_all fuel' ic r (m_seen (m_end m)) (m_rest (m_end m)) with
          | Some ms => Some (m :: ms)
          | None => None
          end
      end
  end.

(** [RegExp.prototype.test] on a pattern without the [g] flag. *)
Definition rx_test (ic : bool) (r : regex) (s : str) : bool :=
  match rx_search ic r [] s with Some _ => true | None => false end.

(** Pattern syntax. *)
Fixpoint rseq (rs : list regex) : regex :=
  match rs with
  | [] => REps
  | [r] => r
  | r :: rs' => RSeq r (rseq rs')
  end.

Fixpoint ralt (rs : list regex) : regex :=
  match rs with
  | [] => REps
  | [r] => r
  | r :: rs' => RAlt r (ralt rs')
  end.

Definition rchar (c : ascii) : regex := RSet (CRanges [(c, c)]).

Definition rlit (s : string) : regex := rseq (map rchar (lit s)).

(** ** JavaScript objects and Maps, as far as the sources use them *)

(** A property value of [typeMap]: one of its own strings, or what the
    object inherits from [Object.prototype] under that name (a function,
    never a string). *)
Inductive jsval :=
| JStr (s : str)
| JInherited (prop : str).

Fixpoint assoc {V : Type} (k : str) (o : list (str * V)) : option V :=
  match o with
  | [] => None
  | (k', v) :: o' => if str_eqb k k' then Some v else assoc k o'
  end.

Definition object_prototype_keys : list str :=
  map lit ["constructor"; "__defineGetter__"; "__defineSetter__";
           "hasOwnProperty"; "__lookupGetter__"; "__lookupSetter__";
           "isPrototypeOf"; "propertyIsEnumerable"; "toString"; "valueOf";
           "__proto__"; "toLocaleString"]%string.

(** [o[k]] on an object literal with string values. *)
Definition get_property (o : list (str * str)) (k : str) : option jsval :=
  match assoc k o with
  | Some v => Some (JStr v)
  | None =>
      if existsb (str_eqb k) object_prototype_keys then Some (JInherited k)
      else None
  end.

(** [k in o]: own and inherited properties. *)
Definition has_property (o : list (str * str)) (k : str) : bool :=
  match get_property o k with Some _ => true | None => false end.

(** [Map.prototype.set]: a new key goes to the end, a key that is present
    keeps its place and takes the new value. *)
Fixpoint map_set {V : Type} (k : str) (v : V) (m : list (str * V)) : list (str * V) :=
  match m with
  | [] => [(k, v)]
  | (k', v') :: m' =>
      if str_eqb k k' then (k', v) :: m' else (k', v') :: map_set k v m'
  end.

(** ** CommitTool: parseChangesToCopadoFormat *)

Module CommitTool.

Record change := Change {
  a : str;
  n : str;
  t : jsval;
  m : str
}.

Definition typeMap : list (str * str) :=
  map (fun p => (lit (fst p), lit (snd p)))
    [("apex class", "ApexClass");
     ("class", "ApexClass");
     ("apex trigger", "ApexTrigger");
     ("trigger", "ApexTrigger");
     ("lightning component", "LightningComponentBundle");
     ("lwc", "LightningComponentBundle");
     ("component", "LightningComponentBundle");
     ("flow", "Flow");
     ("custom object", "CustomObject");
     ("object", "CustomObject");
     ("custom field", "CustomField");
     ("field", "CustomField");
     ("layout", "Layout");
     ("permission set", "PermissionSet");
     ("profile", "Profile");
     ("custom label", "CustomLabel");
     ("label", "CustomLabel");
     ("validation rule", "ValidationRule");
     ("workflow rule", "WorkflowRule");
     ("email template", "EmailTemplate");
     ("report", "Report");
     ("dashboard", "Dashboard")]%string.

Definition actionMap : list (str * str) :=
  map (fun p => (lit (fst p), lit (snd p)))
    [("added", "Add");
     ("created", "Add");
     ("new", "Add");
     ("modified", "Add");
     ("changed", "Add");
     ("updated", "Add");
     ("edited", "Add");
     ("deleted", "Delete");
     ("removed", "Delete")]%string.

Definition excludeWords : list str :=
  map lit
    ["the"; "and"; "or"; "but"; "in"; "on"; "at"; "to"; "for"; "of"; "with"; "by";
     "made"; "some"; "changes"; "also"; "gave"; "access"; "it"; "them"; "this"; "that";
     "add"; "modify"; "delete"; "user"; "story"; "updated"; "created"; "modified";
     "changed"; "new"; "old"; "existing"; "current"; "previous"; "next"; "first"; "last"]%string.

(** [Set.prototype.has] and [Array.prototype.includes] on strings. *)
Definition has (s : list str) (x : str) : bool := existsb (str_eqb x) s.

Definition defaultModule : str := lit "force-app/main/default".

(** The loop over [Object.entries(actionMap)] with its [break]. *)
Fixpoint first_action (entries : list (str * str)) (lowerDesc : str) (dflt : str) : str :=
  match entries with
  | [] => dflt
  | (keyword, actionValue) :: entries' =>
      if includes lowerDesc keyword then actionValue
      else first_action entries' lowerDesc dflt
  end.

Definition defaultAction (description : str) : str :=
  first_action actionMap (toLowerCase description) (lit "Add").

(** The character classes of the patterns. *)
Definition upperAZ : charset := CRanges [("A", "Z")]%char.
Definition identChar : charset :=
  CRanges [("A", "Z"); ("a", "z"); ("0", "9"); ("_", "_")]%char.
Definition quoteChar : charset := CRanges [(dquote, dquote); ("'", "'")]%char.

(** [[A-Z][A-Za-z0-9_]*] *)
Definition identifier : regex := RSeq (RSet upperAZ) (RRep 0 identChar).

(** [class|trigger|component|flow|object|field|layout|profile|label] *)
Definition typeWord : regex :=
  ralt (map rlit ["class"; "trigger"; "component"; "flow"; "object"; "field";
                  "layout"; "profile"; "label"]%string).

(** The five [componentPatterns], each with its [i] flag. *)
Definition pattern1 : bool * regex :=
  (true, rseq [RWordB; RGroup 1 identifier; RRep 1 CSpace; RGroup 2 typeWord; RWordB]).
Definition pattern2 : bool * regex :=
  (true, rseq [RWordB; RGroup 1 typeWord; RRep 1 CSpace; RGroup 2 identifier; RWordB]).
Definition pattern3 : bool * regex :=
  (true, rseq [RWordB; ROpt (RSeq (rlit "apex") (RRep 1 CSpace));
               RGroup 1 typeWord; RRep 1 CSpace; RGroup 2 identifier; RWordB]).
Definition pattern4 : bool * regex :=
  (true, rseq [RWordB; RGroup 1 identifier; RRep 1 CSpace; rlit "apex"; RRep 1 CSpace;
               RGroup 2 (RAlt (rlit "class") (rlit "trigger")); RWordB]).
Definition pattern5 : bool * regex :=
  (false, rseq [RSet quoteChar; RGroup 1 (RSeq (RSet upperAZ) (RRep 1 identChar));
                RSet quoteChar]).

Definition componentPatterns : list (bool * regex) :=
  [pattern1; pattern2; pattern3; pattern4; pattern5].

(** [/^[A-Z][A-Za-z0-9_]*$/] *)
Definition namePattern : regex := rseq [RBol; RSet upperAZ; RRep 0 identChar; REol].

(** A string is truthy when it is not empty, [undefined] is not. *)
Definition truthy (v : option str) : bool :=
  match v with
  | Some (_ :: _) => true
  | _ => false
  end.

(** The first half of the loop body: the name and the type of a match;
    [None] is the [continue]. *)
Definition name_and_type (mt : rmatch) : option (option str * jsval) :=
  if truthy (capture 1 mt) && truthy (capture 2 mt) then
    match capture 1 mt, capture 2 mt with
    | Some first, Some second =>
        let secondKey := toLowerCase second in
        let firstKey := toLowerCase first in
        match get_property typeMap secondKey with
        | Some ty => Some (Some first, ty)
        | None =>
            match get_property typeMap firstKey with
            | Some ty => Some (Some second, ty)
            | None => None
            end
        end
    | _, _ => None
    end
  else Some (capture 1 mt, JStr (lit "ApexClass")).

(** The condition under which the body calls [foundComponents.set]. *)
Definition acceptable (componentName : option str) : bool :=
  match componentName with
  | Some name =>
      truthy componentName &&
      (1 <? length name) &&
      negb (has excludeWords (toLowerCase name)) &&
      rx_test false namePattern name
  | None => false
  end.

(** The pair a match writes into [foundComponents], if it writes one. *)
Definition accepted (mt : rmatch) : option (str * jsval) :=
  match name_and_type mt with
  | Some (Some name, ty) => if acceptable (Some name) then Some (name, ty) else None
  | _ => None
  end.

Fixpoint filter_map {A B : Type} (f : A -> option B) (l : list A) : list B :=
  match l with
  | [] => []
  | x :: l' =>
      match f x with
      | Some y => y :: filter_map f l'
      | None => filter_map f l'
      end
  end.

(** The writes of one pattern, in the order of its matches. *)
Definition pattern_writes (fuel : nat) (p : bool * regex) (description : str)
    : option (list (str * jsval)) :=
  match exec_all fuel (fst p) (snd p) [] description with
  | Some ms => Some (filter_map accepted ms)
  | None => None
  end.

(** The writes of the loop over the patterns, in order. *)
Fixpoint all_writes (fuel : nat) (ps : list (bool * regex)) (description : str)
    : option (list (str * jsval)) :=
  match ps with
  | [] => Some []
  | p :: ps' =>
      match pattern_writes fuel p description, all_writes fuel ps' description with
      | Some w, Some ws => Some (w ++ ws)
      | _, _ => None
      end
  end.

Definition apply_writes {V : Type} (ws : list (str * V)) (found : list (str * V))
    : list (str * V) :=
  fold_left (fun fc w => map_set (fst w) (snd w) fc) ws found.

(** [/\b([A-Z][A-Za-z0-9_]{2,})\b/g] *)
Definition fallbackPattern : bool * regex :=
  (false, rseq [RWordB; RGroup 1 (RSeq (RSet upperAZ) (RRep 2 identChar)); RWordB]).

Definition fallbackExcluded : list str :=
  map lit ["Add"; "Modify"; "Delete"; "User"; "Story"]%string.

(** The loop over [Object.entries(typeMap)] with its [break]. *)
Fixpoint infer_type (entries : list (str * str)) (contextText : str) (dflt : str) : str :=
  match entries with
  | [] => dflt
  | (keyword, typeValue) :: entries' =>
      if includes contextText keyword then typeValue
      else infer_type entries' contextText dflt
  end.

(** The body of the fallback loop. *)
Definition fallback_write (description : str) (mt : rmatch) : option (str * jsval) :=
  match capture 1 mt with
  | Some name =>
      if negb (has excludeWords (toLowerCase name)) &&
         (2 <? length name) &&
         negb (has fallbackExcluded name)
      then
        let beforeText :=
          toLowerCase (substring description (Nat.max 0 (index mt - 20)) (index mt)) in
        let afterText :=
          toLowerCase (substring description (index mt + length name)
                                             (index mt + length name + 20)) in
        let contextText := beforeText ++ lit " " ++ afterText in
        Some (name, JStr (infer_type typeMap contextText (lit "ApexClass")))
      else None
  | None => None
  end.

Definition fallback_writes (fuel : nat) (description : str)
    : option (list (str * jsval)) :=
  match exec_all fuel (fst fallbackPattern) (snd fallbackPattern) [] description with
  | Some ms => Some (filter_map (fallback_write description) ms)
  | None => None
  end.

(** [foundComponents] after the pattern loop and the fallback. *)
Definition found_components (fuel : nat) (description : str)
    : option (list (str * jsval)) :=
  match all_writes fuel componentPatterns description with
  | Some ws =>
      let found := apply_writes ws [] in
      match found with
      | [] =>
          match fallback_writes fuel description with
          | Some fws => Some (apply_writes fws found)
          | None => None
          end
      | _ :: _ => Some found
      end
  | None => None
  end.

Definition changes_of (act : str) (found : list (str * jsval)) : list change :=
  match found with
  | _ :: _ => map (fun e => Change act (fst e) (snd e) defaultModule) found
  | [] => [Change act (lit "UnknownComponent") (JStr (lit "ApexClass")) defaultModule]
  end.

Definition parse_with (fuel : nat) (description : str) : option (list change) :=
  match found_components fuel description with
  | Some found => Some (changes_of (defaultAction description) found)
  | None => None
  end.

(** One unit of fuel per position of the description and one for the
    search that ends each loop. *)
Definition parseChangesToCopadoFormat (description : str) : option (list change) :=
  parse_with (S (S (length description))) description.

End CommitTool.

(** ** [String.prototype.replace] with a [g] pattern and a constant
    replacement

    The matches are taken from left to right, each search starting where
    the previous match ended; after a match of the empty string the search
    moves one position on.  [skip] counts the characters of the current
    match that are still to be passed over. *)
Fixpoint replace_from (ic : bool) (r : regex) (repl : str)
    (seen rest : str) (skip : nat) : str :=
  match skip with
  | S skip' =>
      match rest with
      | [] => []
      | c :: rest' => replace_from ic r repl (c :: seen) rest' skip'
      end
  | 0 =>
      match rx_match ic r (MState seen rest []) with
      | e :: _ =>
          let len := m_pos e - length seen in
          repl ++
          match rest with
          | [] => []
          | c :: rest' =>
              if len =? 0 then c :: replace_from ic r repl (c :: seen) rest' 0
              else replace_from ic r repl (c :: seen) rest' (len - 1)
          end
      | [] =>
          match rest with
          | [] => []
          | c :: rest' => c :: replace_from ic r repl (c :: seen) rest' 0
          end
      end
  end.

Definition replace_all (ic : bool) (r : regex) (repl : str) (s : str) : str :=
  replace_from ic r repl [] s 0.

(** ** PromoteTool: parseUserStoryIds *)

Module PromoteTool.

(** The class of the first [replace]: the two square brackets, the double
    quote and the single quote, with the [g] flag. *)
Definition bracketOrQuote : regex :=
  RSet (CRanges [("[", "["); ("]", "]"); (dquote, dquote); ("'", "'")]%char).

(** [/\s+and\s+/gi] *)
Definition andPattern : regex := rseq [RRep 1 CSpace; rlit "and"; RRep 1 CSpace].

Definition parseUserStoryIds (userStoryIds : str) : list str :=
  let cleaned := replace_all false bracketOrQuote [] userStoryIds in
  let commas := replace_all true andPattern (lit ",") cleaned in
  let pieces := split ","%char commas in
  filter (fun id => 0 <? length id) (map trim pieces).

End PromoteTool.

(** ** CheckJobStatusTool: the classification of a status *)

Module CheckJobStatusTool.

Record status_view := StatusView {
  statusEmoji : string;
  statusColor : string;
  nextSteps : string
}.

(** [copado__Status__c || status || 'Unknown'] on string fields. *)
Definition extract_status (copado_status status : option str) : str :=
  match copado_status with
  | Some (c :: s) => c :: s
  | _ =>
      match status with
      | Some (c :: s) => c :: s
      | _ => lit "Unknown"
      end
  end.

(** The [switch] on [status.toLowerCase()]. *)
Definition classify (status : str) : status_view :=
  let s := toLowerCase status in
  if str_eqb s (lit "completed") || str_eqb s (lit "success") then
    StatusView "✅" "GREEN"
      "🎉 Deployment completed successfully! Check your destination org."
  else if str_eqb s (lit "failed") || str_eqb s (lit "error") then
    StatusView "❌" "RED" "🔍 Check the error details and retry if needed."
  else if str_eqb s (lit "in progress") || str_eqb s (lit "running") then
    StatusView "🔄" "BLUE"
      "⏰ Deployment is still running. Check again in a few minutes."
  else if str_eqb s (lit "not started") || str_eqb s (lit "queued") then
    StatusView "⏳" "YELLOW" "📋 Job is queued and will start shortly."
  else
    StatusView "❔" "GRAY" "🔍 Unknown status. Check Copado org for details.".

End CheckJobStatusTool.

(** ** The four tools up to their HTTP request *)

Module Tools.

(** What a piece of [execute] does: it goes on with a value, throws an
    [Error] with a message, or does not return. *)
Inductive step (A : Type) :=
| Ok (x : A)
| Throw (msg : string)
| Loop.

Arguments Ok {A} x.
Arguments Throw {A} msg.
Arguments Loop {A}.

Definition bind {A B : Type} (c : step A) (k : A -> step B) : step B :=
  match c with
  | Ok x => k x
  | Throw msg => Throw msg
  | Loop => Loop
  end.

Notation "x <- c ;; k" := (bind c (fun x => k))
  (at level 61, c at next level, right associativity).

Inductive payload :=
| CommitPayload (userStoryId : str) (changes : list CommitTool.change) (message : str)
| PromotionPayload (userStoryIds : list str) (executeDeployment deploymentDryRun : bool)
    (sourceEnvironmentId : str)
| PromotionDeploymentPayload (promotionId : str)
| CheckStatusPayload (jobexecutionid : str).

(** The request [fetch] is called with: the URL, the [copado-webhook-key]
    header and the three fields of the JSON body. *)
Record request := Request {
  url : string;
  webhook_key_header : str;
  action : string;
  key : str;
  body : payload
}.

Definition truthy (v : option str) : bool := CommitTool.truthy v.

(** [if (!authToken) throw new Error(...)] *)
Definition require_token (authToken : option str) : step str :=
  match authToken with
  | Some (c :: s) => Ok (c :: s)
  | _ => Throw "API key is required. Provide it as a parameter or set COPADO_API_KEY environment variable."
  end.

(** [x || y] on optional strings. *)
Definition or_else (x y : option str) : option str :=
  if truthy x then x else y.

Section Execute.

(** [process.env.COPADO_API_KEY] *)
Variable COPADO_API_KEY : option str.

Definition commit_request (userStoryId changesDescription : str)
    (commitMessage apiKey : option str) : step request :=
  let authToken := apiKey in
  token <- require_token authToken ;;
  parsedChanges <-
    match CommitTool.parseChangesToCopadoFormat changesDescription with
    | Some cs => Ok cs
    | None => Loop
    end ;;
  let message :=
    match or_else commitMessage (Some (lit "Commit changes: " ++ changesDescription)) with
    | Some msg => msg
    | None => []
    end in
  Ok (Request "https://app-api.copado.com/json/v1/webhook/mcwebhook/commit"
        token "Commit" token (CommitPayload userStoryId parsedChanges message)).

Definition promote_request (userStoryIds : str) (executeDeployment deploymentDryRun : bool)
    (apiKey : option str) : step request :=
  let authToken := apiKey in
  token <- require_token authToken ;;
  let parsedUserStoryIds := PromoteTool.parseUserStoryIds userStoryIds in
  if length parsedUserStoryIds =? 0 then
    Throw "No valid user story IDs provided. Please provide at least one user story ID."
  else
    Ok (Request "https://app-api.copado.com/json/v1/webhook/mcwebhook/promotion"
          token "Promotion" token
          (PromotionPayload parsedUserStoryIds executeDeployment deploymentDryRun
             (lit "a0c8c00000LpAxEAAV"))).

Definition deploy_request (promotionId : str) (apiKey : option str) : step request :=
  let authToken := COPADO_API_KEY in
  token <- require_token authToken ;;
  Ok (Request "https://app-api.copado.com/json/v1/webhook/mcwebhook/promotiondeployment"
        token "PromotionDeployment" token (PromotionDeploymentPayload promotionId)).

Definition check_request (jobExecutionId : str) (apiKey : option str) : step request :=
  let authToken := or_else apiKey COPADO_API_KEY in
  token <- require_token authToken ;;
  Ok (Request "https://app-api.copado.com/json/v1/webhook/mcwebhook/checkStatusAction"
        token "CheckStatusAction" token (CheckStatusPayload jobExecutionId)).

(** The four registered tools with their arguments. *)
Inductive tool_call :=
| commit_changes (userStoryId changesDescription : str) (commitMessage apiKey : option str)
| promote_user_story (userStoryIds : str) (executeDeployment deploymentDryRun : bool)
    (apiKey : option str)
| deploy_promotion (promotionId : str) (apiKey : option str)
| check_job_status (jobExecutionId : str) (apiKey : option str).

(** The part of [execute] before its [fetch]. *)
Definition prepare (call : tool_call) : step request :=
  match call with
  | commit_changes userStoryId changesDescription commitMessage apiKey =>
      commit_request userStoryId changesDescription commitMessage apiKey
  | promote_user_story userStoryIds executeDeployment deploymentDryRun apiKey =>
      promote_request userStoryIds executeDeployment deploymentDryRun apiKey
  | deploy_promotion promotionId apiKey => deploy_request promotionId apiKey
  | check_job_status jobExecutionId apiKey => check_request jobExecutionId apiKey
  end.

(** The answer of the platform and what the rest of [execute] makes of it:
    [true] when it throws (a response that is not ok, among others). *)
Variable response : Type.
Variable fetch : request -> response.
Variable throws_after : response -> bool.

(** What a call of [execute] has done when it returns: the requests it has
    sent and the [isError] flag of its result.  An exception on the way is
    caught and gives the error result. *)
Record outcome := Outcome {
  sent : list request;
  isError : bool
}.

Definition execute (call : tool_call) : option outcome :=
  match prepare call with
  | Ok rq => Some (Outcome [rq] (throws_after (fetch rq)))
  | Throw _ => Some (Outcome [] true)
  | Loop => None
  end.

End Execute.

End Tools.

(** ** Reference definitions the sources are compared with *)

(** [sub] occurs in [s]: the containment [includes] decides. *)
Definition occurs (sub s : str) : Prop := exists pre post, s = pre ++ sub ++ post.

(** The identifier grammar [^[A-Z][A-Za-z0-9_]*$], said directly: what
    [namePattern] tests. *)
Definition identifier_shaped (name : str) : Prop :=
  exists c rest, name = c :: rest /\ is_upper c = true /\ Forall (fun x => is_word x = true) rest.

(** The last type written for a name, and the first one. *)
Definition last_write {V : Type} (name : str) (ws : list (str * V)) : option V :=
  assoc name (rev ws).

Definition first_write {V : Type} (name : str) (ws : list (str * V)) : option V :=
  assoc name ws.

(** The shortest input a pattern can match. *)
Fixpoint min_len (r : regex) : nat :=
  match r with
  | REps | RWordB | RBol | REol | ROpt _ => 0
  | RSet _ => 1
  | RSeq r1 r2 => min_len r1 + min_len r2
  | RAlt r1 r2 => Nat.min (min_len r1) (min_len r2)
  | RRep min _ => min
  | RGroup _ r1 => min_len r1
  end.

(** A pattern without capture groups. *)
Fixpoint group_free (r : regex) : bool :=
  match r with
  | REps | RSet _ | RWordB | RBol | REol | RRep _ _ => true
  | RSeq r1 r2 | RAlt r1 r2 => group_free r1 && group_free r2
  | ROpt r1 => group_free r1
  | RGroup _ _ => false
  end.

(** The shape of a match of [\b(..)\s+(..)\b], the form of the first two
    component patterns: a first group [c1], whitespace [c2], a second group
    [c3], and a word boundary at both ends. *)
Definition word_space_word (seen rest : str) (e : mstate) : Prop :=
  exists c1 c2 c3,
    rest = c1 ++ c2 ++ c3 ++ m_rest e /\
    m_seen e = rev c3 ++ rev c2 ++ rev c1 ++ seen /\
    m_caps e = [(2, c3); (1, c1)] /\
    1 <= length c1 /\ 1 <= length c2 /\ 1 <= length c3 /\
    Forall (fun c => is_space c = true) c2 /\
    at_word_boundary (MState seen rest []) = true /\
    at_word_boundary e = true.

(** A string that does not start with a word character: on what is
    before a position, reversed, and on what is after it, the two sides of
    the boundary of a word. *)
Definition starts_nonword (s : str) : bool :=
  match s with
  | c :: _ => negb (is_word c)
  | [] => true
  end.

(** A word stands between [pre] and [post] as a whole word. *)
Definition whole_word (pre post : str) : bool :=
  starts_nonword (rev pre) && starts_nonword post.

(** The nine words of [typeWord]. *)
Definition typeWords : list str :=
  map lit ["class"; "trigger"; "component"; "flow"; "object"; "field";
           "layout"; "profile"; "label"]%string.

(** [pre] ends with one of the type words, in any letter case and as a
    whole word, and white space after it. *)
Definition after_type_word (pre : str) : bool :=
  let seen := rev pre in
  let k := run_length is_space seen in
  let before := skipn k seen in
  let word := rev (firstn (run_length is_word before) before) in
  (0 <? k) && CommitTool.has typeWords (toLowerCase word).

(** [post] begins with white space and a word that, in lower case, is
    "apex" or a property of [typeMap] other than "class": the words that
    give the name before them another type, or none. *)
Definition other_type_follows (post : str) : bool :=
  let k := run_length is_space post in
  let after := skipn k post in
  let word := toLowerCase (firstn (run_length is_word after) after) in
  (0 <? k) &&
  (str_eqb word (lit "apex") ||
   (has_property CommitTool.typeMap word && negb (str_eqb word (lit "class")))).

Module IdentifierList.

Definition is_bracket_or_quote (c : ascii) : bool :=
  Ascii.eqb c "["%char || Ascii.eqb c "]"%char || Ascii.eqb c dquote || Ascii.eqb c "'"%char.

(** Delete every square bracket, double quote and single quote. *)
Definition strip (s : str) : str := filter (fun c => negb (is_bracket_or_quote c)) s.

(** The three letters of "and", in either case. *)
Definition is_and (s : str) : bool :=
  match s with
  | x :: y :: z :: _ =>
      Ascii.eqb (lower_char x) "a"%char && Ascii.eqb (lower_char y) "n"%char &&
      Ascii.eqb (lower_char z) "d"%char
  | _ => false
  end.

Definition count_spaces (s : str) : nat := run_length is_space s.

(** The reference algorithm, word for word: an "and" with a whitespace
    character right before it and right after it becomes a comma, every
    such "and" of the input. *)
Fixpoint spec_replace_and (after_space : bool) (s : str) : str :=
  match s with
  | [] => []
  | c :: s' =>
      match s' with
      | y :: z :: ((w :: _) as tl) =>
          if after_space && is_and (c :: y :: z :: tl) && is_space w
          then ","%char :: spec_replace_and false tl
          else c :: spec_replace_and (is_space c) s'
      | _ => c :: spec_replace_and (is_space c) s'
      end
  end.

Definition spec_parse (s : str) : list str :=
  filter (fun id => 0 <? length id)
         (map trim (split ","%char (spec_replace_and false (strip s)))).

(** The reference algorithm with the occurrences of "and" as the source
    takes them: from left to right, an occurrence is a run of whitespace,
    the word and a run of whitespace, and it takes both runs whole.
    [and_length s] is the length of the occurrence [s] starts with, 0 when
    it starts with none. *)
Definition and_length (s : str) : nat :=
  let k := count_spaces s in
  let s1 := skipn k s in
  let j := count_spaces (skipn 3 s1) in
  if (0 <? k) && is_and s1 && (0 <? j) then k + 3 + j else 0.

Fixpoint ref_replace_and (fuel : nat) (s : str) : str :=
  match fuel, s with
  | S fuel', c :: s' =>
      match and_length s with
      | 0 => c :: ref_replace_and fuel' s'
      | S len => ","%char :: ref_replace_and fuel' (skipn len s')
      end
  | _, _ => []
  end.

Definition ref_parse (s : str) : list str :=
  let cleaned := strip s in
  filter (fun id => 0 <? length id)
         (map trim (split ","%char (ref_replace_and (length cleaned) cleaned))).

(** A string that is one occurrence up to the first character of its
    second run of whitespace. *)
Definition and_prefix (u : str) : Prop :=
  exists w x y z c,
    u = w ++ [x; y; z; c] /\ w <> [] /\ Forall (fun a => is_space a = true) w /\
    is_and [x; y; z] = true /\ is_space c = true.

(** No occurrence starts anywhere in the string. *)
Definition and_free (s : str) : Prop :=
  forall pre post, s = pre ++ post -> and_length post = 0.

(** What the elements of a parsed list are. *)
Record normal (e : str) : Prop := Normal {
  normal_nonempty : e <> [];
  normal_trimmed : trim e = e;
  normal_no_comma : ~ In ","%char e;
  normal_no_bracket : Forall (fun c => is_bracket_or_quote c = false) e;
  normal_and_free : and_free e
}.

End IdentifierList.

(** The five classes of a status, each with what the tool shows for it. *)
Module StatusBuckets.

Inductive bucket := Completed | Failed | InProgress | Queued | Unknown.

Definition dictionary : list (string * bucket) :=
  [("completed", Completed); ("success", Completed);
   ("failed", Failed); ("error", Failed);
   ("in progress", InProgress); ("running", InProgress);
   ("not started", Queued); ("queued", Queued)]%string.

Definition view (b : bucket) : CheckJobStatusTool.status_view :=
  match b with
  | Completed =>
      CheckJobStatusTool.StatusView "✅" "GREEN"
        "🎉 Deployment completed successfully! Check your destination org."
  | Failed =>
      CheckJobStatusTool.StatusView "❌" "RED"
        "🔍 Check the error details and retry if needed."
  | InProgress =>
      CheckJobStatusTool.StatusView "🔄" "BLUE"
        "⏰ Deployment is still running. Check again in a few minutes."
  | Queued =>
      CheckJobStatusTool.StatusView "⏳" "YELLOW"
        "📋 Job is queued and will start shortly."
  | Unknown =>
      CheckJobStatusTool.StatusView "❔" "GRAY"
        "🔍 Unknown status. Check Copado org for details."
  end.

(** The bucket the dictionary gives a lower-cased status, [Unknown] for a
    status it does not list. *)
Inductive bucket_of (lowered : str) : bucket -> Prop :=
| Listed (word : string) (b : bucket) :
    In (word, b) dictionary -> lowered = lit word -> bucket_of lowered b
| Unlisted :
    (forall word b, In (word, b) dictionary -> lowered <> lit word) ->
    bucket_of lowered Unknown.

End StatusBuckets.

(** ** Further notions for the properties of the parsers *)

(** The names of a list in the order of their first occurrence. *)
Fixpoint distinct_from (seen l : list str) : list str :=
  match l with
  | [] => []
  | x :: l' =>
      if existsb (str_eqb x) seen then distinct_from seen l'
      else x :: distinct_from (x :: seen) l'
  end.

Definition first_occurrences (l : list str) : list str := distinct_from [] l.

(** The letters [A-Za-z]. *)
Definition is_alpha (c : ascii) : bool :=
  between 65 90 (code c) || between 97 122 (code c).

(** Every code unit of the model. *)
Definition all_chars : list ascii := map ascii_of_nat (seq 0 256).

(** Every match of the pattern starts with a character that satisfies [P]. *)
Fixpoint first_chars_ok (ic : bool) (P : ascii -> bool) (r : regex) : bool :=
  match r with
  | RSet cs => forallb (fun c => implb (cs_match ic cs c) (P c)) all_chars
  | RSeq r1 _ => first_chars_ok ic P r1
  | RAlt r1 r2 => first_chars_ok ic P r1 && first_chars_ok ic P r2
  | RRep min cs =>
      (1 <=? min) && forallb (fun c => implb (cs_match ic cs c) (P c)) all_chars
  | RGroup _ r1 => first_chars_ok ic P r1
  | REps | RWordB | RBol | REol | ROpt _ => false
  end.

(** Every capture group of the pattern is around such a pattern. *)
Fixpoint groups_start_ok (ic : bool) (P : ascii -> bool) (r : regex) : bool :=
  match r with
  | RSeq r1 r2 | RAlt r1 r2 => groups_start_ok ic P r1 && groups_start_ok ic P r2
  | ROpt r1 => groups_start_ok ic P r1
  | RGroup _ r1 => first_chars_ok ic P r1 && groups_start_ok ic P r1
  | REps | RSet _ | RWordB | RBol | REol | RRep _ _ => true
  end.

(** ** CheckJobStatusTool: from the fields of the response to the report

    [status = jobExecution['copado__Status__c'] || jobExecution.status ||
    'Unknown'] and the [switch] on [status.toLowerCase()].  A field of the
    parsed response is a string, another truthy value (a number that is
    not zero, [true], an object, an array) or a falsy value that is not a
    string ([undefined], [null], [false], zero). *)
Module StatusFields.

Inductive field :=
| Falsy
| Text (s : str)
| OtherTruthy.

Definition is_truthy (f : field) : bool :=
  match f with
  | Text (_ :: _) => true
  | OtherTruthy => true
  | _ => false
  end.

(** [x || y] *)
Definition or_field (x y : field) : field := if is_truthy x then x else y.

Definition status_of (copado_status status : field) : field :=
  or_field (or_field copado_status status) (Text (lit "Unknown")).

(** The status view of the report; a status that is not a string has no
    [toLowerCase], the call throws a [TypeError] (the message is the
    engine's) and [execute] returns its error result. *)
Definition report (copado_status status : field) : Tools.step CheckJobStatusTool.status_view :=
  match status_of copado_status status with
  | Text s => Tools.Ok (CheckJobStatusTool.classify s)
  | _ => Tools.Throw "status.toLowerCase is not a function"
  end.

End StatusFields.

(** Case analysis on the eight bits of a code unit. *)
Ltac each_char c := destruct c as [[] [] [] [] [] [] [] []].

(** ** Strings: the boolean tests and what they decide *)

Lemma str_eqb_refl (s : str) : str_eqb s s = true.
Proof.
  induction s as [|c s IH]; simpl; [reflexivity|].
  now rewrite Ascii.eqb_refl.
Qed.

Lemma str_eqb_eq (s1 s2 : str) : str_eqb s1 s2 = true <-> s1 = s2.
Proof.
  split.
  - revert s2. induction s1 as [|c s1 IH]; intros [|d s2] H; simpl in H;
      try discriminate; [reflexivity|].
    apply andb_true_iff in H. destruct H as [Hc Hs].
    apply Ascii.eqb_eq in Hc. f_equal; [assumption | now apply IH].
  - intros ->. apply str_eqb_refl.
Qed.

Lemma str_eqb_neq (s1 s2 : str) : str_eqb s1 s2 = false <-> s1 <> s2.
Proof.
  split.
  - intros H E. apply str_eqb_eq in E. congruence.
  - intros H. destruct (str_eqb s1 s2) eqn:E; [|reflexivity].
    apply str_eqb_eq in E. contradiction.
Qed.

Lemma starts_with_app (p s : str) :
  starts_with p s = true <-> exists post, s = p ++ post.
Proof.
  revert s. induction p as [|x p IH]; intros s; simpl.
  - split; [intros _; now exists s | reflexivity].
  - destruct s as [|y s].
    + split; [discriminate | intros [post H]; discriminate].
    + rewrite andb_true_iff, Ascii.eqb_eq, IH. split.
      * intros [-> [post ->]]. now exists post.
      * intros [post H]. injection H as -> ->. split; [reflexivity | now exists post].
Qed.

(** [includes] is containment anywhere in the string. *)
Lemma includes_occurs (s sub : str) : includes s sub = true <-> occurs sub s.
Proof.
  induction s as [|c s IH].
  - simpl. rewrite orb_false_r, starts_with_app. split.
    + intros [post H]. now exists [], post.
    + intros [pre [post H]]. destruct pre; [now exists post | discriminate].
  - simpl. rewrite orb_true_iff, starts_with_app, IH. split.
    + intros [[post H] | [pre [post H]]].
      * now exists [], post.
      * exists (c :: pre), post. simpl. now f_equal.
    + intros [pre [post H]]. destruct pre as [|c' pre].
      * left. now exists post.
      * right. injection H as _ H. now exists pre, post.
Qed.

Lemma includes_not_occurs (s sub : str) : includes s sub = false <-> ~ occurs sub s.
Proof.
  rewrite <- includes_occurs. destruct (includes s sub); split; intros H.
  - discriminate.
  - exfalso. now apply H.
  - intros E. discriminate.
  - reflexivity.
Qed.

(** ** The status classification *)

Section Classification.

Import CheckJobStatusTool StatusBuckets.

Lemma classify_by_lowered (s1 s2 : str) :
  toLowerCase s1 = toLowerCase s2 -> classify s1 = classify s2.
Proof. unfold classify. now intros ->. Qed.

Lemma classify_listed (status : str) (b : bucket) :
  bucket_of (toLowerCase status) b -> classify status = view b.
Proof.
  intros H. unfold classify. destruct H as [word b Hin Heq | Hnot].
  - rewrite Heq. simpl in Hin.
    repeat (destruct Hin as [Hin | Hin];
            [injection Hin as <- <-; vm_compute; reflexivity|]).
    contradiction.
  - assert (Hf : forall word b, In (word, b) dictionary ->
                   str_eqb (toLowerCase status) (lit word) = false).
    { intros word b Hin. apply str_eqb_neq. eapply Hnot; eassumption. }
    rewrite (Hf "completed"%string Completed), (Hf "success"%string Completed),
            (Hf "failed"%string Failed), (Hf "error"%string Failed),
            (Hf "in progress"%string InProgress), (Hf "running"%string InProgress),
            (Hf "not started"%string Queued), (Hf "queued"%string Queued);
      simpl; auto 10.
Qed.

Lemma bucket_of_total (lowered : str) : exists b, bucket_of lowered b.
Proof.
  destruct (existsb (fun e => str_eqb lowered (lit (fst e))) dictionary) eqn:E.
  - apply existsb_exists in E. destruct E as [[word b] [Hin Heq]].
    apply str_eqb_eq in Heq. exists b. now apply Listed with word.
  - exists Unknown. apply Unlisted. intros word b Hin Heq.
    assert (Ht : existsb (fun e => str_eqb lowered (lit (fst e))) dictionary = true).
    { apply existsb_exists. exists (word, b). split; [assumption|].
      now apply str_eqb_eq. }
    congruence.
Qed.

End Classification.

(** ** The regular-expression engine: what a match consumes *)

Lemma rep_match_consumes ic cs min seen rest caps st' :
  In st' (rep_match ic cs min seen rest caps) ->
  exists w, rest = w ++ m_rest st' /\ m_seen st' = rev w ++ seen /\
            min <= length w /\ m_caps st' = caps /\
            Forall (fun c => cs_match ic cs c = true) w.
Proof.
  revert min seen. induction rest as [|c rest IH]; intros min seen H; simpl in H.
  - destruct (min =? 0) eqn:E; [|contradiction].
    destruct H as [<- | []]. apply Nat.eqb_eq in E. subst. now exists [].
  - assert (Hhere : In st' (if min =? 0 then [MState seen (c :: rest) caps] else []) ->
                    exists w, c :: rest = w ++ m_rest st' /\ m_seen st' = rev w ++ seen /\
                              min <= length w /\ m_caps st' = caps /\
                              Forall (fun c => cs_match ic cs c = true) w).
    { intros Hin. destruct (min =? 0) eqn:E; [|contradiction].
      destruct Hin as [<- | []]. apply Nat.eqb_eq in E. subst. now exists []. }
    destruct (cs_match ic cs c) eqn:Ec; [|now apply Hhere].
    apply in_app_or in H. destruct H as [H | H]; [|now apply Hhere].
    apply IH in H. destruct H as [w [Hr [Hs [Hm [Hc Hall]]]]].
    exists (c :: w). simpl. repeat split.
    + now f_equal.
    + now rewrite Hs, <- app_assoc.
    + lia.
    + assumption.
    + now constructor.
Qed.

Lemma rx_match_consumes ic r : forall st st',
  In st' (rx_match ic r st) ->
  exists w, m_rest st = w ++ m_rest st' /\ m_seen st' = rev w ++ m_seen st /\
            min_len r <= length w.
Proof.
  induction r as [| cs | | | | r1 IH1 r2 IH2 | r1 IH1 r2 IH2 | r1 IH1 | min cs | k r1 IH1];
    intros st st' H; simpl in H.
  - destruct H as [<- | []]. now exists [].
  - destruct (m_rest st) as [|c rest] eqn:Er; [contradiction|].
    destruct (cs_match ic cs c); [|contradiction].
    destruct H as [<- | []]. now exists [c].
  - destruct (at_word_boundary st); [|contradiction].
    destruct H as [<- | []]. now exists [].
  - destruct (m_seen st) eqn:Es; [|contradiction]. destruct H as [<- | []].
    exists []. now rewrite Es.
  - destruct (m_rest st) eqn:Er; [|contradiction]. destruct H as [<- | []].
    exists []. now rewrite Er.
  - apply in_flat_map in H. destruct H as [st1 [H1 H2]].
    apply IH1 in H1. apply IH2 in H2.
    destruct H1 as [w1 [Hr1 [Hs1 Hm1]]]. destruct H2 as [w2 [Hr2 [Hs2 Hm2]]].
    exists (w1 ++ w2). repeat split.
    + now rewrite Hr1, Hr2, app_assoc.
    + now rewrite Hs2, Hs1, rev_app_distr, app_assoc.
    + simpl. rewrite length_app. lia.
  - apply in_app_or in H. destruct H as [H | H]; [apply IH1 in H | apply IH2 in H];
      destruct H as [w [Hr [Hs Hm]]]; exists w; simpl; repeat split; auto; lia.
  - apply in_app_or in H. destruct H as [H | H].
    + apply filter_In in H. destruct H as [H _]. apply IH1 in H.
      destruct H as [w [Hr [Hs Hm]]]. exists w. simpl. repeat split; auto; lia.
    + destruct H as [<- | []]. exists []. simpl. auto.
  - apply rep_match_consumes in H. destruct H as [w [Hr [Hs [Hm _]]]]. now exists w.
  - apply in_map_iff in H. destruct H as [st1 [<- H]]. apply IH1 in H.
    destruct H as [w [Hr [Hs Hm]]]. now exists w.
Qed.

Lemma rx_search_consumes ic r : forall rest seen mt,
  rx_search ic r seen rest = Some mt ->
  exists skipped w,
    rest = skipped ++ w ++ m_rest (m_end mt) /\
    m_seen (m_end mt) = rev w ++ rev skipped ++ seen /\
    min_len r <= length w /\
    index mt = length seen + length skipped.
Proof.
  induction rest as [|c rest IH]; intros seen mt H; simpl in H.
  - destruct (rx_match ic r (MState seen [] [])) as [|e l] eqn:E; [discriminate|].
    injection H as <-. assert (Hin : In e (rx_match ic r (MState seen [] []))).
    { rewrite E. now left. }
    apply rx_match_consumes in Hin. destruct Hin as [w [Hr [Hs Hm]]].
    exists [], w. simpl in *. repeat split; auto.
  - destruct (rx_match ic r (MState seen (c :: rest) [])) as [|e l] eqn:E.
    + apply IH in H. destruct H as [skipped [w [Hr [Hs [Hm Hi]]]]].
      exists (c :: skipped), w. simpl. repeat split.
      * now f_equal.
      * rewrite Hs. now rewrite <- !app_assoc.
      * assumption.
      * rewrite Hi. simpl. lia.
    + injection H as <-. assert (Hin : In e (rx_match ic r (MState seen (c :: rest) []))).
      { rewrite E. now left. }
      apply rx_match_consumes in Hin. destruct Hin as [w [Hr [Hs Hm]]].
      exists [], w. simpl in *. repeat split; auto.
Qed.

(** A pattern that cannot match the empty string ends its [exec] loop
    within one call per position and one more. *)
Lemma exec_all_total ic r : 1 <= min_len r ->
  forall fuel seen rest, length rest < fuel ->
  exists ms, exec_all fuel ic r seen rest = Some ms.
Proof.
  intros Hmin. induction fuel as [|fuel IH]; intros seen rest Hlen; [lia|].
  simpl. destruct (rx_search ic r seen rest) as [mt|] eqn:E; [|now exists []].
  apply rx_search_consumes in E. destruct E as [skipped [w [Hr [Hs [Hm Hi]]]]].
  destruct (IH (m_seen (m_end mt)) (m_rest (m_end mt))) as [ms Hms].
  - rewrite Hr in Hlen. rewrite !length_app in Hlen. lia.
  - rewrite Hms. now exists (mt :: ms).
Qed.

(** ** Maps in insertion order *)

Section MapSet.

Context {V : Type}.
Implicit Types (m ws : list (str * V)) (k : str) (v : V).

Lemma assoc_map_set k' k v m :
  assoc k' (map_set k v m) = if str_eqb k' k then Some v else assoc k' m.
Proof.
  induction m as [|[k0 v0] m IH]; simpl.
  - destruct (str_eqb k' k); reflexivity.
  - destruct (str_eqb k k0) eqn:E; simpl.
    + apply str_eqb_eq in E. subst k0. destruct (str_eqb k' k); reflexivity.
    + rewrite IH. destruct (str_eqb k' k0) eqn:E0; [|reflexivity].
      destruct (str_eqb k' k) eqn:E1; [|reflexivity].
      apply str_eqb_eq in E0, E1. subst. rewrite str_eqb_refl in E. discriminate.
Qed.

Lemma in_keys_map_set k' k v m :
  In k' (map fst (map_set k v m)) <-> k' = k \/ In k' (map fst m).
Proof.
  induction m as [|[k0 v0] m IH]; simpl.
  - intuition.
  - destruct (str_eqb k k0) eqn:E; simpl.
    + apply str_eqb_eq in E. subst k0. intuition.
    + rewrite IH. intuition.
Qed.

Lemma NoDup_keys_map_set k v m :
  NoDup (map fst m) -> NoDup (map fst (map_set k v m)).
Proof.
  induction m as [|[k0 v0] m IH]; simpl; intros H.
  - constructor; [intros [] | constructor].
  - inversion H as [|x l Hnin Hnd]; subst.
    destruct (str_eqb k k0) eqn:E; simpl.
    + now constructor.
    + constructor; [|now apply IH].
      rewrite in_keys_map_set. intros [-> | Hin]; [|contradiction].
      rewrite str_eqb_refl in E. discriminate.
Qed.

Lemma NoDup_keys_apply_writes ws : forall m,
  NoDup (map fst m) -> NoDup (map fst (CommitTool.apply_writes ws m)).
Proof.
  unfold CommitTool.apply_writes. induction ws as [|[k v] ws IH]; intros m H; simpl; [assumption|].
  apply IH. now apply NoDup_keys_map_set.
Qed.

Lemma in_keys_apply_writes k ws : forall m,
  In k (map fst (CommitTool.apply_writes ws m)) <-> In k (map fst ws) \/ In k (map fst m).
Proof.
  unfold CommitTool.apply_writes. induction ws as [|[k0 v0] ws IH]; intros m; simpl.
  - intuition.
  - rewrite IH, in_keys_map_set. intuition.
Qed.

Lemma assoc_app_some k ws1 ws2 v :
  assoc k ws1 = Some v -> assoc k (ws1 ++ ws2) = Some v.
Proof.
  induction ws1 as [|[k0 v0] ws1 IH]; simpl; [discriminate|].
  destruct (str_eqb k k0); auto.
Qed.

Lemma assoc_app_none k ws1 ws2 :
  assoc k ws1 = None -> assoc k (ws1 ++ ws2) = assoc k ws2.
Proof.
  induction ws1 as [|[k0 v0] ws1 IH]; simpl; [reflexivity|].
  destruct (str_eqb k k0); [discriminate | auto].
Qed.

Lemma assoc_in_keys k m : In k (map fst m) -> exists v, assoc k m = Some v.
Proof.
  induction m as [|[k0 v0] m IH]; simpl; [intros []|].
  intros [-> | H].
  - rewrite str_eqb_refl. now exists v0.
  - destruct (str_eqb k k0); [now exists v0 | auto].
Qed.

Lemma assoc_not_in_keys k m : ~ In k (map fst m) -> assoc k m = None.
Proof.
  induction m as [|[k0 v0] m IH]; simpl; [reflexivity|].
  intros H. destruct (str_eqb k k0) eqn:E.
  - apply str_eqb_eq in E. subst. exfalso. apply H. now left.
  - apply IH. intros Hin. apply H. now right.
Qed.

(** After a sequence of writes a key holds the value of its last write. *)
Lemma assoc_apply_writes k ws : forall m,
  assoc k (CommitTool.apply_writes ws m) =
  match last_write k ws with
  | Some v => Some v
  | None => assoc k m
  end.
Proof.
  unfold CommitTool.apply_writes, last_write.
  induction ws as [|[k0 v0] ws IH]; intros m; simpl; [reflexivity|].
  rewrite IH, assoc_map_set.
  destruct (assoc k (rev ws)) as [v|] eqn:E.
  - erewrite assoc_app_some; [reflexivity | eassumption].
  - rewrite assoc_app_none by assumption. simpl.
    destruct (str_eqb k k0); reflexivity.
Qed.

Lemma filter_key_none k m :
  ~ In k (map fst m) -> filter (fun e => str_eqb (fst e) k) m = [].
Proof.
  induction m as [|[k0 v0] m IH]; simpl; [reflexivity|].
  intros H. destruct (str_eqb k0 k) eqn:E.
  - apply str_eqb_eq in E. subst. exfalso. apply H. now left.
  - apply IH. intros Hin. apply H. now right.
Qed.

(** With distinct keys, exactly one entry has a given key. *)
Lemma filter_key_unique k v m :
  NoDup (map fst m) -> assoc k m = Some v ->
  filter (fun e => str_eqb (fst e) k) m = [(k, v)].
Proof.
  induction m as [|[k0 v0] m IH]; simpl; [discriminate|].
  intros Hnd H. inversion Hnd as [|x l Hnin Hnd']; subst.
  destruct (str_eqb k k0) eqn:E.
  - apply str_eqb_eq in E. subst k0. injection H as ->.
    rewrite str_eqb_refl. f_equal. now apply filter_key_none.
  - destruct (str_eqb k0 k) eqn:E'.
    + apply str_eqb_eq in E'. subst. rewrite str_eqb_refl in E. discriminate.
    + now apply IH.
Qed.

End MapSet.

(** ** The change-description parser: it returns, and what it returns *)

Section Parser.

Import CommitTool.

Lemma pattern_writes_total (p : bool * regex) (description : str) (fuel : nat) :
  1 <= min_len (snd p) -> length description < fuel ->
  exists ws, pattern_writes fuel p description = Some ws.
Proof.
  intros Hmin Hlen. unfold pattern_writes.
  destruct (exec_all_total (fst p) (snd p) Hmin fuel [] description Hlen) as [ms ->].
  now eexists.
Qed.

Lemma all_writes_total (ps : list (bool * regex)) (description : str) (fuel : nat) :
  Forall (fun p => 1 <= min_len (snd p)) ps -> length description < fuel ->
  exists ws, all_writes fuel ps description = Some ws.
Proof.
  intros Hall Hlen. induction Hall as [|p ps Hp Hps IH]; simpl; [now eexists|].
  destruct (pattern_writes_total p description fuel Hp Hlen) as [w ->].
  destruct IH as [ws ->]. now eexists.
Qed.

Lemma componentPatterns_consume :
  Forall (fun p => 1 <= min_len (snd p)) componentPatterns.
Proof. repeat constructor; vm_compute; lia. Qed.

Lemma fallback_writes_total (description : str) (fuel : nat) :
  length description < fuel -> exists ws, fallback_writes fuel description = Some ws.
Proof.
  intros Hlen. unfold fallback_writes.
  assert (Hmin : 1 <= min_len (snd fallbackPattern)) by (vm_compute; lia).
  destruct (exec_all_total (fst fallbackPattern) (snd fallbackPattern) Hmin
              fuel [] description Hlen) as [ms ->].
  now eexists.
Qed.

Lemma found_components_total (description : str) :
  exists found, found_components (S (S (length description))) description = Some found.
Proof.
  unfold found_components.
  assert (Hlen : length description < S (S (length description))) by lia.
  destruct (all_writes_total componentPatterns description _
              componentPatterns_consume Hlen) as [ws ->].
  destruct (apply_writes ws []); [|now eexists].
  destruct (fallback_writes_total description _ Hlen) as [fws ->]. now eexists.
Qed.

Lemma found_components_distinct (fuel : nat) (description : str) found :
  found_components fuel description = Some found -> NoDup (map fst found).
Proof.
  unfold found_components. intros H.
  destruct (all_writes fuel componentPatterns description) as [ws|]; [|discriminate].
  destruct (apply_writes ws []) as [|e l] eqn:E.
  - destruct (fallback_writes fuel description) as [fws|]; [|discriminate].
    injection H as <-. apply NoDup_keys_apply_writes. constructor.
  - injection H as <-. rewrite <- E. apply NoDup_keys_apply_writes. constructor.
Qed.

Lemma changes_of_nonempty (act : str) found : changes_of act found <> [].
Proof. destruct found; simpl; discriminate. Qed.

Lemma changes_of_action (act : str) found :
  Forall (fun c => a c = act) (changes_of act found).
Proof.
  destruct found as [|e l]; simpl.
  - repeat constructor.
  - constructor; [reflexivity|]. apply Forall_forall. intros c Hin.
    apply in_map_iff in Hin. now destruct Hin as [e' [<- _]].
Qed.

Lemma changes_of_names (act : str) found :
  found <> [] -> map n (changes_of act found) = map fst found.
Proof.
  destruct found as [|e l]; [contradiction|]. intros _. simpl. f_equal.
  rewrite map_map. reflexivity.
Qed.

(** The first keyword of the map that the text contains decides. *)
Lemma first_action_occurs (before after : list (str * str)) (keyword action : str)
    (lowerDesc dflt : str) :
  occurs keyword lowerDesc ->
  (forall k, In k (map fst before) -> ~ occurs k lowerDesc) ->
  first_action (before ++ (keyword, action) :: after) lowerDesc dflt = action.
Proof.
  intros Hocc. induction before as [|[k0 a0] before IH]; intros Hnot; simpl.
  - apply includes_occurs in Hocc. now rewrite Hocc.
  - assert (E : includes lowerDesc k0 = false).
    { apply includes_not_occurs. apply Hnot. now left. }
    rewrite E. apply IH. intros k Hin. apply Hnot. now right.
Qed.

Lemma first_action_none (entries : list (str * str)) (lowerDesc dflt : str) :
  (forall k, In k (map fst entries) -> ~ occurs k lowerDesc) ->
  first_action entries lowerDesc dflt = dflt.
Proof.
  induction entries as [|[k0 a0] entries IH]; intros Hnot; simpl; [reflexivity|].
  assert (E : includes lowerDesc k0 = false).
  { apply includes_not_occurs. apply Hnot. now left. }
  rewrite E. apply IH. intros k Hin. apply Hnot. now right.
Qed.

Lemma parse_returns (description : str) :
  exists found,
    found_components (S (S (length description))) description = Some found /\
    parseChangesToCopadoFormat description =
      Some (changes_of (defaultAction description) found).
Proof.
  destruct (found_components_total description) as [found H]. exists found.
  split; [assumption|]. unfold parseChangesToCopadoFormat, parse_with. now rewrite H.
Qed.

End Parser.

(** ** The engine on a greedy repetition *)

Lemma run_length_le (p : ascii -> bool) (s : str) : run_length p s <= length s.
Proof. induction s as [|c s IH]; simpl; [lia|]. destruct (p c); simpl; lia. Qed.

Lemma run_length_firstn (p : ascii -> bool) (s : str) :
  Forall (fun c => p c = true) (firstn (run_length p s) s).
Proof.
  induction s as [|c s IH]; simpl; [constructor|].
  destruct (p c) eqn:E; simpl; [now constructor | constructor].
Qed.

Lemma run_length_app (p : ascii -> bool) (w rest : str) :
  Forall (fun c => p c = true) w ->
  run_length p (w ++ rest) = length w + run_length p rest.
Proof.
  induction 1 as [|c w Hc Hw IH]; simpl; [reflexivity|]. now rewrite Hc, IH.
Qed.

Lemma firstn_length_app {A : Type} (w rest : list A) : firstn (length w) (w ++ rest) = w.
Proof. induction w as [|x w IH]; simpl; [now destruct rest | now f_equal]. Qed.

Lemma skipn_length_app {A : Type} (w rest : list A) : skipn (length w) (w ++ rest) = rest.
Proof. induction w as [|x w IH]; simpl; auto. Qed.

Lemma advance_cons k c seen rest caps :
  advance (S k) seen (c :: rest) caps = advance k (c :: seen) rest caps.
Proof. unfold advance. simpl. now rewrite <- app_assoc. Qed.

(** A greedy repetition tries its longest run first. *)
Lemma rep_match_head ic cs min rest : forall seen caps,
  hd_error (rep_match ic cs min seen rest caps) =
  if min <=? run_length (cs_match ic cs) rest
  then Some (advance (run_length (cs_match ic cs) rest) seen rest caps)
  else None.
Proof.
  revert min. induction rest as [|c rest IH]; intros min seen caps; simpl.
  - destruct min; reflexivity.
  - destruct (cs_match ic cs c) eqn:Ec.
    + rewrite advance_cons.
      destruct (rep_match ic cs (pred min) (c :: seen) rest caps) as [|e l] eqn:E.
      * specialize (IH (pred min) (c :: seen) caps). rewrite E in IH. simpl in IH.
        destruct min as [|min]; simpl in *.
        -- discriminate.
        -- destruct (min <=? run_length (cs_match ic cs) rest); [discriminate | reflexivity].
      * specialize (IH (pred min) (c :: seen) caps). rewrite E in IH. simpl in *.
        destruct min as [|min]; simpl in *; [assumption|].
        destruct (min <=? run_length (cs_match ic cs) rest); [assumption | discriminate].
    + destruct min; reflexivity.
Qed.

(** What follows a greedy repetition and cannot start with a character of
    the class is tried after the whole run only. *)
Lemma flat_map_rep_match {B : Type} (f : mstate -> list B) ic cs :
  (forall st c r, m_rest st = c :: r -> cs_match ic cs c = true -> f st = []) ->
  forall rest min seen caps,
  flat_map f (rep_match ic cs min seen rest caps) =
  if min <=? run_length (cs_match ic cs) rest
  then f (advance (run_length (cs_match ic cs) rest) seen rest caps)
  else [].
Proof.
  intros Hf. induction rest as [|c rest IH]; intros min seen caps; simpl.
  - destruct min; simpl; [apply app_nil_r | reflexivity].
  - destruct (cs_match ic cs c) eqn:Ec.
    + rewrite flat_map_app, IH, advance_cons.
      assert (Hhere : flat_map f (if min =? 0 then [MState seen (c :: rest) caps] else []) = []).
      { destruct (min =? 0); [|reflexivity]. simpl. rewrite app_nil_r.
        now apply Hf with c rest. }
      rewrite Hhere, app_nil_r. destruct min; reflexivity.
    + destruct min; simpl; [apply app_nil_r | reflexivity].
Qed.

(** ** Characters: the classes of the patterns, by cases on the code unit *)

Lemma bracketOrQuote_class (c : ascii) :
  cs_match false (CRanges [("[", "["); ("]", "]"); (dquote, dquote); ("'", "'")]%char) c =
  IdentifierList.is_bracket_or_quote c.
Proof. each_char c; reflexivity. Qed.

Lemma letter_a_class (c : ascii) :
  cs_match true (CRanges [("a", "a")]%char) c = Ascii.eqb (lower_char c) "a"%char.
Proof. each_char c; reflexivity. Qed.

Lemma letter_n_class (c : ascii) :
  cs_match true (CRanges [("n", "n")]%char) c = Ascii.eqb (lower_char c) "n"%char.
Proof. each_char c; reflexivity. Qed.

Lemma letter_d_class (c : ascii) :
  cs_match true (CRanges [("d", "d")]%char) c = Ascii.eqb (lower_char c) "d"%char.
Proof. each_char c; reflexivity. Qed.

Lemma letter_a_not_space (c : ascii) :
  Ascii.eqb (lower_char c) "a"%char = true -> is_space c = false.
Proof. each_char c; vm_compute; congruence. Qed.

Lemma space_not_comma (c : ascii) : is_space c = true -> c <> ","%char.
Proof. each_char c; vm_compute; congruence. Qed.

Lemma space_not_bracket (c : ascii) :
  is_space c = true -> IdentifierList.is_bracket_or_quote c = false.
Proof. each_char c; vm_compute; congruence. Qed.

(** ** The identifier-list parser *)

Section IdentifierListParser.

Import PromoteTool IdentifierList.

Lemma advance_0 seen rest caps : advance 0 seen rest caps = MState seen rest caps.
Proof. reflexivity. Qed.

Lemma advance_advance a b : forall seen rest caps,
  advance b (m_seen (advance a seen rest caps)) (m_rest (advance a seen rest caps)) caps =
  advance (a + b) seen rest caps.
Proof.
  induction a as [|a IH]; intros seen rest caps; [reflexivity|].
  destruct rest as [|c rest].
  - unfold advance. simpl. rewrite !firstn_nil, !skipn_nil. reflexivity.
  - change (S a + b) with (S (a + b)). rewrite !advance_cons. apply IH.
Qed.

Lemma m_pos_advance k seen rest caps :
  k <= length rest -> m_pos (advance k seen rest caps) = length seen + k.
Proof.
  intros H. unfold m_pos, advance. simpl.
  rewrite length_app, length_rev, length_firstn. lia.
Qed.

Lemma strip_is_replace (s : str) : replace_all false bracketOrQuote [] s = strip s.
Proof.
  unfold replace_all.
  enough (H : forall seen, replace_from false bracketOrQuote [] seen s 0 = strip s)
    by apply H.
  induction s as [|c s IH]; intros seen; [reflexivity|].
  cbn [replace_from rx_match bracketOrQuote m_rest m_seen m_caps].
  rewrite bracketOrQuote_class. cbn [strip filter].
  destruct (is_bracket_or_quote c); cbn [negb].
  - cbn [m_pos m_seen length].
    replace (S (length seen) - length seen) with 1 by lia.
    cbn [Nat.eqb Nat.sub app]. apply IH.
  - f_equal. apply IH.
Qed.

Lemma lit_and_match seen rest caps :
  rx_match true (rlit "and") (MState seen rest caps) =
  if is_and rest then [advance 3 seen rest caps] else [].
Proof.
  change (rlit "and") with (RSeq (rchar "a") (RSeq (rchar "n") (rchar "d"))).
  unfold rchar. destruct rest as [|x [|y [|z r]]];
    cbn [rx_match m_rest m_seen m_caps flat_map is_and app];
    rewrite ?letter_a_class; try reflexivity.
  - destruct (Ascii.eqb (lower_char x) "a"); reflexivity.
  - destruct (Ascii.eqb (lower_char x) "a"); cbn [flat_map m_rest app]; [|reflexivity].
    rewrite letter_n_class. destruct (Ascii.eqb (lower_char y) "n"); reflexivity.
  - destruct (Ascii.eqb (lower_char x) "a"); cbn [flat_map m_rest m_seen m_caps app andb];
      [|reflexivity].
    rewrite letter_n_class.
    destruct (Ascii.eqb (lower_char y) "n"); cbn [flat_map m_rest m_seen m_caps app andb];
      [|reflexivity].
    rewrite letter_d_class.
    destruct (Ascii.eqb (lower_char z) "d"); reflexivity.
Qed.

Lemma lit_and_match_state (st : mstate) :
  rx_match true (rlit "and") st =
  if is_and (m_rest st) then [advance 3 (m_seen st) (m_rest st) (m_caps st)] else [].
Proof. destruct st. apply lit_and_match. Qed.

Lemma is_and_not_space (c : ascii) (r : str) :
  is_space c = true -> is_and (c :: r) = false.
Proof.
  intros H. destruct r as [|y [|z r]]; try reflexivity. cbn [is_and].
  destruct (Ascii.eqb (lower_char c) "a") eqn:E; [|reflexivity].
  apply letter_a_not_space in E. congruence.
Qed.

Lemma and_length_le (s : str) : and_length s <= length s.
Proof.
  unfold and_length.
  destruct ((0 <? count_spaces s) && is_and (skipn (count_spaces s) s) &&
            (0 <? count_spaces (skipn 3 (skipn (count_spaces s) s)))) eqn:E; [|lia].
  apply andb_true_iff in E. destruct E as [_ Ej]. apply Nat.ltb_lt in Ej.
  pose proof (run_length_le is_space (skipn 3 (skipn (count_spaces s) s))) as H.
  unfold count_spaces in *. rewrite !length_skipn in H. lia.
Qed.

(** The first way [\s+and\s+] matches at a position is the occurrence
    [and_length] measures there. *)
Lemma and_match_head seen rest :
  hd_error (rx_match true andPattern (MState seen rest [])) =
  if and_length rest =? 0 then None
  else Some (advance (and_length rest) seen rest []).
Proof.
  change andPattern with
    (RSeq (RRep 1 CSpace) (RSeq (rlit "and") (RRep 1 CSpace))).
  cbn [rx_match m_seen m_rest m_caps].
  rewrite flat_map_rep_match.
  2:{ intros [sn rs cp] c r Hr Hc. cbn [m_rest] in Hr. subst rs.
      rewrite lit_and_match. change (cs_match true CSpace c) with (is_space c) in Hc.
      now rewrite (is_and_not_space c r Hc). }
  unfold and_length, count_spaces.
  change (run_length (cs_match true CSpace) rest) with (run_length is_space rest).
  set (k := run_length is_space rest).
  change (0 <? k) with (1 <=? k).
  destruct (1 <=? k) eqn:Ek; [|reflexivity]. cbn [andb rx_match].
  rewrite lit_and_match_state.
  change (m_rest (advance k seen rest [])) with (skipn k rest).
  change (m_caps (advance k seen rest [])) with (@nil (nat * str)).
  destruct (is_and (skipn k rest)) eqn:Ea; [|reflexivity]. cbn [andb flat_map].
  rewrite app_nil_r, advance_advance, rep_match_head.
  change (m_caps (advance (k + 3) seen rest [])) with (@nil (nat * str)).
  rewrite advance_advance.
  change (m_rest (advance (k + 3) seen rest [])) with (skipn (k + 3) rest).
  rewrite skipn_skipn, (Nat.add_comm 3 k).
  change (run_length (cs_match true CSpace) (skipn (k + 3) rest))
    with (run_length is_space (skipn (k + 3) rest)).
  set (j := run_length is_space (skipn (k + 3) rest)).
  change (0 <? j) with (1 <=? j).
  destruct (1 <=? j) eqn:Ej; [|reflexivity].
  replace (k + 3 + j =? 0) with false by (symmetry; apply Nat.eqb_neq; lia).
  reflexivity.
Qed.

Lemma and_match_none seen rest :
  and_length rest = 0 -> rx_match true andPattern (MState seen rest []) = [].
Proof.
  intros H. pose proof (and_match_head seen rest) as Hh. rewrite H in Hh.
  destruct (rx_match true andPattern (MState seen rest [])); [reflexivity | discriminate].
Qed.

Lemma and_match_some seen rest len :
  and_length rest = S len ->
  exists e l, rx_match true andPattern (MState seen rest []) = e :: l /\
              m_pos e - length seen = S len.
Proof.
  intros H. pose proof (and_match_head seen rest) as Hh. rewrite H in Hh.
  destruct (rx_match true andPattern (MState seen rest [])) as [|e l]; [discriminate|].
  injection Hh as ->. exists (advance (S len) seen rest []), l. split; [reflexivity|].
  rewrite m_pos_advance; [lia|]. rewrite <- H. apply and_length_le.
Qed.

(** Passing over the rest of a match. *)
Lemma replace_from_skip ic r repl skip : forall rest seen,
  skip <= length rest ->
  exists seen', replace_from ic r repl seen rest skip =
                replace_from ic r repl seen' (skipn skip rest) 0.
Proof.
  induction skip as [|skip IH]; intros rest seen H.
  - now exists seen.
  - destruct rest as [|c rest]; [simpl in H; lia|].
    destruct (IH rest (c :: seen)) as [seen' Hs]; [simpl in H; lia|].
    exists seen'. exact Hs.
Qed.

Lemma replace_and_is_ref : forall fuel rest seen,
  length rest <= fuel ->
  replace_from true andPattern (lit ",") seen rest 0 = ref_replace_and fuel rest.
Proof.
  induction fuel as [|fuel IH]; intros rest seen Hlen.
  - destruct rest; [|simpl in Hlen; lia]. cbn [replace_from ref_replace_and].
    now rewrite and_match_none.
  - destruct rest as [|c rest].
    + cbn [replace_from ref_replace_and]. now rewrite and_match_none.
    + cbn [replace_from ref_replace_and].
      destruct (and_length (c :: rest)) as [|len] eqn:E.
      * rewrite (and_match_none _ _ E). f_equal. apply IH. simpl in Hlen. lia.
      * destruct (and_match_some seen (c :: rest) len E) as [e [l [-> Hpos]]].
        rewrite Hpos. cbn [Nat.eqb]. replace (S len - 1) with len by lia.
        change (lit ",") with [","%char]. cbn [app]. f_equal.
        assert (Hle : len <= length rest).
        { pose proof (and_length_le (c :: rest)) as Hl. rewrite E in Hl. simpl in Hl. lia. }
        destruct (replace_from_skip true andPattern [","%char] len rest (c :: seen) Hle)
          as [seen' ->].
        apply IH. rewrite length_skipn. simpl in Hlen. lia.
Qed.

Lemma parseUserStoryIds_is_ref (s : str) : parseUserStoryIds s = ref_parse s.
Proof.
  unfold parseUserStoryIds, ref_parse. cbv zeta.
  rewrite strip_is_replace. unfold replace_all.
  now rewrite (replace_and_is_ref (length (strip s)) (strip s) []).
Qed.

Lemma and_length_prefix (s : str) :
  and_length s <> 0 <-> exists u rest, s = u ++ rest /\ and_prefix u.
Proof.
  split.
  - unfold and_length, count_spaces.
    set (k := run_length is_space s).
    destruct ((0 <? k) && is_and (skipn k s) &&
              (0 <? run_length is_space (skipn 3 (skipn k s)))) eqn:E;
      [intros _ | intros H; now contradiction H].
    apply andb_true_iff in E. destruct E as [E Ej].
    apply andb_true_iff in E. destruct E as [Ek Ea].
    apply Nat.ltb_lt in Ek, Ej.
    destruct (skipn k s) as [|x [|y [|z r]]] eqn:Es; try discriminate.
    cbn [skipn] in Ej. destruct r as [|c r]; [simpl in Ej; lia|].
    cbn [run_length] in Ej. destruct (is_space c) eqn:Ec; [|lia].
    exists (firstn k s ++ [x; y; z; c]), r. split.
    + rewrite <- app_assoc. cbn [app]. rewrite <- Es. symmetry. apply firstn_skipn.
    + exists (firstn k s), x, y, z, c. repeat split; auto.
      * intros Hnil. apply (f_equal (@length ascii)) in Hnil.
        rewrite length_firstn in Hnil. pose proof (run_length_le is_space s).
        fold k in H. simpl in Hnil. lia.
      * apply run_length_firstn.
  - intros [u [rest [-> [w [x [y [z [c [-> [Hw [Hsp [Ha Hc]]]]]]]]]]]].
    rewrite <- app_assoc. cbn [app].
    assert (Hx : is_space x = false).
    { cbn [is_and] in Ha. apply andb_true_iff in Ha. destruct Ha as [Ha _].
      apply andb_true_iff in Ha. destruct Ha as [Ha _]. now apply letter_a_not_space. }
    unfold and_length, count_spaces.
    rewrite (run_length_app is_space w _ Hsp). cbn [run_length]. rewrite Hx.
    rewrite Nat.add_0_r, skipn_length_app. cbn [skipn run_length].
    rewrite Hc. cbn [is_and] in Ha |- *. rewrite Ha.
    assert (0 < length w) by (destruct w; [contradiction | simpl; lia]).
    replace (0 <? length w) with true by (symmetry; apply Nat.ltb_lt; lia).
    cbn [andb Nat.ltb Nat.leb]. lia.
Qed.

Lemma and_prefix_no_comma (u : str) : and_prefix u -> ~ In ","%char u.
Proof.
  intros [w [x [y [z [c [-> [Hw [Hsp [Ha Hc]]]]]]]]] Hin.
  apply in_app_or in Hin. destruct Hin as [Hin | Hin].
  - rewrite Forall_forall in Hsp. apply Hsp in Hin. revert Hin. vm_compute. discriminate.
  - cbn [is_and] in Ha. apply andb_true_iff in Ha. destruct Ha as [Ha Hz].
    apply andb_true_iff in Ha. destruct Ha as [Hx Hy].
    destruct Hin as [-> | [-> | [-> | [-> | []]]]];
      try (revert Hx; vm_compute; discriminate);
      try (revert Hy; vm_compute; discriminate);
      try (revert Hz; vm_compute; discriminate);
      revert Hc; vm_compute; discriminate.
Qed.

(** Up to its first comma the result is the input. *)
Lemma ref_replace_and_prefix : forall fuel s u rest,
  ref_replace_and fuel s = u ++ rest -> ~ In ","%char u ->
  exists rest', s = u ++ rest'.
Proof.
  induction fuel as [|fuel IH]; intros s u rest H Hu.
  - destruct u; [now exists s|]. destruct s; discriminate.
  - destruct s as [|c s]; [destruct u; [now exists [] | discriminate]|].
    cbn [ref_replace_and] in H. destruct u as [|c' u]; [now eexists|].
    destruct (and_length (c :: s)) as [|len].
    + injection H as <- H. apply IH in H.
      * destruct H as [rest' ->]. now exists rest'.
      * intros Hin. apply Hu. now right.
    + injection H as <- _. exfalso. apply Hu. now left.
Qed.

Lemma and_free_nil : and_free [].
Proof. intros pre post H. symmetry in H. apply app_eq_nil in H. now destruct H as [_ ->]. Qed.

Lemma and_free_cons (c : ascii) (s : str) :
  and_length (c :: s) = 0 -> and_free s -> and_free (c :: s).
Proof.
  intros H0 Hs pre post H. destruct pre as [|c' pre].
  - simpl in H. now subst post.
  - injection H as _ H. now apply (Hs pre).
Qed.

Lemma and_free_tail (c : ascii) (s : str) : and_free (c :: s) -> and_free s.
Proof. intros H pre post E. apply (H (c :: pre)). simpl. now f_equal. Qed.

Lemma ref_replace_and_free : forall fuel s, and_free (ref_replace_and fuel s).
Proof.
  induction fuel as [|fuel IH]; intros s.
  - destruct s; apply and_free_nil.
  - destruct s as [|c s]; [apply and_free_nil|].
    destruct (and_length (c :: s)) as [|len] eqn:E.
    + destruct (Nat.eq_dec (and_length (ref_replace_and (S fuel) (c :: s))) 0) as [H0 | H0].
      * cbn [ref_replace_and] in *. rewrite E in *. apply and_free_cons; [assumption | apply IH].
      * exfalso. apply and_length_prefix in H0. destruct H0 as [u [rest [Hr Hu]]].
        apply ref_replace_and_prefix in Hr; [|now apply and_prefix_no_comma].
        destruct Hr as [rest' Hr].
        assert (Hne : and_length (c :: s) <> 0).
        { apply and_length_prefix. now exists u, rest'. }
        contradiction.
    + cbn [ref_replace_and]. rewrite E. apply and_free_cons; [reflexivity | apply IH].
Qed.

Lemma and_free_infix (pre p post : str) : and_free (pre ++ p ++ post) -> and_free p.
Proof.
  intros H a t ->. destruct (Nat.eq_dec (and_length t) 0) as [H0 | H0]; [assumption|].
  exfalso. apply and_length_prefix in H0. destruct H0 as [u [rest [-> Hu]]].
  assert (Hne : and_length (u ++ rest ++ post) <> 0).
  { apply and_length_prefix. now exists u, (rest ++ post). }
  apply Hne. apply (H (pre ++ a)). now rewrite <- !app_assoc.
Qed.

Lemma ref_replace_and_chars (Q : ascii -> Prop) : Q ","%char ->
  forall fuel s, Forall Q s -> Forall Q (ref_replace_and fuel s).
Proof.
  intros Hq. induction fuel as [|fuel IH]; intros s Hs.
  - destruct s; constructor.
  - destruct s as [|c s]; [constructor|]. cbn [ref_replace_and].
    inversion Hs as [|c' s' Hc Hs']; subst.
    destruct (and_length (c :: s)) as [|len].
    + constructor; [assumption | now apply IH].
    + constructor; [assumption|]. apply IH.
      rewrite <- (firstn_skipn len s) in Hs'. now apply Forall_app in Hs'.
Qed.

(** [split] and [join]. *)

Lemma split_nonempty (sep : ascii) (s : str) : split sep s <> [].
Proof.
  destruct s as [|c s]; simpl; [discriminate|].
  destruct (Ascii.eqb c sep); [discriminate|]. destruct (split sep s); discriminate.
Qed.

Lemma split_join (sep : ascii) (s : str) : join [sep] (split sep s) = s.
Proof.
  induction s as [|c s IH]; [reflexivity|]. cbn [split].
  pose proof (split_nonempty sep s) as Hne.
  destruct (split sep s) as [|p ps]; [contradiction|].
  destruct (Ascii.eqb c sep) eqn:E.
  - apply Ascii.eqb_eq in E. subst c.
    change (join [sep] ([] :: p :: ps)) with (sep :: join [sep] (p :: ps)).
    now rewrite IH.
  - destruct ps as [|q ps].
    + simpl in *. now rewrite IH.
    + change (join [sep] ((c :: p) :: q :: ps))
        with (c :: join [sep] (p :: q :: ps)).
      now rewrite IH.
Qed.

Lemma split_no_sep (sep : ascii) (s : str) :
  Forall (fun p => ~ In sep p) (split sep s).
Proof.
  induction s as [|c s IH]; simpl; [repeat constructor; intros []|].
  destruct (Ascii.eqb c sep) eqn:E.
  - constructor; [intros [] | assumption].
  - destruct (split sep s) as [|p ps].
    + repeat constructor. intros [-> | []]. rewrite Ascii.eqb_refl in E. discriminate.
    + inversion IH as [|p' ps' Hp Hps]; subst. constructor; [|assumption].
      intros [-> | Hin]; [|contradiction]. rewrite Ascii.eqb_refl in E. discriminate.
Qed.

Lemma in_join_infix (sep : str) (l : list str) (p : str) :
  In p l -> exists pre post, join sep l = pre ++ p ++ post.
Proof.
  induction l as [|x l IH]; [intros []|]. intros [-> | Hin].
  - destruct l as [|y l].
    + exists [], []. simpl. now rewrite app_nil_r.
    + exists [], (sep ++ join sep (y :: l)). reflexivity.
  - destruct l as [|y l]; [destruct Hin|].
    destruct (IH Hin) as [pre [post E]]. exists (x ++ sep ++ pre), post.
    change (join sep (x :: y :: l)) with (x ++ sep ++ join sep (y :: l)).
    rewrite E. now rewrite <- !app_assoc.
Qed.

Lemma split_no_sep_id (sep : ascii) (a : str) : ~ In sep a -> split sep a = [a].
Proof.
  induction a as [|x a IH]; intros H; [reflexivity|]. simpl.
  destruct (Ascii.eqb x sep) eqn:E.
  - apply Ascii.eqb_eq in E. subst. exfalso. apply H. now left.
  - rewrite IH; [reflexivity|]. intros Hin. apply H. now right.
Qed.

Lemma split_app_sep (sep : ascii) (a b : str) :
  ~ In sep a -> split sep (a ++ sep :: b) = a :: split sep b.
Proof.
  induction a as [|x a IH]; intros H; simpl.
  - now rewrite Ascii.eqb_refl.
  - destruct (Ascii.eqb x sep) eqn:E.
    + apply Ascii.eqb_eq in E. subst. exfalso. apply H. now left.
    + rewrite IH; [reflexivity|]. intros Hin. apply H. now right.
Qed.

Lemma split_of_join (sep : ascii) (l : list str) :
  l <> [] -> Forall (fun p => ~ In sep p) l -> split sep (join [sep] l) = l.
Proof.
  induction l as [|x l IH]; [contradiction|]. intros _ Hall.
  inversion Hall as [|x' l' Hx Hl]; subst. destruct l as [|y l].
  - now apply split_no_sep_id.
  - change (join [sep] (x :: y :: l)) with (x ++ sep :: join [sep] (y :: l)).
    rewrite split_app_sep by assumption. f_equal. apply IH; [discriminate | assumption].
Qed.

Lemma Forall_join (Q : ascii -> Prop) (sep : str) (l : list str) :
  Forall Q sep -> Forall (Forall Q) l -> Forall Q (join sep l).
Proof.
  intros Hsep. induction 1 as [|x l Hx Hl IH]; [constructor|].
  destruct l as [|y l]; [assumption|].
  change (join sep (x :: y :: l)) with (x ++ sep ++ join sep (y :: l)).
  apply Forall_app. split; [assumption|]. apply Forall_app. now split.
Qed.

Lemma Forall_infix {A : Type} (Q : A -> Prop) (pre p post : list A) :
  Forall Q (pre ++ p ++ post) -> Forall Q p.
Proof.
  intros H. apply Forall_app in H. destruct H as [_ H].
  apply Forall_app in H. now destruct H.
Qed.

Lemma filter_all {A : Type} (f : A -> bool) (l : list A) :
  Forall (fun x => f x = true) l -> filter f l = l.
Proof. induction 1 as [|x l Hx Hl IH]; simpl; [reflexivity|]. now rewrite Hx, IH. Qed.

Lemma map_fixed {A : Type} (f : A -> A) (l : list A) :
  Forall (fun x => f x = x) l -> map f l = l.
Proof. induction 1 as [|x l Hx Hl IH]; simpl; [reflexivity|]. now rewrite Hx, IH. Qed.

(** [trim]. *)

Lemma trim_start_suffix (s : str) : exists w, s = w ++ trim_start s.
Proof.
  induction s as [|c s [w IH]]; [now exists []|]. simpl.
  destruct (is_space c); [|now exists []].
  exists (c :: w). simpl. now f_equal.
Qed.

Lemma trim_start_head (s : str) (c : ascii) :
  hd_error (trim_start s) = Some c -> is_space c = false.
Proof.
  induction s as [|x s IH]; simpl; [discriminate|].
  destruct (is_space x) eqn:E; [assumption|]. simpl. now intros [= <-].
Qed.

Lemma trim_start_noop (s : str) :
  (forall c, hd_error s = Some c -> is_space c = false) -> trim_start s = s.
Proof.
  destruct s as [|x s]; [reflexivity|]. intros H. simpl.
  now rewrite (H x eq_refl).
Qed.

Lemma trim_end_prefix (s : str) : exists w, s = trim_end s ++ w.
Proof.
  unfold trim_end. destruct (trim_start_suffix (rev s)) as [w H].
  exists (rev w). apply (f_equal (@rev ascii)) in H.
  now rewrite rev_involutive, rev_app_distr in H.
Qed.

Lemma trim_infix (s : str) : exists pre post, s = pre ++ trim s ++ post.
Proof.
  unfold trim. destruct (trim_start_suffix s) as [pre H].
  destruct (trim_end_prefix (trim_start s)) as [post H'].
  exists pre, post. now rewrite <- H', <- H.
Qed.

Lemma trim_idempotent (s : str) : trim (trim s) = trim s.
Proof.
  unfold trim. set (a := trim_start s).
  assert (Ha : forall c, hd_error a = Some c -> is_space c = false)
    by apply trim_start_head.
  destruct (trim_end_prefix a) as [w Hw].
  assert (Hs : trim_start (trim_end a) = trim_end a).
  { apply trim_start_noop. intros c Hc. apply Ha. rewrite Hw.
    destruct (trim_end a); [discriminate | exact Hc]. }
  rewrite Hs. unfold trim_end at 1 3. f_equal.
  unfold trim_end. rewrite rev_involutive.
  apply trim_start_noop. apply trim_start_head.
Qed.

Lemma in_infix {A : Type} (x : A) (pre p post : list A) :
  In x p -> In x (pre ++ p ++ post).
Proof. intros H. apply in_or_app. right. apply in_or_app. now left. Qed.

Lemma strip_no_bracket (s : str) :
  Forall (fun c => is_bracket_or_quote c = false) (strip s).
Proof.
  apply Forall_forall. intros c Hin. apply filter_In in Hin.
  destruct Hin as [_ H]. now apply negb_true_iff in H.
Qed.

(** Every element of a parsed list is a trimmed, non-empty piece without
    separators. *)
Lemma ref_parse_normal (s : str) : Forall normal (ref_parse s).
Proof.
  apply Forall_forall. intros e He. unfold ref_parse in He.
  apply filter_In in He. destruct He as [He Hne].
  apply in_map_iff in He. destruct He as [p [<- Hp]].
  set (R := ref_replace_and (length (strip s)) (strip s)) in *.
  destruct (trim_infix p) as [pre1 [post1 Ht]].
  destruct (in_join_infix [","%char] _ _ Hp) as [pre2 [post2 Hj]].
  rewrite split_join in Hj.
  constructor.
  - intros E. rewrite E in Hne. discriminate.
  - apply trim_idempotent.
  - intros Hin. pose proof (split_no_sep ","%char R) as Hall.
    rewrite Forall_forall in Hall. apply (Hall p Hp).
    rewrite Ht. now apply in_infix.
  - apply Forall_infix with pre1 post1. rewrite <- Ht.
    apply Forall_infix with pre2 post2. rewrite <- Hj.
    apply ref_replace_and_chars; [reflexivity | apply strip_no_bracket].
  - apply and_free_infix with pre1 post1. rewrite <- Ht.
    apply and_free_infix with pre2 post2. rewrite <- Hj.
    apply ref_replace_and_free.
Qed.

Lemma and_free_fixed (s : str) :
  and_free s -> forall fuel, length s <= fuel -> ref_replace_and fuel s = s.
Proof.
  induction s as [|c s IH]; intros Hf fuel Hlen; [now destruct fuel|].
  destruct fuel as [|fuel]; [simpl in Hlen; lia|]. cbn [ref_replace_and].
  rewrite (Hf [] (c :: s) eq_refl). f_equal. apply IH.
  - now apply and_free_tail with c.
  - simpl in Hlen. lia.
Qed.

Lemma prefix_before_sep {A : Type} (sep : A) : forall (u rest a b : list A),
  u ++ rest = a ++ sep :: b -> ~ In sep u -> exists r, a = u ++ r.
Proof.
  induction u as [|x u IH]; intros rest a b H Hu; [now exists a|].
  destruct a as [|y a].
  - injection H as -> _. exfalso. apply Hu. now left.
  - injection H as -> H. destruct (IH rest a b H) as [r ->].
    + intros Hin. apply Hu. now right.
    + now exists r.
Qed.

Lemma and_free_sep (a b : str) :
  and_free a -> and_free b -> and_free (a ++ ","%char :: b).
Proof.
  intros Ha Hb pre post E. apply app_eq_app in E. destruct E as [l [[E1 E2] | [E1 E2]]].
  - destruct (Nat.eq_dec (and_length post) 0) as [H0 | H0]; [assumption|].
    exfalso. apply and_length_prefix in H0. destruct H0 as [u [rest [Hp Hu]]].
    rewrite Hp in E2. apply prefix_before_sep in E2; [|now apply and_prefix_no_comma].
    destruct E2 as [r ->].
    assert (Hne : and_length (u ++ r) <> 0).
    { apply and_length_prefix. now exists u, r. }
    apply Hne. now apply (Ha pre).
  - destruct l as [|c l].
    + simpl in E2. now subst post.
    + injection E2 as _ E2. now apply (Hb l).
Qed.

Lemma and_free_join (l : list str) :
  Forall and_free l -> and_free (join [","%char] l).
Proof.
  induction 1 as [|x l Hx Hl IH]; [apply and_free_nil|].
  destruct l as [|y l]; [assumption|].
  change (join [","%char] (x :: y :: l)) with (x ++ ","%char :: join [","%char] (y :: l)).
  now apply and_free_sep.
Qed.

(** A list of normal elements is what parsing its comma-join gives. *)
Lemma ref_parse_join (l : list str) :
  Forall normal l -> ref_parse (join [","%char] l) = l.
Proof.
  intros Hall. destruct l as [|x l]; [reflexivity|].
  set (J := join [","%char] (x :: l)).
  assert (Hstrip : strip J = J).
  { apply filter_all.
    apply Forall_impl with (P := fun c => is_bracket_or_quote c = false).
    - intros c Hc. now rewrite Hc.
    - apply Forall_join; [repeat constructor|].
      apply Forall_impl with (P := normal); [apply normal_no_bracket | assumption]. }
  assert (Hfree : and_free J).
  { apply and_free_join.
    apply Forall_impl with (P := normal); [apply normal_and_free | assumption]. }
  unfold ref_parse. rewrite Hstrip.
  rewrite (and_free_fixed J Hfree (length J) (Nat.le_refl _)).
  unfold J. rewrite split_of_join.
  - rewrite map_fixed.
    + apply filter_all.
      apply Forall_impl with (P := normal); [|assumption].
      intros e He. apply Nat.ltb_lt. destruct e; [now destruct He | simpl; lia].
    + apply Forall_impl with (P := normal); [apply normal_trimmed | assumption].
  - discriminate.
  - apply Forall_impl with (P := normal); [apply normal_no_comma | assumption].
Qed.

End IdentifierListParser.

(** ** The engine, pattern by pattern: what a match tells *)

Lemma in_rx_seq ic r1 r2 st e :
  In e (rx_match ic (RSeq r1 r2) st) <->
  exists st1, In st1 (rx_match ic r1 st) /\ In e (rx_match ic r2 st1).
Proof. cbn [rx_match]. apply in_flat_map. Qed.

Lemma in_rx_wordb ic st e :
  In e (rx_match ic RWordB st) <-> e = st /\ at_word_boundary st = true.
Proof.
  cbn [rx_match]. destruct (at_word_boundary st); simpl; intuition congruence.
Qed.

Lemma in_rx_set ic cs st e :
  In e (rx_match ic (RSet cs) st) <->
  exists c rest', m_rest st = c :: rest' /\ cs_match ic cs c = true /\
                  e = MState (c :: m_seen st) rest' (m_caps st).
Proof.
  cbn [rx_match]. destruct (m_rest st) as [|c rest'].
  - split; [intros [] | intros [c [r [H _]]]; discriminate].
  - destruct (cs_match ic cs c) eqn:E; simpl.
    + split.
      * intros [<- | []]. now exists c, rest'.
      * intros [c' [r [[= <- <-] [_ ->]]]]. now left.
    + split; [intros [] | intros [c' [r [[= <- <-] [H _]]]]; congruence].
Qed.

Lemma in_rx_rep ic min cs st e :
  In e (rx_match ic (RRep min cs) st) ->
  exists w, m_rest st = w ++ m_rest e /\ m_seen e = rev w ++ m_seen st /\
            min <= length w /\ m_caps e = m_caps st /\
            Forall (fun c => cs_match ic cs c = true) w.
Proof. cbn [rx_match]. apply rep_match_consumes. Qed.

Lemma in_rx_opt ic r st e :
  In e (rx_match ic (ROpt r) st) -> e = st \/ In e (rx_match ic r st).
Proof.
  cbn [rx_match]. intros H. apply in_app_or in H. destruct H as [H | [<- | []]].
  - right. apply filter_In in H. now destruct H.
  - now left.
Qed.

Lemma set_group_consumed n st st1 w :
  m_seen st1 = rev w ++ m_seen st ->
  set_group n st st1 = MState (m_seen st1) (m_rest st1) ((n, w) :: m_caps st1).
Proof.
  intros H. unfold set_group, m_pos. rewrite H.
  rewrite length_app, length_rev.
  replace (length w + length (m_seen st) - length (m_seen st)) with (length (rev w))
    by (rewrite length_rev; lia).
  now rewrite firstn_length_app, rev_involutive.
Qed.

Lemma group_free_caps ic r : group_free r = true ->
  forall st e, In e (rx_match ic r st) -> m_caps e = m_caps st.
Proof.
  induction r as [| cs | | | | r1 IH1 r2 IH2 | r1 IH1 r2 IH2 | r1 IH1 | min cs | k r1 IH1];
    intros Hg st e H; cbn [group_free] in Hg; try discriminate.
  - destruct H as [<- | []]. reflexivity.
  - apply in_rx_set in H. destruct H as [c [r [_ [_ ->]]]]. reflexivity.
  - apply in_rx_wordb in H. now destruct H as [-> _].
  - cbn [rx_match] in H. destruct (m_seen st); [|contradiction]. now destruct H as [<- | []].
  - cbn [rx_match] in H. destruct (m_rest st); [|contradiction]. now destruct H as [<- | []].
  - apply andb_true_iff in Hg. destruct Hg as [Hg1 Hg2].
    apply in_rx_seq in H. destruct H as [st1 [H1 H2]].
    rewrite (IH2 Hg2 _ _ H2). now apply IH1.
  - apply andb_true_iff in Hg. destruct Hg as [Hg1 Hg2].
    cbn [rx_match] in H. apply in_app_or in H. destruct H as [H | H]; auto.
  - apply in_rx_opt in H. destruct H as [-> | H]; auto.
  - apply in_rx_rep in H. now destruct H as [w [_ [_ [_ [Hc _]]]]].
Qed.

(** A capture group around a pattern without groups. *)
Lemma in_rx_group ic n r st e :
  group_free r = true ->
  In e (rx_match ic (RGroup n r) st) ->
  exists w, m_rest st = w ++ m_rest e /\ m_seen e = rev w ++ m_seen st /\
            min_len r <= length w /\ m_caps e = (n, w) :: m_caps st.
Proof.
  intros Hg H. cbn [rx_match] in H. apply in_map_iff in H.
  destruct H as [st1 [<- H]].
  pose proof (group_free_caps ic r Hg st st1 H) as Hc.
  apply rx_match_consumes in H. destruct H as [w [Hr [Hs Hm]]].
  exists w. rewrite (set_group_consumed n st st1 w Hs). cbn [m_rest m_seen m_caps].
  now rewrite Hc.
Qed.

(** A pattern without groups, taken as a whole. *)
Lemma in_rx_plain ic r st e :
  group_free r = true ->
  In e (rx_match ic r st) ->
  exists w, m_rest st = w ++ m_rest e /\ m_seen e = rev w ++ m_seen st /\
            min_len r <= length w /\ m_caps e = m_caps st.
Proof.
  intros Hg H. pose proof (group_free_caps ic r Hg st e H) as Hc.
  apply rx_match_consumes in H. destruct H as [w [Hr [Hs Hm]]]. now exists w.
Qed.

Lemma rx_search_in ic r : forall rest seen mt,
  rx_search ic r seen rest = Some mt ->
  exists seen' rest',
    rev seen' ++ rest' = rev seen ++ rest /\
    index mt = length seen' /\
    In (m_end mt) (rx_match ic r (MState seen' rest' [])).
Proof.
  induction rest as [|c rest IH]; intros seen mt H; cbn [rx_search] in H.
  - destruct (rx_match ic r (MState seen [] [])) as [|e l] eqn:E; [discriminate|].
    injection H as <-. exists seen, []. rewrite E. cbn. auto.
  - destruct (rx_match ic r (MState seen (c :: rest) [])) as [|e l] eqn:E.
    + apply IH in H. destruct H as [seen' [rest' [Hw H]]].
      exists seen', rest'. split; [|assumption]. rewrite Hw. cbn [rev].
      now rewrite <- app_assoc.
    + injection H as <-. exists seen, (c :: rest). rewrite E. cbn. auto.
Qed.

(** Every match of an [exec] loop is a match of the pattern at a position
    of the input. *)
Lemma exec_all_in ic r : forall fuel seen rest ms,
  exec_all fuel ic r seen rest = Some ms ->
  Forall (fun mt => exists seen' rest',
            rev seen' ++ rest' = rev seen ++ rest /\
            index mt = length seen' /\
            In (m_end mt) (rx_match ic r (MState seen' rest' []))) ms.
Proof.
  induction fuel as [|fuel IH]; intros seen rest ms H; [discriminate|].
  cbn [exec_all] in H. destruct (rx_search ic r seen rest) as [mt|] eqn:E.
  - destruct (exec_all fuel ic r (m_seen (m_end mt)) (m_rest (m_end mt))) as [ms'|] eqn:E';
      [|discriminate].
    injection H as <-. constructor.
    + now apply rx_search_in.
    + apply IH in E'. apply rx_search_consumes in E.
      destruct E as [skipped [w [Hr [Hs _]]]].
      assert (Hw : rev (m_seen (m_end mt)) ++ m_rest (m_end mt) = rev seen ++ rest).
      { rewrite Hs, Hr, !rev_app_distr, !rev_involutive. now rewrite <- !app_assoc. }
      rewrite Hw in E'. exact E'.
  - injection H as <-. constructor.
Qed.

(** ** The component patterns: the shape of their matches *)

Section PatternShapes.

Import CommitTool.

Lemma two_groups_shape (g1 g2 : regex) (st e : mstate) :
  group_free g1 = true -> group_free g2 = true ->
  1 <= min_len g1 -> 1 <= min_len g2 ->
  In e (rx_match true (rseq [RGroup 1 g1; RRep 1 CSpace; RGroup 2 g2; RWordB]) st) ->
  exists c1 c2 c3,
    m_rest st = c1 ++ c2 ++ c3 ++ m_rest e /\
    m_seen e = rev c3 ++ rev c2 ++ rev c1 ++ m_seen st /\
    m_caps e = (2, c3) :: (1, c1) :: m_caps st /\
    1 <= length c1 /\ 1 <= length c2 /\ 1 <= length c3 /\
    Forall (fun c => is_space c = true) c2 /\
    at_word_boundary e = true.
Proof.
  intros G1 G2 M1 M2 H. cbn [rseq] in H.
  apply in_rx_seq in H. destruct H as [st1 [H1 H]].
  apply in_rx_group in H1; [|assumption]. destruct H1 as [c1 [Hr1 [Hs1 [Hm1 Hc1]]]].
  apply in_rx_seq in H. destruct H as [st2 [H2 H]].
  apply in_rx_rep in H2. destruct H2 as [c2 [Hr2 [Hs2 [Hm2 [Hc2 Hall]]]]].
  apply in_rx_seq in H. destruct H as [st3 [H3 H]].
  apply in_rx_group in H3; [|assumption]. destruct H3 as [c3 [Hr3 [Hs3 [Hm3 Hc3]]]].
  apply in_rx_wordb in H. destruct H as [-> Hb].
  exists c1, c2, c3. repeat split; try lia; try assumption.
  - now rewrite Hr1, Hr2, Hr3.
  - now rewrite Hs3, Hs2, Hs1.
  - now rewrite Hc3, Hc2, Hc1.
Qed.

Lemma bounded_groups_shape (g1 g2 : regex) (seen rest : str) (e : mstate) :
  group_free g1 = true -> group_free g2 = true ->
  1 <= min_len g1 -> 1 <= min_len g2 ->
  In e (rx_match true (rseq [RWordB; RGroup 1 g1; RRep 1 CSpace; RGroup 2 g2; RWordB])
          (MState seen rest [])) ->
  word_space_word seen rest e.
Proof.
  intros G1 G2 M1 M2 H.
  change (rseq [RWordB; RGroup 1 g1; RRep 1 CSpace; RGroup 2 g2; RWordB])
    with (RSeq RWordB (rseq [RGroup 1 g1; RRep 1 CSpace; RGroup 2 g2; RWordB])) in H.
  apply in_rx_seq in H. destruct H as [st1 [H1 H]].
  apply in_rx_wordb in H1. destruct H1 as [-> Hb0].
  apply two_groups_shape in H; try assumption.
  destruct H as [c1 [c2 [c3 H]]]. exists c1, c2, c3.
  cbn [m_rest m_seen m_caps] in H. intuition.
Qed.

Lemma pattern1_shape (seen rest : str) (e : mstate) :
  In e (rx_match true (snd pattern1) (MState seen rest [])) ->
  word_space_word seen rest e.
Proof.
  apply bounded_groups_shape; try reflexivity; vm_compute; lia.
Qed.

Lemma pattern2_shape (seen rest : str) (e : mstate) :
  In e (rx_match true (snd pattern2) (MState seen rest [])) ->
  word_space_word seen rest e.
Proof.
  apply bounded_groups_shape; try reflexivity; vm_compute; lia.
Qed.

(** The third pattern without its optional prefix is the second one; with
    the prefix, a match has whitespace before its first group and after. *)
Lemma pattern3_shape (seen rest : str) (e : mstate) :
  In e (rx_match true (snd pattern3) (MState seen rest [])) ->
  word_space_word seen rest e \/
  exists p s1 q s2 r,
    rest = p ++ s1 :: q ++ s2 :: r /\ is_space s1 = true /\ is_space s2 = true.
Proof.
  intros H. unfold pattern3 in H. cbn [snd] in H.
  change (rseq [RWordB; ROpt (RSeq (rlit "apex") (RRep 1 CSpace));
                RGroup 1 typeWord; RRep 1 CSpace; RGroup 2 identifier; RWordB])
    with (RSeq RWordB (RSeq (ROpt (RSeq (rlit "apex") (RRep 1 CSpace)))
            (rseq [RGroup 1 typeWord; RRep 1 CSpace; RGroup 2 identifier; RWordB]))) in H.
  apply in_rx_seq in H. destruct H as [st1 [H1 H]].
  apply in_rx_wordb in H1. destruct H1 as [-> Hb0].
  apply in_rx_seq in H. destruct H as [st2 [H2 H]].
  apply two_groups_shape in H; try reflexivity; try (vm_compute; lia).
  destruct H as [c1 [c2 [c3 [Hr [Hs [Hc [L1 [L2 [L3 [Hsp Hb]]]]]]]]]].
  apply in_rx_opt in H2. destruct H2 as [-> | H2].
  - left. exists c1, c2, c3. cbn [m_rest m_seen m_caps] in *. intuition.
  - right. apply in_rx_seq in H2. destruct H2 as [st1 [Ha Hw]].
    apply rx_match_consumes in Ha. destruct Ha as [ca [Hra _]].
    apply in_rx_rep in Hw. destruct Hw as [cs [Hrs [_ [Lcs [_ Hcs]]]]].
    destruct cs as [|s1 cs]; [simpl in Lcs; lia|].
    destruct c2 as [|s2 c2]; [simpl in L2; lia|].
    inversion Hcs as [|x l Hs1 _]; subst. inversion Hsp as [|x l Hs2 _]; subst.
    exists ca, s1, (cs ++ c1), s2, (c2 ++ c3 ++ m_rest e). repeat split; try assumption.
    cbn [m_rest] in Hra. rewrite Hra, Hrs, Hr. cbn [app].
    now rewrite <- !app_assoc.
Qed.

Lemma pattern4_shape (seen rest : str) (e : mstate) :
  In e (rx_match true (snd pattern4) (MState seen rest [])) ->
  exists p s1 q s2 r,
    rest = p ++ s1 :: q ++ s2 :: r /\ is_space s1 = true /\ is_space s2 = true.
Proof.
  intros H. unfold pattern4 in H. cbn [snd rseq] in H.
  apply in_rx_seq in H. destruct H as [st1 [H1 H]].
  apply in_rx_seq in H. destruct H as [st2 [H2 H]].
  apply rx_match_consumes in H2. destruct H2 as [c1 [Hr1 _]].
  apply in_rx_seq in H. destruct H as [st3 [H3 H]].
  apply in_rx_rep in H3. destruct H3 as [c2 [Hr2 [_ [L2 [_ Hsp2]]]]].
  apply in_rx_seq in H. destruct H as [st4 [H4 H]].
  apply rx_match_consumes in H4. destruct H4 as [c3 [Hr3 _]].
  apply in_rx_seq in H. destruct H as [st5 [H5 H]].
  apply in_rx_rep in H5. destruct H5 as [c4 [Hr4 [_ [L4 [_ Hsp4]]]]].
  destruct c2 as [|s1 c2]; [simpl in L2; lia|].
  destruct c4 as [|s2 c4]; [simpl in L4; lia|].
  inversion Hsp2 as [|x l Hs1 _]; subst. inversion Hsp4 as [|x l Hs2 _]; subst.
  apply in_rx_wordb in H1.
  exists c1, s1, (c2 ++ c3), s2, (c4 ++ m_rest st5). repeat split; try assumption.
  destruct H1 as [-> _]. cbn [m_rest] in Hr1. rewrite Hr1, Hr2, Hr3, Hr4. cbn [app].
  now rewrite <- !app_assoc.
Qed.

Lemma pattern5_shape (seen rest : str) (e : mstate) :
  In e (rx_match false (snd pattern5) (MState seen rest [])) ->
  exists q rest', rest = q :: rest' /\ cs_match false quoteChar q = true.
Proof.
  intros H. unfold pattern5 in H. cbn [snd rseq] in H.
  apply in_rx_seq in H. destruct H as [st1 [H1 _]].
  apply in_rx_set in H1. destruct H1 as [q [rest' [Hr [Hq _]]]].
  now exists q, rest'.
Qed.

End PatternShapes.

(** ** A description that is a name and the word class *)

Lemma space_not_word (c : ascii) : is_space c = true -> is_word c = false.
Proof. each_char c; vm_compute; congruence. Qed.

Lemma upper_is_word (c : ascii) : is_upper c = true -> is_word c = true.
Proof. each_char c; vm_compute; congruence. Qed.

Lemma word_not_quote (c : ascii) :
  is_word c = true -> cs_match false CommitTool.quoteChar c = false.
Proof. each_char c; vm_compute; congruence. Qed.

Lemma upperAZ_class (c : ascii) : cs_match false CommitTool.upperAZ c = is_upper c.
Proof. each_char c; reflexivity. Qed.

Lemma identChar_class (c : ascii) : cs_match false CommitTool.identChar c = is_word c.
Proof. each_char c; reflexivity. Qed.

Lemma identifier_shaped_word (name : str) :
  identifier_shaped name -> name <> [] /\ Forall (fun c => is_word c = true) name.
Proof.
  intros [c [rest [-> [Hc Hrest]]]]. split; [discriminate|].
  constructor; [now apply upper_is_word | assumption].
Qed.

Section NameClass.

Import CommitTool.

Variable Name : str.
Hypothesis Name_word : Forall (fun c => is_word c = true) Name.
Local Abbreviation description := (Name ++ lit " class").

Lemma in_class_word (c : ascii) : In c (lit "class") -> is_word c = true.
Proof. intros H. simpl in H. repeat (destruct H as [<- | H]; [reflexivity|]). destruct H. Qed.

(** The only whitespace of the description is the space after the name. *)
Lemma space_position (p T : str) (s : ascii) :
  description = p ++ s :: T -> is_space s = true ->
  p = Name /\ T = lit "class".
Proof.
  intros E Hs. unfold description in E. apply app_eq_app in E.
  destruct E as [l [[E1 E2] | [E1 E2]]].
  - destruct l as [|x l].
    + simpl in E2. injection E2 as _ ->. rewrite app_nil_r in E1. now split.
    + exfalso. injection E2 as -> _.
      assert (Hw : is_word x = true).
      { rewrite Forall_forall in Name_word. apply Name_word. rewrite E1.
        apply in_or_app. right. now left. }
      apply space_not_word in Hs. congruence.
  - destruct l as [|x l].
    + simpl in E2. injection E2 as _ <-. rewrite app_nil_r in E1. now split.
    + exfalso. injection E2 as _ E2.
      assert (Hin : In s (lit "class")).
      { unfold lit. simpl list_ascii_of_string. rewrite E2.
        apply in_or_app. right. now left. }
      apply in_class_word in Hin. apply space_not_word in Hs. congruence.
Qed.

Lemma one_space (p q r : str) (s1 s2 : ascii) :
  description = p ++ s1 :: q ++ s2 :: r ->
  is_space s1 = true -> is_space s2 = true -> False.
Proof.
  intros E H1 H2. apply space_position in E; [|assumption]. destruct E as [_ E].
  assert (Hin : In s2 (lit "class")).
  { rewrite <- E. apply in_or_app. right. now left. }
  apply in_class_word in Hin. apply space_not_word in H2. congruence.
Qed.

(** A match of the shape of the first two patterns is the whole
    description: the name, the space and the word. *)
Lemma word_space_word_whole (seen rest : str) (e : mstate) :
  rev seen ++ rest = description ->
  word_space_word seen rest e ->
  seen = [] /\ m_caps e = [(2, lit "class"); (1, Name)].
Proof.
  intros Hd [c1 [c2 [c3 [Hr [Hs [Hc [L1 [L2 [L3 [Hsp [Hb0 Hb]]]]]]]]]]].
  destruct c2 as [|s c2]; [simpl in L2; lia|].
  inversion Hsp as [|x l Hss Hsp']; subst x l.
  assert (E : description = (rev seen ++ c1) ++ s :: c2 ++ c3 ++ m_rest e).
  { rewrite <- Hd, Hr. cbn [app]. now rewrite <- app_assoc. }
  apply space_position in E; [|assumption]. destruct E as [E1 E2].
  destruct c2 as [|x c2].
  2:{ exfalso. injection E2 as -> _. inversion Hsp' as [|y l Hx _]. discriminate. }
  cbn [app] in E2.
  (* the boundary before the match *)
  assert (Hseen : seen = []).
  { destruct seen as [|x seen]; [reflexivity|]. exfalso.
    destruct c1 as [|y c1]; [simpl in L1; lia|].
    rewrite Forall_forall in Name_word.
    assert (Hx : is_word x = true).
    { apply Name_word. rewrite <- E1. cbn [rev]. apply in_or_app. left.
      apply in_or_app. right. now left. }
    assert (Hy : is_word y = true).
    { apply Name_word. rewrite <- E1. apply in_or_app. right. now left. }
    rewrite Hr in Hb0. unfold at_word_boundary in Hb0. cbn in Hb0.
    rewrite Hx, Hy in Hb0. discriminate. }
  subst seen. cbn [rev app] in E1. subst c1.
  (* the boundary after the match *)
  assert (Hend : m_rest e = []).
  { destruct (m_rest e) as [|y r] eqn:Er; [reflexivity|]. exfalso.
    destruct (exists_last (l := c3)) as [c3' [z Hz]]; [intros ->; simpl in L3; lia|].
    assert (Hy : is_word y = true).
    { apply in_class_word. rewrite <- E2. apply in_or_app. right. now left. }
    assert (Hzw : is_word z = true).
    { apply in_class_word. rewrite <- E2, Hz. apply in_or_app. left.
      apply in_or_app. right. now left. }
    unfold at_word_boundary in Hb. rewrite Hs, Er, Hz, rev_app_distr in Hb.
    cbn in Hb. rewrite Hy, Hzw in Hb. discriminate. }
  rewrite Hend, app_nil_r in E2. subst c3. now split.
Qed.

End NameClass.

(** ** The name pattern and the identifier grammar *)

Lemma hd_error_in {A : Type} (l : list A) (x : A) : hd_error l = Some x -> In x l.
Proof. destruct l; simpl; [discriminate | intros [= ->]; now left]. Qed.

Lemma run_length_all (p : ascii -> bool) (s : str) :
  Forall (fun c => p c = true) s -> run_length p s = length s.
Proof.
  intros H. rewrite <- (app_nil_r s) at 1. rewrite run_length_app by assumption.
  simpl. lia.
Qed.

Lemma cs_match_ignore_case (cs : charset) (c : ascii) :
  cs_match false cs c = true -> cs_match true cs c = true.
Proof.
  destruct cs as [rs|]; cbn [cs_match andb]; [|auto].
  rewrite orb_false_r. intros ->. reflexivity.
Qed.

(** The longest run of a greedy repetition is one of its matches. *)
Lemma rep_match_run ic cs (w rest seen : str) caps :
  Forall (fun c => cs_match ic cs c = true) w ->
  (forall c r, rest = c :: r -> cs_match ic cs c = false) ->
  In (MState (rev w ++ seen) rest caps) (rep_match ic cs 0 seen (w ++ rest) caps).
Proof.
  intros Hw Hrest. apply hd_error_in. rewrite rep_match_head.
  assert (Hk : run_length (cs_match ic cs) (w ++ rest) = length w).
  { rewrite run_length_app by assumption.
    destruct rest as [|c r]; [simpl; lia|]. simpl. rewrite (Hrest c r eq_refl). lia. }
  rewrite Hk. cbn [Nat.leb]. unfold advance.
  now rewrite firstn_length_app, skipn_length_app.
Qed.

Lemma rx_search_here ic r seen rest e l :
  rx_match ic r (MState seen rest []) = e :: l ->
  rx_search ic r seen rest = Some (RMatch (length seen) e).
Proof. intros H. destruct rest; cbn [rx_search]; now rewrite H. Qed.

Lemma in_nonempty {A : Type} (x : A) (l : list A) : In x l -> exists y l', l = y :: l'.
Proof. destruct l as [|y l']; [intros [] | intros _; now exists y, l']. Qed.

Lemma namePattern_accepts (name : str) :
  identifier_shaped name -> rx_test false CommitTool.namePattern name = true.
Proof.
  intros [c [rest [-> [Hc Hrest]]]]. unfold rx_test.
  assert (Hin : In (MState (rev rest ++ [c]) [] [])
                   (rx_match false CommitTool.namePattern (MState [] (c :: rest) []))).
  { unfold CommitTool.namePattern. cbn [rseq].
    apply in_rx_seq. exists (MState [] (c :: rest) []). split; [now left|].
    apply in_rx_seq. exists (MState [c] rest []). split.
    - apply in_rx_set. exists c, rest. rewrite upperAZ_class. auto.
    - apply in_rx_seq. exists (MState (rev rest ++ [c]) [] []). split; [|now left].
      cbn [rx_match m_seen m_rest m_caps].
      rewrite <- (app_nil_r rest) at 2. apply rep_match_run.
      + apply Forall_impl with (P := fun x => is_word x = true); [|assumption].
        intros x Hx. now rewrite identChar_class.
      + intros x r H. discriminate. }
  apply in_nonempty in Hin. destruct Hin as [e [l Hl]].
  now rewrite (rx_search_here _ _ _ _ _ _ Hl).
Qed.

Lemma namePattern_sound (name : str) :
  rx_test false CommitTool.namePattern name = true -> identifier_shaped name.
Proof.
  unfold rx_test. destruct (rx_search false CommitTool.namePattern [] name) as [mt|] eqn:E;
    [intros _ | discriminate].
  apply rx_search_in in E. destruct E as [seen' [rest' [Hw [_ H]]]].
  unfold CommitTool.namePattern in H. cbn [rseq] in H.
  apply in_rx_seq in H. destruct H as [st1 [H1 H]].
  cbn [rx_match m_seen] in H1. destruct seen'; [|contradiction].
  destruct H1 as [<- | []].
  apply in_rx_seq in H. destruct H as [st2 [H2 H]].
  apply in_rx_set in H2. destruct H2 as [c [r [Hr [Hc ->]]]].
  apply in_rx_seq in H. destruct H as [st3 [H3 H]].
  apply in_rx_rep in H3. destruct H3 as [w [Hr3 [_ [_ [_ Hall]]]]].
  cbn [rx_match] in H. destruct (m_rest st3) eqn:E3; [|contradiction].
  cbn [m_rest rev app] in *. rewrite app_nil_r in Hr3. subst.
  exists c, w. repeat split.
  - now rewrite <- upperAZ_class.
  - apply Forall_impl with (P := fun x => cs_match false CommitTool.identChar x = true);
      [|assumption].
    intros x Hx. now rewrite <- identChar_class.
Qed.

Section NameClassParse.

Import CommitTool.

Variable Name : str.
Hypothesis Name_shaped : identifier_shaped Name.
Hypothesis Name_long : 1 < length Name.
Hypothesis Name_kept : has excludeWords (toLowerCase Name) = false.

Local Abbreviation description := (Name ++ lit " class").
Local Abbreviation apexClass := (JStr (lit "ApexClass")).

Lemma acceptable_name : acceptable (Some Name) = true.
Proof.
  unfold acceptable. rewrite Name_kept, (namePattern_accepts Name Name_shaped).
  destruct Name_shaped as [c [rest [E _]]].
  replace (1 <? length Name) with true by (symmetry; now apply Nat.ltb_lt).
  rewrite E. reflexivity.
Qed.

Lemma accepted_whole (mt : rmatch) :
  m_caps (m_end mt) = [(2, lit "class"); (1, Name)] ->
  accepted mt = Some (Name, apexClass).
Proof.
  intros Hc. unfold accepted, name_and_type, capture. rewrite Hc. cbn [group Nat.eqb].
  destruct Name_shaped as [c [rest [E _]]].
  assert (Ht : truthy (Some Name) = true) by (rewrite E; reflexivity).
  rewrite Ht. change (truthy (Some (lit "class"))) with true. cbn [andb].
  change (get_property typeMap (toLowerCase (lit "class"))) with (Some apexClass).
  cbv iota beta. now rewrite acceptable_name.
Qed.

Lemma pattern1_first :
  exists e l, rx_match true (snd pattern1) (MState [] description []) = e :: l.
Proof.
  destruct Name_shaped as [u [w [E [Hu Hw]]]].
  set (seen1 := rev w ++ [u]).
  apply in_nonempty with
    (x := MState (rev (lit "class") ++ " "%char :: seen1) []
                 [(2, lit "class"); (1, u :: w)]).
  unfold description. rewrite E. unfold pattern1. cbn [snd rseq].
  apply in_rx_seq. exists (MState [] ((u :: w) ++ lit " class") []). split.
  { apply in_rx_wordb. split; [reflexivity|]. unfold at_word_boundary. cbn.
    now rewrite (upper_is_word u Hu). }
  apply in_rx_seq. exists (MState seen1 (lit " class") [(1, u :: w)]). split.
  { cbn [rx_match]. apply in_map_iff. exists (MState seen1 (lit " class") []). split.
    - rewrite (set_group_consumed 1 _ _ (u :: w)); [reflexivity|].
      cbn [m_seen rev]. now rewrite app_nil_r.
    - unfold identifier. apply in_rx_seq.
      exists (MState [u] (w ++ lit " class") []). split.
      + apply in_rx_set. exists u, (w ++ lit " class"). repeat split.
        apply cs_match_ignore_case. now rewrite upperAZ_class.
      + cbn [rx_match m_seen m_rest m_caps]. apply rep_match_run.
        * apply Forall_impl with (P := fun x => is_word x = true); [|assumption].
          intros x Hx. apply cs_match_ignore_case. now rewrite identChar_class.
        * intros c r [= <- _]. reflexivity. }
  apply in_rx_seq. exists (MState (" "%char :: seen1) (lit "class") [(1, u :: w)]). split.
  { cbn. now left. }
  apply in_rx_seq.
  exists (MState (rev (lit "class") ++ " "%char :: seen1) []
                 [(2, lit "class"); (1, u :: w)]).
  split.
  { cbn [rx_match]. apply in_map_iff.
    exists (MState (rev (lit "class") ++ " "%char :: seen1) [] [(1, u :: w)]). split.
    - now rewrite (set_group_consumed 2 _ _ (lit "class")).
    - cbn. now left. }
  apply in_rx_wordb. split; reflexivity.
Qed.

Lemma description_word : Forall (fun c => is_word c = true) Name.
Proof. now destruct (identifier_shaped_word Name Name_shaped). Qed.

Lemma shaped_match_accepted (seen rest : str) (mt : rmatch) :
  rev seen ++ rest = description ->
  word_space_word seen rest (m_end mt) ->
  accepted mt = Some (Name, apexClass).
Proof.
  intros Hd Hs. apply accepted_whole.
  now destruct (word_space_word_whole Name description_word seen rest (m_end mt) Hd Hs).
Qed.

Lemma pattern1_matches (fuel : nat) (ms : list rmatch) :
  exec_all fuel true (snd pattern1) [] description = Some ms ->
  ms <> [] /\ Forall (fun mt => accepted mt = Some (Name, apexClass)) ms.
Proof.
  intros H. split.
  - destruct fuel as [|fuel]; [discriminate|]. cbn [exec_all] in H.
    destruct pattern1_first as [e [l Hl]].
    rewrite (rx_search_here _ _ _ _ _ _ Hl) in H.
    destruct (exec_all fuel true (snd pattern1) _ _); [|discriminate].
    injection H as <-. discriminate.
  - apply exec_all_in in H. apply Forall_impl with (2 := H).
    intros mt [seen' [rest' [Hw [_ Hin]]]]. apply pattern1_shape in Hin.
    now apply shaped_match_accepted with seen' rest'.
Qed.

Lemma pattern2_matches (fuel : nat) (ms : list rmatch) :
  exec_all fuel true (snd pattern2) [] description = Some ms ->
  Forall (fun mt => accepted mt = Some (Name, apexClass)) ms.
Proof.
  intros H. apply exec_all_in in H. apply Forall_impl with (2 := H).
  intros mt [seen' [rest' [Hw [_ Hin]]]]. apply pattern2_shape in Hin.
  now apply shaped_match_accepted with seen' rest'.
Qed.

Lemma two_spaces_absurd (seen rest p q r : str) (s1 s2 : ascii) :
  rev seen ++ rest = description ->
  rest = p ++ s1 :: q ++ s2 :: r ->
  is_space s1 = true -> is_space s2 = true -> False.
Proof.
  intros Hd Hr H1 H2.
  apply (one_space Name description_word (rev seen ++ p) q r s1 s2); try assumption.
  fold description. rewrite <- Hd, Hr. now rewrite <- app_assoc.
Qed.

Lemma pattern3_matches (fuel : nat) (ms : list rmatch) :
  exec_all fuel true (snd pattern3) [] description = Some ms ->
  Forall (fun mt => accepted mt = Some (Name, apexClass)) ms.
Proof.
  intros H. apply exec_all_in in H. apply Forall_impl with (2 := H).
  intros mt [seen' [rest' [Hw [_ Hin]]]]. apply pattern3_shape in Hin.
  destruct Hin as [Hs | [p [s1 [q [s2 [r [Hr [H1 H2]]]]]]]].
  - now apply shaped_match_accepted with seen' rest'.
  - exfalso. now apply (two_spaces_absurd seen' rest' p q r s1 s2).
Qed.

Lemma Forall_absurd {A : Type} (P : A -> Prop) (l : list A) :
  Forall P l -> (forall x, P x -> False) -> l = [].
Proof. intros H Hf. destruct H as [|x l Hx _]; [reflexivity|]. destruct (Hf x Hx). Qed.

Lemma pattern4_matches (fuel : nat) (ms : list rmatch) :
  exec_all fuel true (snd pattern4) [] description = Some ms -> ms = [].
Proof.
  intros H. apply exec_all_in in H. apply Forall_absurd with (1 := H).
  intros mt [seen' [rest' [Hw [_ Hin]]]]. apply pattern4_shape in Hin.
  destruct Hin as [p [s1 [q [s2 [r [Hr [H1 H2]]]]]]].
  now apply (two_spaces_absurd seen' rest' p q r s1 s2).
Qed.

Lemma pattern5_matches (fuel : nat) (ms : list rmatch) :
  exec_all fuel false (snd pattern5) [] description = Some ms -> ms = [].
Proof.
  intros H. apply exec_all_in in H. apply Forall_absurd with (1 := H).
  intros mt [seen' [rest' [Hw [_ Hin]]]]. apply pattern5_shape in Hin.
  destruct Hin as [q [rest'' [-> Hq]]].
  assert (Hin : In q description).
  { cbn [rev app] in Hw. rewrite <- Hw. apply in_or_app. right. now left. }
  unfold description in Hin. apply in_app_or in Hin. destruct Hin as [Hin | Hin].
  - pose proof description_word as Hw'. rewrite Forall_forall in Hw'.
    apply Hw' in Hin. apply word_not_quote in Hin. congruence.
  - simpl in Hin. repeat (destruct Hin as [<- | Hin]; [discriminate|]). destruct Hin.
Qed.

End NameClassParse.

(** ** The parser on a name and the word class *)

Section NameClassResult.

Import CommitTool.

Lemma filter_map_same {A B : Type} (f : A -> option B) (y : B) (l : list A) :
  Forall (fun x => f x = Some y) l ->
  Forall (fun z => z = y) (filter_map f l) /\ (l <> [] -> filter_map f l <> []).
Proof.
  induction 1 as [|x l Hx Hl [IH1 IH2]]; simpl.
  - split; [constructor | intros H; now contradiction H].
  - rewrite Hx. split; [now constructor | discriminate].
Qed.

Lemma apply_writes_same {V : Type} (k : str) (v : V) (ws : list (str * V)) :
  Forall (fun w => w = (k, v)) ws -> ws <> [] -> apply_writes ws [] = [(k, v)].
Proof.
  intros Hall Hne. destruct Hall as [|w ws -> Hws]; [contradiction|].
  unfold apply_writes. cbn [fold_left fst snd map_set]. clear Hne.
  induction Hws as [|w ws -> Hws IH]; [reflexivity|].
  cbn [fold_left fst snd map_set]. now rewrite str_eqb_refl.
Qed.

Lemma parse_name_class (Name : str) :
  identifier_shaped Name -> 1 < length Name ->
  has excludeWords (toLowerCase Name) = false ->
  parseChangesToCopadoFormat (Name ++ lit " class") =
    Some [Change (defaultAction (Name ++ lit " class")) Name
                 (JStr (lit "ApexClass")) defaultModule].
Proof.
  intros Hshape Hlong Hkept.
  set (description := Name ++ lit " class").
  set (fuel := S (S (length description))).
  assert (Hfuel : length description < fuel) by (unfold fuel; lia).
  assert (Htotal : forall p, In p componentPatterns ->
            exists ms, exec_all fuel (fst p) (snd p) [] description = Some ms).
  { intros p Hp. apply exec_all_total; [|assumption].
    pose proof componentPatterns_consume as Hc. rewrite Forall_forall in Hc. now apply Hc. }
  destruct (Htotal pattern1) as [ms1 H1]; [simpl; auto|].
  destruct (Htotal pattern2) as [ms2 H2]; [simpl; auto|].
  destruct (Htotal pattern3) as [ms3 H3]; [simpl; auto|].
  destruct (Htotal pattern4) as [ms4 H4]; [simpl; auto 6|].
  destruct (Htotal pattern5) as [ms5 H5]; [simpl; auto 6|].
  cbn [fst] in H1, H2, H3, H4, H5.
  pose proof (pattern1_matches Name Hshape Hlong Hkept fuel ms1 H1) as [Hne1 Hall1].
  pose proof (pattern2_matches Name Hshape Hlong Hkept fuel ms2 H2) as Hall2.
  pose proof (pattern3_matches Name Hshape Hlong Hkept fuel ms3 H3) as Hall3.
  pose proof (pattern4_matches Name Hshape fuel ms4 H4) as E4.
  pose proof (pattern5_matches Name Hshape fuel ms5 H5) as E5.
  subst ms4 ms5.
  apply filter_map_same in Hall1, Hall2, Hall3.
  destruct Hall1 as [Hw1 Hn1], Hall2 as [Hw2 _], Hall3 as [Hw3 _].
  specialize (Hn1 Hne1).
  unfold parseChangesToCopadoFormat, parse_with, found_components.
  fold description. fold fuel.
  unfold componentPatterns, all_writes, pattern_writes.
  cbn [fst]. rewrite H1, H2, H3, H4, H5. cbn [filter_map app].
  rewrite app_nil_r.
  rewrite (apply_writes_same Name (JStr (lit "ApexClass"))).
  - reflexivity.
  - apply Forall_app. split; [assumption|]. apply Forall_app. now split.
  - intros E. apply app_eq_nil in E. now destruct E.
Qed.

Lemma parse_distinct (description : str) (changes : list change) :
  parseChangesToCopadoFormat description = Some changes -> NoDup (map n changes).
Proof.
  unfold parseChangesToCopadoFormat, parse_with.
  destruct (found_components _ description) as [found|] eqn:E; [|discriminate].
  intros [= <-]. apply found_components_distinct in E.
  destruct found as [|e l].
  - simpl. constructor; [intros [] | constructor].
  - now rewrite changes_of_names.
Qed.

Lemma NoDup_filter_one (name : str) (changes : list change) :
  NoDup (map n changes) ->
  length (filter (fun c => str_eqb (n c) name) changes) <= 1.
Proof.
  induction changes as [|c changes IH]; simpl; intros H; [lia|].
  inversion H as [|x l Hnin Hnd]; subst.
  destruct (str_eqb (n c) name) eqn:E; [|now apply IH].
  apply str_eqb_eq in E. subst name. simpl.
  assert (Hf : filter (fun c0 => str_eqb (n c0) (n c)) changes = []).
  { clear -Hnin. induction changes as [|c' changes IH]; simpl; [reflexivity|].
    destruct (str_eqb (n c') (n c)) eqn:E.
    - apply str_eqb_eq in E. exfalso. apply Hnin. left. assumption.
    - apply IH. intros Hin. apply Hnin. now right. }
  rewrite Hf. simpl. lia.
Qed.

End NameClassResult.

(** ** The parsers on some inputs *)

Section Examples.

Import CommitTool PromoteTool.

(** The records come in the order in which their names were first written,
    pattern by pattern: the trigger, found by the first pattern, comes
    before the class, found by the fourth. *)
Example parse_two_components :
  parseChangesToCopadoFormat
    (lit "Modified the AccountController apex class and added new ContactTrigger trigger") =
  Some [Change (lit "Add") (lit "ContactTrigger") (JStr (lit "ApexTrigger")) defaultModule;
        Change (lit "Add") (lit "AccountController") (JStr (lit "ApexClass")) defaultModule].
Proof. vm_compute. reflexivity. Qed.

(** A quoted name is an ApexClass. *)
Example parse_quoted_name :
  parseChangesToCopadoFormat (lit "fixed 'MyThing' and updated Some Helper stuff") =
  Some [Change (lit "Add") (lit "MyThing") (JStr (lit "ApexClass")) defaultModule].
Proof. vm_compute. reflexivity. Qed.

(** The fallback: no pattern accepts a name, Helper is the one capitalised
    word that is kept, and no type keyword stands within twenty characters
    of it. *)
Example parse_fallback :
  parseChangesToCopadoFormat (lit "Updated Helper stuff for the object") =
  Some [Change (lit "Add") (lit "Helper") (JStr (lit "ApexClass")) defaultModule].
Proof. vm_compute. reflexivity. Qed.

(** [in] sees what [typeMap] inherits: after a type keyword the word
    Constructor is taken for a type, and the keyword for the name. *)
Example parse_inherited_property :
  parseChangesToCopadoFormat (lit "Class Constructor") =
  Some [Change (lit "Add") (lit "Class") (JInherited (lit "constructor")) defaultModule].
Proof. vm_compute. reflexivity. Qed.

(** A name that is not at a word boundary is not found. *)
Example parse_inside_word :
  parseChangesToCopadoFormat (lit "XFoo classy") =
  Some [Change (lit "Add") (lit "XFoo") (JStr (lit "ApexClass")) defaultModule].
Proof. vm_compute. reflexivity. Qed.

Example ids_upper_case_and :
  parseUserStoryIds (lit "a1u1 AND a1u2,, a1u3") = [lit "a1u1"; lit "a1u2"; lit "a1u3"].
Proof. vm_compute. reflexivity. Qed.

Example ids_empty : parseUserStoryIds (lit " and ") = [].
Proof. vm_compute. reflexivity. Qed.

End Examples.

(** ** The records of the change-description parser *)

Section Records.

Import CommitTool.

Lemma filter_map_in {A B : Type} (f : A -> option B) (l : list A) (y : B) :
  In y (filter_map f l) -> exists x, In x l /\ f x = Some y.
Proof.
  induction l as [|x l IH]; simpl; [intros []|].
  destruct (f x) as [z|] eqn:E.
  - intros [<- | H].
    + exists x. auto.
    + destruct (IH H) as [x' [Hin Hf]]. exists x'. auto.
  - intros H. destruct (IH H) as [x' [Hin Hf]]. exists x'. auto.
Qed.

Lemma in_map_set {V : Type} (k k' : str) (v v' : V) (m : list (str * V)) :
  In (k', v') (map_set k v m) -> (k', v') = (k, v) \/ In (k', v') m.
Proof.
  induction m as [|[k0 v0] m IH]; simpl.
  - intros [H | []]. left. now symmetry.
  - destruct (str_eqb k k0) eqn:E; simpl.
    + apply str_eqb_eq in E. subst k0. intros [H | H]; [left; now symmetry | auto].
    + intros [H | H]; [auto|]. destruct (IH H); auto.
Qed.

Lemma in_apply_writes {V : Type} (e : str * V) (ws : list (str * V)) : forall m,
  In e (apply_writes ws m) -> In e ws \/ In e m.
Proof.
  unfold apply_writes. induction ws as [|[k v] ws IH]; intros m H; simpl in *; [auto|].
  apply IH in H. destruct H as [H | H]; [auto|]. destruct e as [k' v'].
  apply in_map_set in H. destruct H as [H | H]; auto.
Qed.

(** What a write of the pattern loop went through. *)
Lemma all_writes_in (fuel : nat) (description : str) (w : str * jsval) :
  forall (ps : list (bool * regex)) (ws : list (str * jsval)),
  all_writes fuel ps description = Some ws -> In w ws ->
  exists p mt seen rest,
    In p ps /\ accepted mt = Some w /\
    rev seen ++ rest = description /\
    In (m_end mt) (rx_match (fst p) (snd p) (MState seen rest [])).
Proof.
  induction ps as [|p ps IH]; intros ws H Hin; simpl in H.
  - injection H as <-. destruct Hin.
  - unfold pattern_writes in H.
    destruct (exec_all fuel (fst p) (snd p) [] description) as [ms|] eqn:E; [|discriminate].
    destruct (all_writes fuel ps description) as [ws'|]; [|discriminate].
    injection H as <-. apply in_app_or in Hin. destruct Hin as [Hin | Hin].
    + apply filter_map_in in Hin. destruct Hin as [mt [Hmt Hacc]].
      apply exec_all_in in E. rewrite Forall_forall in E.
      destruct (E mt Hmt) as [seen [rest [Hw [_ Hm]]]].
      exists p, mt, seen, rest. simpl in Hw. repeat split; auto. now left.
    + destruct (IH ws' eq_refl Hin) as [p' [mt [seen [rest [Hp H']]]]].
      exists p', mt, seen, rest. split; [now right | assumption].
Qed.

Lemma fallback_writes_in (fuel : nat) (description : str) (w : str * jsval)
    (ws : list (str * jsval)) :
  fallback_writes fuel description = Some ws -> In w ws ->
  exists mt seen rest,
    fallback_write description mt = Some w /\
    rev seen ++ rest = description /\
    In (m_end mt) (rx_match false (snd fallbackPattern) (MState seen rest [])).
Proof.
  unfold fallback_writes. intros H Hin.
  destruct (exec_all fuel (fst fallbackPattern) (snd fallbackPattern) [] description)
    as [ms|] eqn:E; [|discriminate].
  injection H as <-. apply filter_map_in in Hin. destruct Hin as [mt [Hmt Hw]].
  apply exec_all_in in E. rewrite Forall_forall in E.
  destruct (E mt Hmt) as [seen [rest [Hd [_ Hm]]]].
  exists mt, seen, rest. simpl in Hd. auto.
Qed.

(** An entry of [foundComponents] was written by a pattern or by the
    fallback. *)
Lemma found_components_in (fuel : nat) (description : str)
    (found : list (str * jsval)) (e : str * jsval) :
  found_components fuel description = Some found -> In e found ->
  (exists ws, all_writes fuel componentPatterns description = Some ws /\ In e ws) \/
  (exists ws, fallback_writes fuel description = Some ws /\ In e ws).
Proof.
  unfold found_components. intros H Hin.
  destruct (all_writes fuel componentPatterns description) as [ws|] eqn:E; [|discriminate].
  destruct (apply_writes ws []) as [|x l] eqn:Ea.
  - destruct (fallback_writes fuel description) as [fws|] eqn:Ef; [|discriminate].
    injection H as <-. apply in_apply_writes in Hin. destruct Hin as [Hin | []].
    right. now exists fws.
  - injection H as <-. rewrite <- Ea in Hin. apply in_apply_writes in Hin.
    destruct Hin as [Hin | []]. left. now exists ws.
Qed.

Lemma accepted_acceptable (mt : rmatch) (name : str) (ty : jsval) :
  accepted mt = Some (name, ty) ->
  name_and_type mt = Some (Some name, ty) /\ acceptable (Some name) = true.
Proof.
  unfold accepted. destruct (name_and_type mt) as [[[nm|] ty']|]; try discriminate.
  destruct (acceptable (Some nm)) eqn:E; [|discriminate].
  intros [= <- <-]. auto.
Qed.

Lemma acceptable_name_shape (name : str) :
  acceptable (Some name) = true ->
  identifier_shaped name /\ 1 < length name /\
  has excludeWords (toLowerCase name) = false.
Proof.
  unfold acceptable. intros H.
  apply andb_true_iff in H. destruct H as [H Ht].
  apply andb_true_iff in H. destruct H as [H Hx].
  apply andb_true_iff in H. destruct H as [_ Hl].
  repeat split.
  - now apply namePattern_sound.
  - now apply Nat.ltb_lt.
  - now apply negb_true_iff.
Qed.

Lemma in_rx_group_inner ic k r st e :
  In e (rx_match ic (RGroup k r) st) ->
  exists st1 w, In st1 (rx_match ic r st) /\
                m_rest st = w ++ m_rest st1 /\ m_seen st1 = rev w ++ m_seen st /\
                e = MState (m_seen st1) (m_rest st1) ((k, w) :: m_caps st1).
Proof.
  cbn [rx_match]. intros H. apply in_map_iff in H. destruct H as [st1 [<- H]].
  destruct (rx_match_consumes ic r st st1 H) as [w [Hr [Hs _]]].
  exists st1, w. repeat split; auto. now apply set_group_consumed.
Qed.

(** The group of the fallback pattern holds an identifier. *)
Lemma fallbackPattern_capture (seen rest : str) (e : mstate) :
  In e (rx_match false (snd fallbackPattern) (MState seen rest [])) ->
  exists name, m_caps e = [(1, name)] /\ identifier_shaped name /\
               exists pre post, rest = pre ++ name ++ post.
Proof.
  unfold fallbackPattern. cbn [snd rseq]. intros H.
  apply in_rx_seq in H. destruct H as [st1 [H1 H]].
  apply in_rx_wordb in H1. destruct H1 as [-> _].
  apply in_rx_seq in H. destruct H as [st2 [H2 H]].
  apply in_rx_wordb in H. destruct H as [-> _].
  apply in_rx_group_inner in H2. destruct H2 as [st3 [w [H3 [Hr [Hs ->]]]]].
  apply in_rx_seq in H3. destruct H3 as [st4 [H4 H5]].
  apply in_rx_set in H4. destruct H4 as [c [r [Hc [Hu ->]]]].
  apply in_rx_rep in H5. destruct H5 as [w' [Hr' [Hs' [_ [Hcaps Hall]]]]].
  cbn [m_rest m_seen m_caps] in *.
  assert (Hw : w = c :: w').
  { rewrite Hr' in Hc. rewrite Hc in Hr. change (c :: w' ++ m_rest st3)
      with ((c :: w') ++ m_rest st3) in Hr. now apply app_inv_tail in Hr. }
  subst w. exists (c :: w'). rewrite Hcaps. repeat split.
  - exists c, w'. repeat split.
    + now rewrite <- upperAZ_class.
    + apply Forall_impl with (2 := Hall). intros x Hx. now rewrite <- identChar_class.
  - exists [], (m_rest st3). exact Hr.
Qed.

Lemma fallback_write_shape (description : str) (mt : rmatch) (name : str) (ty : jsval) :
  fallback_write description mt = Some (name, ty) ->
  capture 1 mt = Some name /\ 2 < length name /\
  has excludeWords (toLowerCase name) = false /\
  exists ctx, ty = JStr (infer_type typeMap ctx (lit "ApexClass")).
Proof.
  unfold fallback_write. destruct (capture 1 mt) as [nm|]; [|discriminate].
  destruct (negb (has excludeWords (toLowerCase nm)) && (2 <? length nm) &&
            negb (has fallbackExcluded nm)) eqn:E; [|discriminate].
  intros [= <- <-].
  apply andb_true_iff in E. destruct E as [E _].
  apply andb_true_iff in E. destruct E as [Hx Hl].
  repeat split.
  - now apply Nat.ltb_lt.
  - now apply negb_true_iff.
  - eexists. reflexivity.
Qed.

Lemma in_rx_group_intro ic n r st st1 w :
  m_seen st1 = rev w ++ m_seen st ->
  In st1 (rx_match ic r st) ->
  In (MState (m_seen st1) (m_rest st1) ((n, w) :: m_caps st1)) (rx_match ic (RGroup n r) st).
Proof.
  intros Hs H. cbn [rx_match]. apply in_map_iff. exists st1. split; [|assumption].
  now apply set_group_consumed.
Qed.

End Records.

(** ** A name before the word class, in any description *)

Section WordRuns.

Lemma word_not_space (c : ascii) : is_word c = true -> is_space c = false.
Proof.
  intros H. destruct (is_space c) eqn:E; [|reflexivity].
  apply space_not_word in E. congruence.
Qed.

Lemma word_lower (c : ascii) : is_word (lower_char c) = is_word c.
Proof. each_char c; reflexivity. Qed.

Lemma starts_nonword_space (c : ascii) (s : str) :
  is_space c = true -> starts_nonword (c :: s) = true.
Proof. intros H. cbn [starts_nonword]. now rewrite (space_not_word c H). Qed.

Lemma starts_nonword_word (c : ascii) (s : str) :
  is_word c = true -> starts_nonword (c :: s) = false.
Proof. intros H. cbn [starts_nonword]. now rewrite H. Qed.

(** The run of word characters at the start of a string is determined. *)
Lemma word_run_unique (a b x y : str) :
  a ++ x = b ++ y ->
  Forall (fun c => is_word c = true) a -> Forall (fun c => is_word c = true) b ->
  starts_nonword x = true -> starts_nonword y = true ->
  a = b /\ x = y.
Proof.
  revert b. induction a as [|c a IH]; intros [|d b] E Ha Hb Hx Hy; cbn [app] in E.
  - auto.
  - exfalso. subst x. inversion Hb as [|? ? Hd _]; subst.
    rewrite (starts_nonword_word d _ Hd) in Hx. discriminate.
  - exfalso. subst y. inversion Ha as [|? ? Hc _]; subst.
    rewrite (starts_nonword_word c _ Hc) in Hy. discriminate.
  - injection E as -> E. inversion Ha; subst. inversion Hb; subst.
    destruct (IH b E) as [-> ->]; auto.
Qed.

(** What ends with word characters does not end at the boundary of a
    word. *)
Lemma ends_with_word (x m : str) :
  m <> [] -> Forall (fun c => is_word c = true) m ->
  starts_nonword (rev (x ++ m)) = false.
Proof.
  intros Hm Hw. rewrite rev_app_distr.
  destruct (rev m) as [|z l] eqn:E.
  - apply (f_equal (@rev ascii)) in E. rewrite rev_involutive in E. now contradiction Hm.
  - cbn [app]. apply starts_nonword_word.
    rewrite Forall_forall in Hw. apply Hw. apply in_rev. rewrite E. now left.
Qed.

Lemma ends_with_space (x m : str) :
  m <> [] -> Forall (fun c => is_space c = true) m ->
  starts_nonword (rev (x ++ m)) = true.
Proof.
  intros Hm Hw. rewrite rev_app_distr.
  destruct (rev m) as [|z l] eqn:E.
  - apply (f_equal (@rev ascii)) in E. rewrite rev_involutive in E. now contradiction Hm.
  - cbn [app]. apply starts_nonword_space.
    rewrite Forall_forall in Hw. apply Hw. apply in_rev. rewrite E. now left.
Qed.

Lemma run_length_app_stop (p : ascii -> bool) (x b : str) (c : ascii) :
  p c = false -> run_length p (x ++ c :: b) = run_length p x.
Proof.
  intros Hc. induction x as [|y x IH]; simpl; [now rewrite Hc|].
  destruct (p y); [now rewrite IH | reflexivity].
Qed.

Lemma app_split {A : Type} (l1 l2 l1' l2' : list A) :
  l1 ++ l2 = l1' ++ l2' ->
  (exists m, m <> [] /\ l1 = l1' ++ m /\ l2' = m ++ l2) \/
  (l1 = l1' /\ l2 = l2') \/
  (exists m, m <> [] /\ l1' = l1 ++ m /\ l2 = m ++ l2').
Proof.
  revert l1'. induction l1 as [|x l1 IH]; intros [|y l1'] E; cbn [app] in E.
  - auto.
  - right. right. exists (y :: l1'). repeat split; [discriminate | assumption].
  - left. exists (x :: l1). repeat split; [discriminate | now symmetry].
  - injection E as -> E. destruct (IH l1' E) as [[m [Hm [-> ->]]] | [[-> ->] | [m [Hm [-> ->]]]]].
    + left. now exists m.
    + auto.
    + right. right. now exists m.
Qed.

(** A word that starts inside a match of a word, white space and a word,
    and not where the match starts, is the second word. *)
Lemma overlap_second_word (b R c1 c2 c3 T : str) :
  b ++ R = c1 ++ c2 ++ c3 ++ T ->
  b <> [] -> starts_nonword (rev b) = true -> starts_nonword R = false ->
  length b < length c1 + length c2 + length c3 ->
  Forall (fun c => is_word c = true) c1 ->
  Forall (fun c => is_space c = true) c2 ->
  Forall (fun c => is_word c = true) c3 ->
  b = c1 ++ c2 /\ R = c3 ++ T.
Proof.
  intros E Hb Hend Hstart Hlen W1 S2 W3.
  assert (Hword : forall x m, b = x ++ m -> m <> [] ->
                    Forall (fun c => is_word c = true) m -> False).
  { intros x m -> Hm Hw. rewrite (ends_with_word x m Hm Hw) in Hend. discriminate. }
  assert (Hspace : forall m r, R = m ++ r -> m <> [] ->
                     Forall (fun c => is_space c = true) m -> False).
  { intros [|z m] r -> Hm Hs; [now contradiction Hm|]. inversion Hs as [|? ? Hz _]; subst.
    cbn [app] in Hstart. rewrite (starts_nonword_space z _ Hz) in Hstart. discriminate. }
  destruct (app_split _ _ _ _ E) as [[m [Hm [-> E1]]] | [[-> E1] | [m [Hm [-> E1]]]]].
  - symmetry in E1.
    destruct (app_split _ _ _ _ E1) as [[m' [Hm' [-> E2]]] | [[-> E2] | [m' [Hm' [E2 E3]]]]].
    + symmetry in E2.
      destruct (app_split _ _ _ _ E2) as [[m2 [Hm2 [-> E4]]] | [[-> E4] | [m2 [Hm2 [-> E4]]]]].
      * exfalso. rewrite !length_app in Hlen. lia.
      * exfalso. rewrite !length_app in Hlen. lia.
      * exfalso. apply (Hword (c1 ++ c2) m'); auto.
        -- now rewrite <- app_assoc.
        -- apply Forall_app in W3. now destruct W3.
    + auto.
    + exfalso. subst c2. apply (Hspace m' (c3 ++ T)); auto.
      apply Forall_app in S2. now destruct S2.
  - exfalso. apply (Hword [] c1); auto.
  - exfalso. apply (Hword [] b); auto. apply Forall_app in W1. now destruct W1.
Qed.

Lemma app_prefix_le {A : Type} (b r w t : list A) :
  b ++ r = w ++ t -> length w <= length b -> exists b', b = w ++ b' /\ t = b' ++ r.
Proof.
  intros E Hl. destruct (app_split _ _ _ _ E) as [[m [Hm [-> ->]]] | [[-> ->] | [m [Hm [-> ->]]]]].
  - now exists m.
  - exists []. now rewrite app_nil_r.
  - exfalso. destruct m; [now contradiction Hm|]. rewrite length_app in Hl. simpl in Hl. lia.
Qed.

End WordRuns.

(** ** The loop of [exec] finds a match at a position or one that covers
    it *)

Section Scan.

Lemma rx_search_first ic r : forall mid seen rest',
  rx_match ic r (MState (rev mid ++ seen) rest' []) <> [] ->
  exists mt a b,
    rx_search ic r seen (mid ++ rest') = Some mt /\
    mid = a ++ b /\
    In (m_end mt) (rx_match ic r (MState (rev a ++ seen) (b ++ rest') [])).
Proof.
  induction mid as [|c mid IH]; intros seen rest' H.
  - cbn [rev app] in *.
    destruct (rx_match ic r (MState seen rest' [])) as [|e l] eqn:E;
      [now contradiction H|].
    exists (RMatch (length seen) e), [], []. repeat split.
    + now apply rx_search_here with l.
    + cbn [rev app m_end]. rewrite E. now left.
  - destruct (rx_match ic r (MState seen ((c :: mid) ++ rest') [])) as [|e l] eqn:E.
    + destruct (IH (c :: seen) rest') as [mt [a [b [Hs [Hm Hin]]]]].
      { cbn [rev] in H. now rewrite <- app_assoc in H. }
      exists mt, (c :: a), b. repeat split.
      * cbn [app rx_search]. cbn [app] in E. now rewrite E.
      * cbn [app]. now rewrite Hm.
      * cbn [rev]. now rewrite <- app_assoc.
    + exists (RMatch (length seen) e), [], (c :: mid). repeat split.
      * now apply rx_search_here with l.
      * cbn [rev app m_end] in *. rewrite E. now left.
Qed.

Lemma exec_all_finds ic r : forall fuel mid seen rest' ms,
  exec_all fuel ic r seen (mid ++ rest') = Some ms ->
  rx_match ic r (MState (rev mid ++ seen) rest' []) <> [] ->
  exists mt a b,
    In mt ms /\ mid = a ++ b /\
    In (m_end mt) (rx_match ic r (MState (rev a ++ seen) (b ++ rest') [])) /\
    (b = [] \/ length mid + length seen < length (m_seen (m_end mt))).
Proof.
  induction fuel as [|fuel IH]; intros mid seen rest' ms H Hne; [discriminate|].
  cbn [exec_all] in H.
  destruct (rx_search_first ic r mid seen rest' Hne) as [mt [a [b [Hs [Hm Hin]]]]].
  rewrite Hs in H.
  destruct (exec_all fuel ic r (m_seen (m_end mt)) (m_rest (m_end mt))) as [ms'|] eqn:E;
    [|discriminate].
  injection H as <-.
  destruct (rx_match_consumes _ _ _ _ Hin) as [w [Hr [Hse _]]].
  cbn [m_rest m_seen] in Hr, Hse.
  destruct b as [|b0 b].
  { exists mt, a, []. repeat split; auto. now left. }
  destruct (le_lt_dec (length w) (length (b0 :: b))) as [Hle | Hlt].
  - destruct (app_prefix_le _ _ _ _ Hr Hle) as [b' [Hb Ht]].
    rewrite Ht in E.
    destruct (IH b' (m_seen (m_end mt)) rest' ms' E) as [mt' [a' [b'' [Hi' [Hm' [Hin' Hc]]]]]].
    { rewrite Hse. subst mid. rewrite Hb in Hne.
      rewrite !rev_app_distr, <- !app_assoc in Hne. exact Hne. }
    exists mt', (a ++ w ++ a'), b''. repeat split.
    + now right.
    + rewrite Hm, Hb, Hm'. now rewrite <- !app_assoc.
    + rewrite !rev_app_distr, <- !app_assoc. rewrite Hse in Hin'. exact Hin'.
    + destruct Hc as [Hc | Hc]; [now left | right].
      rewrite Hm, Hb, !length_app. rewrite Hse, !length_app, !length_rev in Hc. lia.
  - exists mt, a, (b0 :: b). repeat split; auto.
    + now left.
    + right. rewrite Hse, Hm, !length_app, !length_rev. lia.
Qed.

End Scan.

(** ** What the groups of the component patterns capture *)

Section Captures.

Import CommitTool.

Lemma in_single_range (l y : ascii) : in_ranges [(l, l)] y = true -> y = l.
Proof.
  unfold in_ranges, in_range, between. cbn [existsb fst snd]. rewrite orb_false_r.
  intros H. apply andb_true_iff in H. destruct H as [H1 H2].
  apply Nat.leb_le in H1, H2.
  assert (E : code y = code l) by lia.
  unfold code in E. apply (f_equal ascii_of_nat) in E.
  now rewrite !ascii_nat_embedding in E.
Qed.

Lemma single_range_refl (l : ascii) : in_ranges [(l, l)] l = true.
Proof.
  unfold in_ranges, in_range, between. cbn [existsb fst snd].
  now rewrite !Nat.leb_refl.
Qed.

Lemma canonical_not_small (x : ascii) : between 97 122 (code (canonicalize x)) = false.
Proof. each_char x; reflexivity. Qed.

Lemma small_lower (l : ascii) : between 97 122 (code l) = true -> lower_char l = l.
Proof. each_char l; intros H; solve [reflexivity | discriminate H]. Qed.

(** Under the [i] flag a small letter of a pattern matches the characters
    whose lower case it is. *)
Lemma small_letter_ci (l x : ascii) :
  between 97 122 (code l) = true ->
  cs_match true (CRanges [(l, l)]) x = true -> lower_char x = l.
Proof.
  intros Hl H. cbn [cs_match andb] in H.
  apply orb_true_iff in H. destruct H as [H | H].
  - apply in_single_range in H. subst x. now apply small_lower.
  - apply orb_true_iff in H. destruct H as [H | H]; apply in_single_range in H.
    + rewrite <- H, canonical_not_small in Hl. discriminate.
    + exact H.
Qed.

Lemma lowered_ci (l x : ascii) :
  lower_char x = l -> cs_match true (CRanges [(l, l)]) x = true.
Proof.
  intros <-. cbn [cs_match andb]. rewrite single_range_refl.
  now rewrite !orb_true_r.
Qed.

Lemma in_rx_chars (l : str) :
  Forall (fun c => between 97 122 (code c) = true) l ->
  forall st e, In e (rx_match true (rseq (map rchar l)) st) ->
  exists x, m_rest st = x ++ m_rest e /\ m_seen e = rev x ++ m_seen st /\
            toLowerCase x = l.
Proof.
  induction 1 as [|a l Ha Hl IH]; intros st e H.
  - cbn in H. destruct H as [<- | []]. now exists [].
  - destruct l as [|b l].
    + cbn [map rseq] in H. unfold rchar in H. apply in_rx_set in H.
      destruct H as [c [r [Hr [Hc ->]]]]. exists [c]. cbn [m_rest m_seen rev app].
      repeat split; [assumption|]. cbn. now rewrite (small_letter_ci a c Ha Hc).
    + change (rseq (map rchar (a :: b :: l)))
        with (RSeq (rchar a) (rseq (map rchar (b :: l)))) in H.
      apply in_rx_seq in H. destruct H as [st1 [H1 H2]].
      unfold rchar in H1. apply in_rx_set in H1. destruct H1 as [c [r [Hr [Hc ->]]]].
      apply IH in H2. destruct H2 as [x [Hr2 [Hs2 Hx]]]. cbn [m_rest m_seen] in Hr2, Hs2.
      exists (c :: x). repeat split.
      * rewrite Hr, Hr2. reflexivity.
      * rewrite Hs2. cbn [rev]. now rewrite <- app_assoc.
      * cbn [toLowerCase map]. fold (toLowerCase x).
        now rewrite Hx, (small_letter_ci a c Ha Hc).
Qed.

Lemma rx_chars_intro (l : str) : forall (x seen rest : str) caps,
  toLowerCase x = l ->
  In (MState (rev x ++ seen) rest caps)
     (rx_match true (rseq (map rchar l)) (MState seen (x ++ rest) caps)).
Proof.
  induction l as [|a l IH]; intros [|c x] seen rest caps E; try discriminate.
  - cbn. now left.
  - cbn [toLowerCase map] in E. injection E as Ec Ex.
    destruct l as [|b l].
    + destruct x; [|discriminate]. cbn [map rseq]. unfold rchar. apply in_rx_set.
      exists c, rest. repeat split. now apply lowered_ci.
    + change (rseq (map rchar (a :: b :: l)))
        with (RSeq (rchar a) (rseq (map rchar (b :: l)))).
      apply in_rx_seq. exists (MState (c :: seen) (x ++ rest) caps). split.
      * unfold rchar. apply in_rx_set. exists c, (x ++ rest). repeat split.
        now apply lowered_ci.
      * cbn [rev]. rewrite <- app_assoc. now apply IH.
Qed.

Lemma in_rx_typeWord (st e : mstate) :
  In e (rx_match true typeWord st) ->
  exists w, m_rest st = w ++ m_rest e /\ m_seen e = rev w ++ m_seen st /\
            In (toLowerCase w) typeWords.
Proof.
  unfold typeWord. cbn [map ralt rx_match]. intros H.
  repeat (apply in_app_or in H; destruct H as [H | H]);
    unfold rlit in H; (apply in_rx_chars in H; [|repeat constructor]);
    destruct H as [w [Hr [Hs Hw]]]; exists w; repeat split; try assumption;
    rewrite Hw; unfold typeWords; cbn [map In]; auto 12.
Qed.

Lemma typeWord_intro (x seen rest : str) caps :
  In (toLowerCase x) typeWords ->
  In (MState (rev x ++ seen) rest caps)
     (rx_match true typeWord (MState seen (x ++ rest) caps)).
Proof.
  unfold typeWords, typeWord. cbn [map ralt rx_match In]. intros H.
  repeat (destruct H as [H | H];
          [symmetry in H; repeat (apply in_or_app; (left + right));
           solve [unfold rlit; now apply rx_chars_intro] |]).
  destruct H.
Qed.

End Captures.

Section MatchParts.

Import CommitTool.

Lemma upper_char_ci (c : ascii) : cs_match true upperAZ c = true -> is_word c = true.
Proof. each_char c; vm_compute; congruence. Qed.

Lemma identifier_char_ci (c : ascii) : cs_match true identChar c = is_word c.
Proof. each_char c; reflexivity. Qed.

Lemma type_word_chars (w : str) :
  In (toLowerCase w) typeWords -> w <> [] /\ Forall (fun c => is_word c = true) w.
Proof.
  intros H.
  assert (Hl : toLowerCase w <> [] /\ Forall (fun c => is_word c = true) (toLowerCase w)).
  { unfold typeWords in H. cbn [map In] in H.
    repeat (destruct H as [H | H];
            [rewrite <- H; split; [discriminate | repeat constructor]|]).
    destruct H. }
  destruct Hl as [Hne Hall]. split.
  - intros ->. now apply Hne.
  - unfold toLowerCase in Hall. rewrite Forall_map in Hall.
    apply Forall_impl with (2 := Hall). intros c Hc. now rewrite word_lower in Hc.
Qed.

Lemma type_word_typed (w : str) :
  In w typeWords -> exists v, get_property typeMap w = Some (JStr v).
Proof.
  unfold typeWords. cbn [map In]. intros H.
  repeat (destruct H as [H | H]; [rewrite <- H; eexists; vm_compute; reflexivity|]).
  destruct H.
Qed.

Lemma in_rx_identifier (st e : mstate) :
  In e (rx_match true identifier st) ->
  exists w, m_rest st = w ++ m_rest e /\ m_seen e = rev w ++ m_seen st /\
            w <> [] /\ Forall (fun c => is_word c = true) w.
Proof.
  unfold identifier. intros H. apply in_rx_seq in H. destruct H as [st1 [H1 H2]].
  apply in_rx_set in H1. destruct H1 as [c [r [Hr [Hc ->]]]].
  apply in_rx_rep in H2. destruct H2 as [w [Hr2 [Hs2 [_ [_ Hall]]]]].
  cbn [m_rest m_seen] in Hr2, Hs2. exists (c :: w). repeat split.
  - rewrite Hr, Hr2. reflexivity.
  - rewrite Hs2. cbn [rev]. now rewrite <- app_assoc.
  - discriminate.
  - constructor; [now apply upper_char_ci|].
    apply Forall_impl with (2 := Hall). intros x Hx. now rewrite identifier_char_ci in Hx.
Qed.

Lemma identifier_intro (u : ascii) (w seen rest : str) caps :
  cs_match true upperAZ u = true ->
  Forall (fun c => is_word c = true) w -> starts_nonword rest = true ->
  In (MState (rev (u :: w) ++ seen) rest caps)
     (rx_match true identifier (MState seen ((u :: w) ++ rest) caps)).
Proof.
  intros Hu Hw Hr. unfold identifier. apply in_rx_seq.
  exists (MState (u :: seen) (w ++ rest) caps). split.
  - apply in_rx_set. exists u, (w ++ rest). now repeat split.
  - cbn [rx_match m_seen m_rest m_caps rev]. rewrite <- app_assoc. cbn [app].
    apply rep_match_run.
    + apply Forall_impl with (2 := Hw). intros x Hx. now rewrite identifier_char_ci.
    + intros c r ->. rewrite identifier_char_ci. cbn [starts_nonword] in Hr.
      now destruct (is_word c).
Qed.

Lemma boundary_before (seen rest : str) (c : ascii) caps :
  at_word_boundary (MState seen (c :: rest) caps) = true -> is_word c = true ->
  starts_nonword seen = true.
Proof.
  unfold at_word_boundary. cbn [m_seen m_rest]. intros H Hc. rewrite Hc in H.
  destruct seen as [|d seen]; [reflexivity|]. cbn [starts_nonword].
  now destruct (is_word d).
Qed.

Lemma boundary_after (seen rest : str) (c : ascii) caps :
  at_word_boundary (MState (c :: seen) rest caps) = true -> is_word c = true ->
  starts_nonword rest = true.
Proof.
  unfold at_word_boundary. cbn [m_seen m_rest]. intros H Hc. rewrite Hc in H.
  destruct rest as [|d rest]; [reflexivity|]. cbn [starts_nonword].
  now destruct (is_word d).
Qed.

Lemma boundary_intro (seen rest : str) caps :
  starts_nonword seen <> starts_nonword rest ->
  at_word_boundary (MState seen rest caps) = true.
Proof.
  unfold at_word_boundary. cbn [m_seen m_rest].
  destruct seen as [|c seen], rest as [|d rest]; cbn [starts_nonword];
    try destruct (is_word c); try destruct (is_word d); cbn; congruence.
Qed.

Lemma boundary_after_run (e : mstate) (w before : str) :
  m_seen e = rev w ++ before -> w <> [] -> Forall (fun c => is_word c = true) w ->
  at_word_boundary e = true -> starts_nonword (m_rest e) = true.
Proof.
  destruct e as [s r c]. cbn [m_seen m_rest]. intros -> Hne Hw Hb.
  destruct (rev w) as [|z l] eqn:E.
  - apply (f_equal (@rev ascii)) in E. rewrite rev_involutive in E. now contradiction Hne.
  - cbn [app] in Hb. apply boundary_after with (1 := Hb).
    rewrite Forall_forall in Hw. apply Hw. apply in_rev. rewrite E. now left.
Qed.

(** Two groups with white space between them and a word boundary after
    them. *)
Section TwoGroups.

Variables (g1 g2 : regex) (P1 P2 : str -> Prop).
Hypothesis F1 : group_free g1 = true.
Hypothesis F2 : group_free g2 = true.
Hypothesis G1 : forall st e, In e (rx_match true g1 st) ->
  exists w, m_rest st = w ++ m_rest e /\ m_seen e = rev w ++ m_seen st /\ P1 w.
Hypothesis G2 : forall st e, In e (rx_match true g2 st) ->
  exists w, m_rest st = w ++ m_rest e /\ m_seen e = rev w ++ m_seen st /\ P2 w.

Lemma two_groups_parts (st e : mstate) :
  In e (rx_match true (rseq [RGroup 1 g1; RRep 1 CSpace; RGroup 2 g2; RWordB]) st) ->
  exists c1 c2 c3,
    m_rest st = c1 ++ c2 ++ c3 ++ m_rest e /\
    m_seen e = rev c3 ++ rev c2 ++ rev c1 ++ m_seen st /\
    m_caps e = (2, c3) :: (1, c1) :: m_caps st /\
    P1 c1 /\ c2 <> [] /\ Forall (fun c => is_space c = true) c2 /\ P2 c3 /\
    at_word_boundary e = true.
Proof.
  intros H. cbn [rseq] in H.
  apply in_rx_seq in H. destruct H as [st1 [H1 H]].
  apply in_rx_group_inner in H1. destruct H1 as [sa [c1 [Ha [Hr1 [Hs1 ->]]]]].
  pose proof (group_free_caps true g1 F1 st sa Ha) as Hc1.
  destruct (G1 st sa Ha) as [w1 [Hw1 [_ Hp1]]].
  assert (w1 = c1) by (rewrite Hr1 in Hw1; now apply app_inv_tail in Hw1). subst w1.
  apply in_rx_seq in H. destruct H as [st2 [H2 H]].
  apply in_rx_rep in H2. destruct H2 as [c2 [Hr2 [Hs2 [Hm2 [Hc2 Hall]]]]].
  cbn [m_rest m_seen m_caps] in Hr2, Hs2, Hc2.
  apply in_rx_seq in H. destruct H as [st3 [H3 H]].
  apply in_rx_group_inner in H3. destruct H3 as [sb [c3 [Hb [Hr3 [Hs3 ->]]]]].
  pose proof (group_free_caps true g2 F2 st2 sb Hb) as Hc3.
  destruct (G2 st2 sb Hb) as [w3 [Hw3 [_ Hp3]]].
  assert (w3 = c3) by (rewrite Hr3 in Hw3; now apply app_inv_tail in Hw3). subst w3.
  apply in_rx_wordb in H. destruct H as [-> Hbd].
  exists c1, c2, c3. cbn [m_rest m_seen m_caps]. repeat split; try assumption.
  - now rewrite Hr1, Hr2, Hr3.
  - now rewrite Hs3, Hs2, Hs1.
  - now rewrite Hc3, Hc2, Hc1.
  - intros ->. simpl in Hm2. lia.
Qed.

End TwoGroups.

(** A match of one of the first three patterns: what is before its first
    group, the two groups and the white space between them. *)
Lemma pattern1_parts (seen rest : str) (e : mstate) :
  In e (rx_match true (snd pattern1) (MState seen rest [])) ->
  exists c1 c2 c3,
    rest = c1 ++ c2 ++ c3 ++ m_rest e /\
    m_seen e = rev c3 ++ rev c2 ++ rev c1 ++ seen /\
    m_caps e = [(2, c3); (1, c1)] /\
    starts_nonword seen = true /\
    (c1 <> [] /\ Forall (fun c => is_word c = true) c1) /\
    c2 <> [] /\ Forall (fun c => is_space c = true) c2 /\
    In (toLowerCase c3) typeWords /\
    starts_nonword (m_rest e) = true.
Proof.
  intros H. unfold pattern1 in H. cbn [snd] in H.
  change (rseq [RWordB; RGroup 1 identifier; RRep 1 CSpace; RGroup 2 typeWord; RWordB])
    with (RSeq RWordB
            (rseq [RGroup 1 identifier; RRep 1 CSpace; RGroup 2 typeWord; RWordB])) in H.
  apply in_rx_seq in H. destruct H as [st1 [H1 H]].
  apply in_rx_wordb in H1. destruct H1 as [-> Hb0].
  apply (two_groups_parts identifier typeWord
           (fun w => w <> [] /\ Forall (fun c => is_word c = true) w)
           (fun w => In (toLowerCase w) typeWords)) in H; try reflexivity.
  - destruct H as [c1 [c2 [c3 [Hr [Hs [Hc [[N1 W1] [N2 [S2 [T3 Hb]]]]]]]]]].
    cbn [m_rest m_seen m_caps] in Hr, Hs, Hc.
    destruct (type_word_chars c3 T3) as [N3 W3].
    exists c1, c2, c3. repeat split; try assumption.
    + destruct c1 as [|x c1]; [now contradiction N1|]. rewrite Hr in Hb0.
      inversion W1; subst. now apply boundary_before with (1 := Hb0).
    + now apply boundary_after_run with (1 := Hs).
  - intros st e0 H0. destruct (in_rx_identifier st e0 H0) as [w [A [B [C D]]]].
    exists w. auto.
  - apply in_rx_typeWord.
Qed.

Lemma type_first_parts (st e : mstate) :
  In e (rx_match true (rseq [RGroup 1 typeWord; RRep 1 CSpace; RGroup 2 identifier; RWordB])
          st) ->
  exists c1 c2 c3,
    m_rest st = c1 ++ c2 ++ c3 ++ m_rest e /\
    m_seen e = rev c3 ++ rev c2 ++ rev c1 ++ m_seen st /\
    m_caps e = (2, c3) :: (1, c1) :: m_caps st /\
    In (toLowerCase c1) typeWords /\
    c2 <> [] /\ Forall (fun c => is_space c = true) c2 /\
    (c3 <> [] /\ Forall (fun c => is_word c = true) c3) /\
    starts_nonword (m_rest e) = true.
Proof.
  intros H.
  apply (two_groups_parts typeWord identifier
           (fun w => In (toLowerCase w) typeWords)
           (fun w => w <> [] /\ Forall (fun c => is_word c = true) w)) in H;
    try reflexivity.
  - destruct H as [c1 [c2 [c3 [Hr [Hs [Hc [T1 [N2 [S2 [[N3 W3] Hb]]]]]]]]]].
    exists c1, c2, c3. repeat split; try assumption.
    now apply boundary_after_run with (1 := Hs).
  - apply in_rx_typeWord.
  - intros st0 e0 H0. destruct (in_rx_identifier st0 e0 H0) as [w [A [B [C D]]]].
    exists w. auto.
Qed.

Lemma pattern2_parts (seen rest : str) (e : mstate) :
  In e (rx_match true (snd pattern2) (MState seen rest [])) ->
  exists c1 c2 c3,
    rest = c1 ++ c2 ++ c3 ++ m_rest e /\
    m_seen e = rev c3 ++ rev c2 ++ rev c1 ++ seen /\
    m_caps e = [(2, c3); (1, c1)] /\
    starts_nonword seen = true /\
    In (toLowerCase c1) typeWords /\
    c2 <> [] /\ Forall (fun c => is_space c = true) c2 /\
    (c3 <> [] /\ Forall (fun c => is_word c = true) c3) /\
    starts_nonword (m_rest e) = true.
Proof.
  intros H. unfold pattern2 in H. cbn [snd] in H.
  change (rseq [RWordB; RGroup 1 typeWord; RRep 1 CSpace; RGroup 2 identifier; RWordB])
    with (RSeq RWordB
            (rseq [RGroup 1 typeWord; RRep 1 CSpace; RGroup 2 identifier; RWordB])) in H.
  apply in_rx_seq in H. destruct H as [st1 [H1 H]].
  apply in_rx_wordb in H1. destruct H1 as [-> Hb0].
  apply type_first_parts in H.
  destruct H as [c1 [c2 [c3 [Hr [Hs [Hc [T1 [N2 [S2 [W3 Hb]]]]]]]]]].
  cbn [m_rest m_seen m_caps] in Hr, Hs, Hc.
  destruct (type_word_chars c1 T1) as [N1 W1].
  exists c1, c2, c3. repeat split; try assumption; try apply W3.
  destruct c1 as [|x c1]; [now contradiction N1|]. rewrite Hr in Hb0.
  inversion W1; subst. now apply boundary_before with (1 := Hb0).
Qed.

(** In the third pattern the first group is at a word boundary or after
    the white space that follows "apex". *)
Lemma pattern3_parts (seen rest : str) (e : mstate) :
  In e (rx_match true (snd pattern3) (MState seen rest [])) ->
  exists x c1 c2 c3,
    rest = x ++ c1 ++ c2 ++ c3 ++ m_rest e /\
    m_caps e = [(2, c3); (1, c1)] /\
    starts_nonword (rev x ++ seen) = true /\
    In (toLowerCase c1) typeWords /\
    c2 <> [] /\ Forall (fun c => is_space c = true) c2 /\
    (c3 <> [] /\ Forall (fun c => is_word c = true) c3) /\
    starts_nonword (m_rest e) = true.
Proof.
  intros H. unfold pattern3 in H. cbn [snd] in H.
  change (rseq [RWordB; ROpt (RSeq (rlit "apex") (RRep 1 CSpace));
                RGroup 1 typeWord; RRep 1 CSpace; RGroup 2 identifier; RWordB])
    with (RSeq RWordB (RSeq (ROpt (RSeq (rlit "apex") (RRep 1 CSpace)))
            (rseq [RGroup 1 typeWord; RRep 1 CSpace; RGroup 2 identifier; RWordB]))) in H.
  apply in_rx_seq in H. destruct H as [st1 [H1 H]].
  apply in_rx_wordb in H1. destruct H1 as [-> Hb0].
  apply in_rx_seq in H. destruct H as [st2 [H2 H]].
  apply type_first_parts in H.
  destruct H as [c1 [c2 [c3 [Hr [Hs [Hc [T1 [N2 [S2 [W3 Hb]]]]]]]]]].
  destruct (type_word_chars c1 T1) as [N1 W1].
  apply in_rx_opt in H2. destruct H2 as [-> | H2].
  - cbn [m_rest m_seen m_caps] in Hr, Hs, Hc.
    exists [], c1, c2, c3. cbn [rev app]. repeat split; try assumption; try apply W3.
    destruct c1 as [|z c1]; [now contradiction N1|]. rewrite Hr in Hb0.
    inversion W1; subst. now apply boundary_before with (1 := Hb0).
  - assert (Hcaps : m_caps st2 = m_caps (MState seen rest [])).
    { apply (group_free_caps true (RSeq (rlit "apex") (RRep 1 CSpace)));
        [reflexivity | exact H2]. }
    apply in_rx_seq in H2. destruct H2 as [sa [Ha Hw]].
    apply rx_match_consumes in Ha. destruct Ha as [xa [Hra [Hsa _]]].
    apply in_rx_rep in Hw. destruct Hw as [xs [Hrs [Hss [Lxs [_ Sxs]]]]].
    cbn [m_rest m_seen m_caps] in Hra, Hsa, Hcaps.
    exists (xa ++ xs), c1, c2, c3. repeat split; try assumption; try apply W3.
    + rewrite Hra, Hrs, Hr. now rewrite <- !app_assoc.
    + now rewrite Hc, Hcaps.
    + rewrite rev_app_distr, <- app_assoc.
      destruct (rev xs) as [|z l] eqn:E.
      * apply (f_equal (@rev ascii)) in E. rewrite rev_involutive in E. subst xs.
        simpl in Lxs. lia.
      * cbn [app]. apply starts_nonword_space. rewrite Forall_forall in Sxs.
        apply (Sxs z). apply in_rev. rewrite E. now left.
Qed.

(** The fourth pattern needs "apex" and white space after the white
    space that follows its first group. *)
Lemma pattern4_parts (seen rest : str) (e : mstate) :
  In e (rx_match true (snd pattern4) (MState seen rest [])) ->
  exists c1 c2 x c4 r c5,
    rest = c1 ++ c2 ++ x ++ c4 ++ r /\
    m_caps e = [(2, c5); (1, c1)] /\
    starts_nonword seen = true /\
    (c1 <> [] /\ Forall (fun c => is_word c = true) c1) /\
    c2 <> [] /\ Forall (fun c => is_space c = true) c2 /\
    toLowerCase x = lit "apex" /\
    c4 <> [] /\ Forall (fun c => is_space c = true) c4 /\
    In (toLowerCase c5) typeWords.
Proof.
  intros H. unfold pattern4 in H. cbn [snd rseq] in H.
  apply in_rx_seq in H. destruct H as [st1 [H1 H]].
  apply in_rx_wordb in H1. destruct H1 as [-> Hb0].
  apply in_rx_seq in H. destruct H as [st2 [H2 H]].
  apply in_rx_group_inner in H2. destruct H2 as [sa [c1 [Ha [Hr1 [Hs1 ->]]]]].
  pose proof (group_free_caps true identifier eq_refl _ _ Ha) as Hca.
  destruct (in_rx_identifier _ _ Ha) as [w1 [Hw1 [_ [N1 W1]]]].
  assert (w1 = c1) by (rewrite Hr1 in Hw1; now apply app_inv_tail in Hw1). subst w1.
  apply in_rx_seq in H. destruct H as [st3 [H3 H]].
  apply in_rx_rep in H3. destruct H3 as [c2 [Hr2 [_ [L2 [Hc3 S2]]]]].
  apply in_rx_seq in H. destruct H as [st4 [H4 H]].
  assert (Hc4 : m_caps st4 = m_caps st3).
  { apply (group_free_caps true (rlit "apex")); [reflexivity | exact H4]. }
  unfold rlit in H4. apply in_rx_chars in H4; [|repeat constructor].
  destruct H4 as [x [Hr4 [_ Hx]]].
  apply in_rx_seq in H. destruct H as [st5 [H5 H]].
  apply in_rx_rep in H5. destruct H5 as [c4 [Hr5 [_ [L4 [Hc5 S4]]]]].
  apply in_rx_seq in H. destruct H as [st6 [H6 H]].
  apply in_rx_wordb in H. destruct H as [-> _].
  apply in_rx_group_inner in H6. destruct H6 as [sb [c5 [Hb [Hr6 [_ ->]]]]].
  assert (Hcb : m_caps sb = m_caps st5).
  { apply (group_free_caps true (RAlt (rlit "class") (rlit "trigger")));
      [reflexivity | exact Hb]. }
  assert (T5 : In (toLowerCase c5) typeWords).
  { cbn [rx_match] in Hb. apply in_app_or in Hb.
    destruct Hb as [Hb | Hb]; unfold rlit in Hb;
      (apply in_rx_chars in Hb; [|repeat constructor]); destruct Hb as [w [Hw [_ Hl]]];
      assert (w = c5) by (rewrite Hr6 in Hw; now apply app_inv_tail in Hw); subst w;
      rewrite Hl; unfold typeWords; cbn [map In]; auto 12. }
  cbn [m_rest m_seen m_caps] in *.
  exists c1, c2, x, c4, (m_rest st5), c5. repeat split; try assumption.
  - rewrite Hr1, Hr2, Hr4, Hr5. reflexivity.
  - now rewrite Hcb, Hc5, Hc4, Hc3, Hca.
  - destruct c1 as [|z c1]; [now contradiction N1|]. rewrite Hr1 in Hb0.
    inversion W1; subst. now apply boundary_before with (1 := Hb0).
  - intros ->. simpl in L2. lia.
  - intros ->. simpl in L4. lia.
Qed.

Lemma pattern5_caps (seen rest : str) (e : mstate) :
  In e (rx_match false (snd pattern5) (MState seen rest [])) ->
  exists w, m_caps e = [(1, w)].
Proof.
  intros H. unfold pattern5 in H. cbn [snd rseq] in H.
  apply in_rx_seq in H. destruct H as [st1 [H1 H]].
  apply in_rx_set in H1. destruct H1 as [q [r [_ [_ ->]]]].
  apply in_rx_seq in H. destruct H as [st2 [H2 H]].
  apply in_rx_group in H2; [|reflexivity]. destruct H2 as [w [_ [_ [_ Hc]]]].
  apply in_rx_set in H. destruct H as [q' [r' [_ [_ ->]]]].
  exists w. cbn [m_caps] in *. exact Hc.
Qed.

End MatchParts.

(** ** A name that stands before the word class *)

Section WritesOfMatches.

Import CommitTool.

Lemma accepted_groups (mt : rmatch) (c1 c3 name : str) (ty : jsval) :
  m_caps (m_end mt) = [(2, c3); (1, c1)] -> c1 <> [] -> c3 <> [] ->
  accepted mt = Some (name, ty) ->
  (name = c1 /\ get_property typeMap (toLowerCase c3) = Some ty) \/
  (name = c3 /\ get_property typeMap (toLowerCase c3) = None).
Proof.
  intros Hc N1 N3 H. apply accepted_acceptable in H. destruct H as [H _].
  unfold name_and_type, capture in H. rewrite Hc in H. cbn [group Nat.eqb] in H.
  destruct c1 as [|x c1]; [now contradiction N1|].
  destruct c3 as [|z c3]; [now contradiction N3|].
  cbn [truthy andb] in H.
  destruct (get_property typeMap (toLowerCase (z :: c3))) as [ty'|].
  - injection H as <- <-. now left.
  - destruct (get_property typeMap (toLowerCase (x :: c1))); [|discriminate].
    injection H as <- _. now right.
Qed.

Lemma accepted_single (mt : rmatch) (w name : str) (ty : jsval) :
  m_caps (m_end mt) = [(1, w)] ->
  accepted mt = Some (name, ty) -> ty = JStr (lit "ApexClass").
Proof.
  intros Hc H. apply accepted_acceptable in H. destruct H as [H _].
  unfold name_and_type, capture in H. rewrite Hc in H. cbn [group Nat.eqb] in H.
  cbn [truthy] in H. rewrite andb_false_r in H. now injection H as _ <-.
Qed.

Lemma filter_map_intro {A B : Type} (f : A -> option B) (l : list A) (x : A) (y : B) :
  In x l -> f x = Some y -> In y (filter_map f l).
Proof.
  induction l as [|z l IH]; simpl; [intros []|].
  intros [-> | H] Hf.
  - rewrite Hf. now left.
  - destruct (f z); [right|]; auto.
Qed.

Lemma all_writes_parts (fuel : nat) (description : str) :
  forall (ps : list (bool * regex)) (ws : list (str * jsval)),
  all_writes fuel ps description = Some ws ->
  forall p, In p ps ->
  exists ms, exec_all fuel (fst p) (snd p) [] description = Some ms /\
             forall w, In w (filter_map accepted ms) -> In w ws.
Proof.
  induction ps as [|q ps IH]; intros ws H p Hp; [destruct Hp|].
  cbn [all_writes] in H. unfold pattern_writes in H.
  destruct (exec_all fuel (fst q) (snd q) [] description) as [ms|] eqn:E; [|discriminate].
  destruct (all_writes fuel ps description) as [ws'|]; [|discriminate].
  injection H as <-. destruct Hp as [-> | Hp].
  - exists ms. split; [assumption|]. intros w Hw. apply in_or_app. now left.
  - destruct (IH ws' eq_refl p Hp) as [ms' [E' Hin]]. exists ms'. split; [assumption|].
    intros w Hw. apply in_or_app. right. now apply Hin.
Qed.

Lemma assoc_in {V : Type} (k : str) (o : list (str * V)) (v : V) :
  assoc k o = Some v -> In (k, v) o.
Proof.
  induction o as [|[k0 v0] o IH]; simpl; [discriminate|].
  destruct (str_eqb k k0) eqn:E.
  - apply str_eqb_eq in E. subst k0. intros [= ->]. now left.
  - auto.
Qed.

(** The record of a name the patterns have written: one, with the type of
    the last write. *)
Lemma record_of_last_write (description : str) (ws : list (str * jsval))
    (name : str) (ty : jsval) :
  all_writes (S (S (length description))) componentPatterns description = Some ws ->
  last_write name ws = Some ty ->
  exists changes,
    parseChangesToCopadoFormat description = Some changes /\
    filter (fun c => str_eqb (n c) name) changes =
      [Change (defaultAction description) name ty defaultModule].
Proof.
  intros Hws Hlast.
  assert (Hin : In name (map fst ws)).
  { unfold last_write in Hlast. apply assoc_in in Hlast. apply in_rev in Hlast.
    change name with (fst (name, ty)). now apply in_map. }
  assert (Hkey : In name (map fst (apply_writes ws []))).
  { apply in_keys_apply_writes. now left. }
  assert (Hty : assoc name (apply_writes ws []) = Some ty).
  { rewrite assoc_apply_writes. now rewrite Hlast. }
  exists (changes_of (defaultAction description) (apply_writes ws [])). split.
  - unfold parseChangesToCopadoFormat, parse_with, found_components. rewrite Hws.
    destruct (apply_writes ws []); [destruct Hkey | reflexivity].
  - assert (Hnd : NoDup (map fst (apply_writes ws ([] : list (str * jsval))))).
    { apply NoDup_keys_apply_writes. constructor. }
    pose proof (filter_key_unique name ty _ Hnd Hty) as Hf.
    destruct (apply_writes ws []) as [|e l] eqn:E; [destruct Hkey|].
    unfold changes_of.
    set (mk := fun e0 : str * jsval =>
                 Change (defaultAction description) (fst e0) (snd e0) defaultModule).
    assert (Hmap : forall found,
              filter (fun c => str_eqb (n c) name) (map mk found) =
              map mk (filter (fun e0 => str_eqb (fst e0) name) found)).
    { induction found as [|e0 found IH]; simpl; [reflexivity|].
      destruct (str_eqb (fst e0) name); simpl; now rewrite IH. }
    rewrite Hmap, Hf. reflexivity.
Qed.

(** After white space, the word before the boundary is the word class
    when the text is " class". *)
Lemma word_after_space (c2 c3 T post : str) :
  c2 ++ c3 ++ T = lit " class" ++ post ->
  c2 <> [] -> Forall (fun c => is_space c = true) c2 ->
  Forall (fun c => is_word c = true) c3 ->
  starts_nonword T = true -> starts_nonword post = true ->
  c2 = lit " " /\ c3 = lit "class" /\ T = post.
Proof.
  intros E N2 S2 W3 HT Hp.
  destruct c2 as [|s c2]; [now contradiction N2|].
  change (lit " class") with (" "%char :: lit "class") in E. cbn [app] in E.
  injection E as -> E. destruct c2 as [|s2 c2].
  - cbn [app] in E.
    destruct (word_run_unique c3 (lit "class") T post E W3) as [-> ->]; auto.
    repeat constructor.
  - exfalso. change (lit "class") with ("c"%char :: lit "lass") in E. cbn [app] in E.
    injection E as -> _. inversion S2 as [|? ? _ S2']; subst.
    inversion S2' as [|? ? Hc _]; subst. discriminate Hc.
Qed.


Lemma starts_nonword_run (s : str) :
  starts_nonword s = true -> run_length is_word s = 0.
Proof. destruct s as [|c s]; cbn; [reflexivity|]. now destruct (is_word c). Qed.

Lemma lowered_word (x l : str) :
  toLowerCase x = l -> Forall (fun c => is_word c = true) l ->
  Forall (fun c => is_word c = true) x.
Proof.
  intros <- H. unfold toLowerCase in H. rewrite Forall_map in H.
  apply Forall_impl with (2 := H). intros c Hc. now rewrite word_lower in Hc.
Qed.

(** [other_type_follows] looks at the word after the white space. *)
Lemma other_type_follows_word (c2 c3 T : str) :
  c2 <> [] -> Forall (fun c => is_space c = true) c2 ->
  c3 <> [] -> Forall (fun c => is_word c = true) c3 ->
  starts_nonword T = true ->
  other_type_follows (c2 ++ c3 ++ T) =
    (str_eqb (toLowerCase c3) (lit "apex") ||
     (has_property typeMap (toLowerCase c3) &&
      negb (str_eqb (toLowerCase c3) (lit "class")))).
Proof.
  intros N2 S2 N3 W3 HT. unfold other_type_follows. cbv zeta.
  assert (Hk : run_length is_space (c2 ++ c3 ++ T) = length c2).
  { destruct c3 as [|z c3]; [now contradiction N3|]. cbn [app].
    rewrite run_length_app_stop.
    - now apply run_length_all.
    - apply word_not_space. now inversion W3. }
  rewrite Hk, skipn_length_app.
  assert (Hj : run_length is_word (c3 ++ T) = length c3).
  { rewrite run_length_app by assumption. rewrite (starts_nonword_run _ HT). lia. }
  rewrite Hj, firstn_length_app.
  replace (0 <? length c2) with true; [reflexivity|].
  symmetry. apply Nat.ltb_lt. destruct c2; [now contradiction N2 | simpl; lia].
Qed.

(** [after_type_word] sees a type word and the white space after it. *)
Lemma after_type_word_true (p w s : str) :
  starts_nonword (rev p) = true -> In (toLowerCase w) typeWords ->
  s <> [] -> Forall (fun c => is_space c = true) s ->
  after_type_word (p ++ w ++ s) = true.
Proof.
  intros Hp Hw Hs Ss. destruct (type_word_chars w Hw) as [Nw Ww].
  unfold after_type_word. cbv zeta. rewrite !rev_app_distr, <- app_assoc.
  assert (Hk : run_length is_space (rev s ++ rev w ++ rev p) = length (rev s)).
  { destruct (rev w) as [|z l] eqn:E.
    - apply (f_equal (@rev ascii)) in E. rewrite rev_involutive in E. now contradiction Nw.
    - cbn [app]. rewrite run_length_app_stop.
      + apply run_length_all. now apply Forall_rev.
      + apply word_not_space. rewrite Forall_forall in Ww. apply Ww.
        apply in_rev. rewrite E. now left. }
  rewrite Hk, skipn_length_app.
  assert (Hj : run_length is_word (rev w ++ rev p) = length (rev w)).
  { rewrite run_length_app by now apply Forall_rev.
    rewrite (starts_nonword_run _ Hp). lia. }
  rewrite Hj, firstn_length_app, rev_involutive.
  apply andb_true_iff. split.
  - apply Nat.ltb_lt. rewrite length_rev. destruct s; [now contradiction Hs | simpl; lia].
  - unfold has. apply existsb_exists. exists (toLowerCase w). split; [assumption|].
    apply str_eqb_refl.
Qed.

End WritesOfMatches.

Section NameAsClass.

Import CommitTool.

Variables Name description : str.
Hypothesis Name_shaped : identifier_shaped Name.
Hypothesis Name_long : 1 < length Name.
Hypothesis Name_kept : has excludeWords (toLowerCase Name) = false.
Hypothesis Name_as_class : forall pre post,
  description = pre ++ Name ++ post -> whole_word pre post = true ->
  after_type_word pre = false /\ other_type_follows post = false.

Lemma name_is_word : Forall (fun c => is_word c = true) Name.
Proof. now destruct (identifier_shaped_word Name Name_shaped). Qed.

Lemma name_starts_word (rest : str) : starts_nonword (Name ++ rest) = false.
Proof.
  destruct Name_shaped as [u [w [-> [Hu _]]]]. cbn [app].
  apply starts_nonword_word. now apply upper_is_word.
Qed.

Lemma class_type (ty : jsval) :
  get_property typeMap (lit "class") = Some ty -> ty = JStr (lit "ApexClass").
Proof. intros H. vm_compute in H. now injection H as <-. Qed.

(** After an occurrence of the name as a whole word, a word that follows
    the white space is no type word but class. *)
Lemma name_then_type (pre c2 c3 T : str) (ty : jsval) :
  description = pre ++ Name ++ c2 ++ c3 ++ T ->
  starts_nonword (rev pre) = true ->
  c2 <> [] -> Forall (fun c => is_space c = true) c2 ->
  c3 <> [] -> Forall (fun c => is_word c = true) c3 -> starts_nonword T = true ->
  get_property typeMap (toLowerCase c3) = Some ty ->
  ty = JStr (lit "ApexClass").
Proof.
  intros E Hp N2 S2 N3 W3 HT Hty.
  destruct (Name_as_class pre (c2 ++ c3 ++ T) E) as [_ Hc].
  { unfold whole_word. rewrite Hp. destruct c2 as [|s c2]; [now contradiction N2|].
    inversion S2; subst. cbn [app andb]. now apply starts_nonword_space. }
  rewrite (other_type_follows_word c2 c3 T N2 S2 N3 W3 HT) in Hc.
  apply orb_false_iff in Hc. destruct Hc as [_ Hc].
  unfold has_property in Hc. rewrite Hty in Hc. cbn [andb] in Hc.
  apply negb_false_iff, str_eqb_eq in Hc. rewrite Hc in Hty. now apply class_type.
Qed.

(** No occurrence of the name as a whole word is after a type word. *)
Lemma name_not_after_type (pre c1 c2 T : str) :
  description = pre ++ c1 ++ c2 ++ Name ++ T ->
  starts_nonword (rev pre) = true -> In (toLowerCase c1) typeWords ->
  c2 <> [] -> Forall (fun c => is_space c = true) c2 ->
  starts_nonword T = true -> False.
Proof.
  intros E Hp T1 N2 S2 HT.
  destruct (Name_as_class (pre ++ c1 ++ c2) T) as [Ha _].
  - rewrite E. now rewrite <- !app_assoc.
  - unfold whole_word. rewrite HT, andb_true_r.
    rewrite app_assoc. now apply ends_with_space.
  - rewrite (after_type_word_true pre c1 c2 Hp T1 N2 S2) in Ha. discriminate.
Qed.

(** "apex" does not follow an occurrence of the name as a whole word. *)
Lemma name_not_before_apex (pre c2 x c4 r : str) :
  description = pre ++ Name ++ c2 ++ x ++ c4 ++ r ->
  starts_nonword (rev pre) = true ->
  c2 <> [] -> Forall (fun c => is_space c = true) c2 ->
  toLowerCase x = lit "apex" ->
  c4 <> [] -> Forall (fun c => is_space c = true) c4 -> False.
Proof.
  intros E Hp N2 S2 Hx N4 S4.
  destruct (Name_as_class pre (c2 ++ x ++ c4 ++ r) E) as [_ Hc].
  { unfold whole_word. rewrite Hp. destruct c2 as [|s c2]; [now contradiction N2|].
    inversion S2; subst. cbn [app andb]. now apply starts_nonword_space. }
  rewrite (other_type_follows_word c2 x (c4 ++ r)) in Hc; try assumption.
  - rewrite Hx in Hc. discriminate Hc.
  - intros ->. discriminate Hx.
  - apply (lowered_word x (lit "apex") Hx). repeat constructor.
  - destruct c4 as [|s c4]; [now contradiction N4|]. inversion S4; subst.
    cbn [app]. now apply starts_nonword_space.
Qed.

Lemma typed_second_group (c3 : str) :
  In (toLowerCase c3) typeWords -> get_property typeMap (toLowerCase c3) <> None.
Proof. intros H. destruct (type_word_typed _ H) as [v ->]. discriminate. Qed.

(** Every write of the name by a component pattern has the type
    ApexClass. *)
Lemma name_written_as_class (p : bool * regex) (mt : rmatch) (seen rest : str)
    (ty : jsval) :
  In p componentPatterns -> accepted mt = Some (Name, ty) ->
  rev seen ++ rest = description ->
  In (m_end mt) (rx_match (fst p) (snd p) (MState seen rest [])) ->
  ty = JStr (lit "ApexClass").
Proof.
  intros Hp Hacc Hd Hin. simpl in Hp.
  destruct Hp as [<- | [<- | [<- | [<- | [<- | []]]]]]; cbn [fst] in Hin.
  - apply pattern1_parts in Hin.
    destruct Hin as [c1 [c2 [c3 [Hr [_ [Hc [Hb [[N1 W1] [N2 [S2 [T3 HT]]]]]]]]]]].
    destruct (type_word_chars c3 T3) as [N3 W3].
    destruct (accepted_groups mt c1 c3 Name ty Hc N1 N3 Hacc) as [[<- Hty] | [_ Hn]].
    + apply (name_then_type (rev seen) c2 c3 (m_rest (m_end mt)) ty); auto.
      * now rewrite <- Hd, Hr.
      * now rewrite rev_involutive.
    + now destruct (typed_second_group c3 T3).
  - apply pattern2_parts in Hin.
    destruct Hin as [c1 [c2 [c3 [Hr [_ [Hc [Hb [T1 [N2 [S2 [[N3 W3] HT]]]]]]]]]]].
    destruct (type_word_chars c1 T1) as [N1 W1].
    destruct (accepted_groups mt c1 c3 Name ty Hc N1 N3 Hacc) as [[<- Hty] | [<- _]].
    + apply (name_then_type (rev seen) c2 c3 (m_rest (m_end mt)) ty); auto.
      * now rewrite <- Hd, Hr.
      * now rewrite rev_involutive.
    + exfalso. apply (name_not_after_type (rev seen) c1 c2 (m_rest (m_end mt))); auto.
      * now rewrite <- Hd, Hr.
      * now rewrite rev_involutive.
  - apply pattern3_parts in Hin.
    destruct Hin as [x [c1 [c2 [c3 [Hr [Hc [Hb [T1 [N2 [S2 [[N3 W3] HT]]]]]]]]]]].
    destruct (type_word_chars c1 T1) as [N1 W1].
    assert (Hpre : starts_nonword (rev (rev seen ++ x)) = true).
    { now rewrite rev_app_distr, rev_involutive. }
    destruct (accepted_groups mt c1 c3 Name ty Hc N1 N3 Hacc) as [[<- Hty] | [<- _]].
    + apply (name_then_type (rev seen ++ x) c2 c3 (m_rest (m_end mt)) ty); auto.
      rewrite <- Hd, Hr. now rewrite <- !app_assoc.
    + exfalso.
      apply (name_not_after_type (rev seen ++ x) c1 c2 (m_rest (m_end mt))); auto.
      rewrite <- Hd, Hr. now rewrite <- !app_assoc.
  - apply pattern4_parts in Hin.
    destruct Hin
      as [c1 [c2 [x [c4 [r [c5 [Hr [Hc [Hb [[N1 W1] [N2 [S2 [Hx [N4 [S4 T5]]]]]]]]]]]]]]].
    destruct (type_word_chars c5 T5) as [N5 W5].
    destruct (accepted_groups mt c1 c5 Name ty Hc N1 N5 Hacc) as [[<- Hty] | [_ Hn]].
    + exfalso. apply (name_not_before_apex (rev seen) c2 x c4 r); auto.
      * now rewrite <- Hd, Hr.
      * now rewrite rev_involutive.
    + now destruct (typed_second_group c5 T5).
  - apply pattern5_caps in Hin. destruct Hin as [w Hc].
    now apply (accepted_single mt w Name ty).
Qed.

(** *** The name is written *)

Variables pre post : str.
Hypothesis Occurrence : description = pre ++ Name ++ lit " class" ++ post.
Hypothesis Word_start : starts_nonword (rev pre) = true.
Hypothesis Word_end : starts_nonword post = true.

Lemma not_after_type_here : after_type_word pre = false.
Proof.
  apply (Name_as_class pre (lit " class" ++ post) Occurrence).
  unfold whole_word. now rewrite Word_start.
Qed.

Lemma in_not_nil {A : Type} (x : A) (l : list A) : In x l -> l <> [].
Proof. intros H ->. destruct H. Qed.

Lemma first_pattern_here :
  rx_match true (snd pattern1) (MState (rev pre) (Name ++ lit " class" ++ post) []) <> [].
Proof.
  destruct Name_shaped as [u [w [E [Hu Hw]]]].
  apply in_not_nil with
    (x := MState (rev (lit "class") ++ rev (lit " ") ++ rev Name ++ rev pre) post
                 [(2, lit "class"); (1, Name)]).
  unfold pattern1. cbn [snd rseq].
  apply in_rx_seq. exists (MState (rev pre) (Name ++ lit " class" ++ post) []). split.
  { apply in_rx_wordb. split; [reflexivity|]. apply boundary_intro.
    rewrite Word_start, name_starts_word. discriminate. }
  apply in_rx_seq.
  exists (MState (rev Name ++ rev pre) (lit " class" ++ post) [(1, Name)]). split.
  { apply (in_rx_group_intro true 1 identifier
             (MState (rev pre) (Name ++ lit " class" ++ post) [])
             (MState (rev Name ++ rev pre) (lit " class" ++ post) []) Name);
      [reflexivity|].
    rewrite E. apply identifier_intro; [|assumption|reflexivity].
    apply cs_match_ignore_case. now rewrite upperAZ_class. }
  apply in_rx_seq.
  exists (MState (rev (lit " ") ++ rev Name ++ rev pre) (lit "class" ++ post) [(1, Name)]).
  split.
  { cbn [rx_match m_seen m_rest m_caps].
    change (lit " class" ++ post) with (" "%char :: "c"%char :: lit "lass" ++ post).
    cbn [rep_match]. change (cs_match true CSpace " "%char) with true.
    change (cs_match true CSpace "c"%char) with false. cbn. now left. }
  apply in_rx_seq.
  exists (MState (rev (lit "class") ++ rev (lit " ") ++ rev Name ++ rev pre) post
                 [(2, lit "class"); (1, Name)]).
  split.
  { apply (in_rx_group_intro true 2 typeWord
             (MState (rev (lit " ") ++ rev Name ++ rev pre) (lit "class" ++ post)
                     [(1, Name)])
             (MState (rev (lit "class") ++ rev (lit " ") ++ rev Name ++ rev pre) post
                     [(1, Name)]) (lit "class")); [reflexivity|].
    apply typeWord_intro. unfold typeWords. cbn [map In]. now left. }
  apply in_rx_wordb. split; [reflexivity|]. apply boundary_intro.
  rewrite Word_end. cbn. discriminate.
Qed.

Lemma second_pattern_here :
  In (toLowerCase Name) typeWords ->
  rx_match true (snd pattern2) (MState (rev pre) (Name ++ lit " class" ++ post) []) <> [].
Proof.
  intros HT.
  apply in_not_nil with
    (x := MState (rev (lit "class") ++ rev (lit " ") ++ rev Name ++ rev pre) post
                 [(2, lit "class"); (1, Name)]).
  unfold pattern2. cbn [snd rseq].
  apply in_rx_seq. exists (MState (rev pre) (Name ++ lit " class" ++ post) []). split.
  { apply in_rx_wordb. split; [reflexivity|]. apply boundary_intro.
    rewrite Word_start, name_starts_word. discriminate. }
  apply in_rx_seq.
  exists (MState (rev Name ++ rev pre) (lit " class" ++ post) [(1, Name)]). split.
  { apply (in_rx_group_intro true 1 typeWord
             (MState (rev pre) (Name ++ lit " class" ++ post) [])
             (MState (rev Name ++ rev pre) (lit " class" ++ post) []) Name);
      [reflexivity|].
    now apply typeWord_intro. }
  apply in_rx_seq.
  exists (MState (rev (lit " ") ++ rev Name ++ rev pre) (lit "class" ++ post) [(1, Name)]).
  split.
  { cbn [rx_match m_seen m_rest m_caps].
    change (lit " class" ++ post) with (" "%char :: "c"%char :: lit "lass" ++ post).
    cbn [rep_match]. change (cs_match true CSpace " "%char) with true.
    change (cs_match true CSpace "c"%char) with false. cbn. now left. }
  apply in_rx_seq.
  exists (MState (rev (lit "class") ++ rev (lit " ") ++ rev Name ++ rev pre) post
                 [(2, lit "class"); (1, Name)]).
  split.
  { apply (in_rx_group_intro true 2 identifier
             (MState (rev (lit " ") ++ rev Name ++ rev pre) (lit "class" ++ post)
                     [(1, Name)])
             (MState (rev (lit "class") ++ rev (lit " ") ++ rev Name ++ rev pre) post
                     [(1, Name)]) (lit "class")); [reflexivity|].
    change (lit "class") with ("c"%char :: lit "lass").
    apply identifier_intro; [reflexivity | repeat constructor | exact Word_end]. }
  apply in_rx_wordb. split; [reflexivity|]. apply boundary_intro.
  rewrite Word_end. cbn. discriminate.
Qed.

(** A match of a word, white space and a word at the occurrence is the
    name and the word class. *)
Lemma groups_here (c1 c2 c3 T : str) :
  Name ++ lit " class" ++ post = c1 ++ c2 ++ c3 ++ T ->
  Forall (fun c => is_word c = true) c1 ->
  c2 <> [] -> Forall (fun c => is_space c = true) c2 ->
  Forall (fun c => is_word c = true) c3 -> starts_nonword T = true ->
  c1 = Name /\ c3 = lit "class".
Proof.
  intros E W1 N2 S2 W3 HT.
  destruct (word_run_unique Name c1 (lit " class" ++ post) (c2 ++ c3 ++ T) E name_is_word W1)
    as [<- E'].
  - reflexivity.
  - destruct c2 as [|s c2]; [now contradiction N2|]. inversion S2; subst.
    now apply starts_nonword_space.
  - symmetry in E'.
    now destruct (word_after_space c2 c3 T post E' N2 S2 W3 HT Word_end) as [_ [-> _]].
Qed.

(** A match that starts before the occurrence and ends after its start
    has the name as its second group, after the first group and white
    space. *)
Lemma groups_across (a b c1 c2 c3 T : str) :
  pre = a ++ b -> b <> [] ->
  b ++ Name ++ lit " class" ++ post = c1 ++ c2 ++ c3 ++ T ->
  length b < length c1 + length c2 + length c3 ->
  Forall (fun c => is_word c = true) c1 ->
  Forall (fun c => is_space c = true) c2 ->
  Forall (fun c => is_word c = true) c3 -> starts_nonword T = true ->
  pre = a ++ c1 ++ c2 /\ c3 = Name.
Proof.
  intros Hp Nb E Hl W1 S2 W3 HT.
  destruct (overlap_second_word b (Name ++ lit " class" ++ post) c1 c2 c3 T E Nb)
    as [Hb HR]; auto.
  - pose proof Word_start as Hs. rewrite Hp, rev_app_distr in Hs.
    destruct (rev b) as [|z l] eqn:Eb; [|exact Hs].
    apply (f_equal (@rev ascii)) in Eb. rewrite rev_involutive in Eb. now contradiction Nb.
  - apply name_starts_word.
  - split; [now rewrite Hp, Hb|].
    destruct (word_run_unique Name c3 (lit " class" ++ post) T HR name_is_word W3)
      as [<- _]; auto.
Qed.

Lemma name_is_written (ws : list (str * jsval)) (fuel : nat) :
  all_writes fuel componentPatterns description = Some ws ->
  In (Name, JStr (lit "ApexClass")) ws.
Proof.
  intros Hws.
  destruct (all_writes_parts fuel description _ ws Hws pattern1) as [ms1 [E1 In1]];
    [simpl; auto|].
  destruct (all_writes_parts fuel description _ ws Hws pattern2) as [ms2 [E2 In2]];
    [simpl; auto|].
  cbn [fst] in E1, E2. rewrite Occurrence in E1, E2.
  destruct (exec_all_finds true (snd pattern1) fuel pre [] _ ms1 E1)
    as [mt [a [b [Hmt [Hp [Hin Hpos]]]]]].
  { rewrite app_nil_r. apply first_pattern_here. }
  rewrite app_nil_r in Hin.
  apply pattern1_parts in Hin.
  destruct Hin as [c1 [c2 [c3 [Hr [Hs [Hc [_ [[N1 W1] [N2 [S2 [T3 HT]]]]]]]]]]].
  destruct (type_word_chars c3 T3) as [N3 W3].
  destruct b as [|b0 b].
  { (* the first pattern matches at the occurrence *)
    cbn [app] in Hr.
    destruct (groups_here c1 c2 c3 _ Hr W1 N2 S2 W3 HT) as [-> ->].
    apply In1. apply filter_map_intro with mt; [assumption|].
    now apply accepted_whole. }
  destruct Hpos as [Hpos | Hpos]; [discriminate|].
  destruct (groups_across a (b0 :: b) c1 c2 c3 (m_rest (m_end mt)) Hp) as [_ ->]; auto.
  { discriminate. }
  { rewrite Hs, Hp in Hpos.
    repeat (rewrite length_app in Hpos || rewrite length_rev in Hpos).
    cbn [length] in Hpos |- *. lia. }
  (* the name is a type word: the second pattern *)
  clear Hr Hs Hc Hpos Hmt Hp mt a b0 b c1 c2 N1 W1 N2 S2 HT.
  destruct (exec_all_finds true (snd pattern2) fuel pre [] _ ms2 E2)
    as [mt [a [b [Hmt [Hp [Hin Hpos]]]]]].
  { rewrite app_nil_r. now apply second_pattern_here. }
  rewrite app_nil_r in Hin.
  apply pattern2_parts in Hin.
  destruct Hin as [c1 [c2 [c3 [Hr [Hs [Hc [Hb [T1 [N2 [S2 [[N3' W3'] HT]]]]]]]]]]].
  destruct (type_word_chars c1 T1) as [N1 W1].
  destruct b as [|b0 b].
  { cbn [app] in Hr.
    destruct (groups_here c1 c2 c3 _ Hr W1 N2 S2 W3' HT) as [-> ->].
    apply In2. apply filter_map_intro with mt; [assumption|].
    now apply accepted_whole. }
  exfalso. destruct Hpos as [Hpos | Hpos]; [discriminate|].
  destruct (groups_across a (b0 :: b) c1 c2 c3 (m_rest (m_end mt)) Hp) as [Hpre _]; auto.
  { discriminate. }
  { rewrite Hs, Hp in Hpos.
    repeat (rewrite length_app in Hpos || rewrite length_rev in Hpos).
    cbn [length] in Hpos |- *. lia. }
  pose proof not_after_type_here as Hn.
  assert (Ht : after_type_word (a ++ c1 ++ c2) = true)
    by (apply after_type_word_true; auto).
  rewrite Hpre, Ht in Hn. discriminate.
Qed.

End NameAsClass.

(** The conditions on the occurrences are needed.  Inside a longer word
    the name is not found, and before a longer word than class nothing
    is.  An occurrence before another type word, or before "apex" and
    another one, replaces the type; so does, for a name that is itself a
    type word, an occurrence before another key of the type table.  After
    a type word such a name can be lost. *)
Section NameAsClassLimits.

Import CommitTool.

Lemma name_inside_longer_word :
  parseChangesToCopadoFormat (lit "XFoo class") =
    Some [Change (lit "Add") (lit "XFoo") (JStr (lit "ApexClass")) defaultModule].
Proof. vm_compute. reflexivity. Qed.

Lemma class_inside_longer_word :
  parseChangesToCopadoFormat (lit "Ab classy") =
    Some [Change (lit "Add") (lit "UnknownComponent") (JStr (lit "ApexClass"))
                 defaultModule].
Proof. vm_compute. reflexivity. Qed.

Lemma name_before_another_type :
  parseChangesToCopadoFormat (lit "Foo class and Foo trigger") =
    Some [Change (lit "Add") (lit "Foo") (JStr (lit "ApexTrigger")) defaultModule].
Proof. vm_compute. reflexivity. Qed.

Lemma name_before_apex_trigger :
  parseChangesToCopadoFormat (lit "Foo class and Foo apex trigger") =
    Some [Change (lit "Add") (lit "Foo") (JStr (lit "ApexTrigger")) defaultModule].
Proof. vm_compute. reflexivity. Qed.

Lemma type_word_before_another_key :
  parseChangesToCopadoFormat (lit "Flow class and Flow report") =
    Some [Change (lit "Add") (lit "Flow") (JStr (lit "Report")) defaultModule].
Proof. vm_compute. reflexivity. Qed.

Lemma type_word_after_type_word :
  parseChangesToCopadoFormat (lit "Bar label, class Flow class") =
    Some [Change (lit "Add") (lit "Bar") (JStr (lit "CustomLabel")) defaultModule].
Proof. vm_compute. reflexivity. Qed.

End NameAsClassLimits.

(** * The properties of the specification *)

Section Claims.

Import CommitTool PromoteTool CheckJobStatusTool Tools IdentifierList StatusBuckets.

(** C1 (the code at the failing inputs).  The token of a request should be
    the [apiKey] argument when there is one and the configured
    [COPADO_API_KEY] otherwise.  [check_job_status] does that, and every
    tool fails before its request when there is neither.  But
    [commit_changes] and [promote_user_story] never read the configured
    token: without [apiKey] they fail although a token is configured; and
    [deploy_promotion] never reads [apiKey]: it fails when only [apiKey] is
    given and sends the configured token when both are. *)
Theorem C1_token_resolution :
  let required :=
    "API key is required. Provide it as a parameter or set COPADO_API_KEY environment variable."%string in
  let configured := Some (lit "env-key") in
  let argument := Some (lit "arg-key") in
  let no_request (env : option str) (call : tool_call) :=
    prepare env call = Throw required /\
    execute env bool (fun _ => true) negb call = Some (Outcome [] true) in
  (* neither token: no tool sends a request *)
  (forall u d msg, no_request None (commit_changes u d msg None)) /\
  (forall ids e v, no_request None (promote_user_story ids e v None)) /\
  (forall p, no_request None (deploy_promotion p None)) /\
  (forall j, no_request None (check_job_status j None)) /\
  (* check_job_status: the argument first, then the configured token *)
  (exists rq, prepare configured (check_job_status (lit "job1") argument) = Ok rq /\
              key rq = lit "arg-key" /\ webhook_key_header rq = lit "arg-key") /\
  (exists rq, prepare configured (check_job_status (lit "job1") None) = Ok rq /\
              key rq = lit "env-key" /\ webhook_key_header rq = lit "env-key") /\
  (* commit_changes and promote_user_story with the configured token only *)
  no_request configured (commit_changes (lit "a1u7") (lit "Foo class") None None) /\
  no_request configured (promote_user_story (lit "a1u7") false false None) /\
  (* deploy_promotion with the argument only, and with both *)
  no_request None (deploy_promotion (lit "p1") argument) /\
  (exists rq, prepare configured (deploy_promotion (lit "p1") argument) = Ok rq /\
              key rq = lit "env-key" /\ webhook_key_header rq = lit "env-key").
Proof.
  cbv zeta. repeat split; try reflexivity; eexists; repeat split; reflexivity.
Qed.

(** C2 (amended).  When the component patterns write a name into
    [foundComponents] once or more, parsing yields exactly one record for
    that name, and its type is the one of the last write: a later match of
    the same name replaces the type. *)
Theorem C2_last_write_wins (description : str) (ws : list (str * jsval)) (name : str) :
  all_writes (S (S (length description))) componentPatterns description = Some ws ->
  In name (map fst ws) ->
  exists ty changes,
    last_write name ws = Some ty /\
    parseChangesToCopadoFormat description = Some changes /\
    filter (fun c => str_eqb (n c) name) changes =
      [Change (defaultAction description) name ty defaultModule].
Proof.
  intros Hws Hin.
  assert (Hkey : In name (map fst (apply_writes ws []))).
  { apply in_keys_apply_writes. now left. }
  destruct (assoc_in_keys name _ Hkey) as [ty Hty].
  pose proof Hty as Hlast. rewrite assoc_apply_writes in Hlast.
  destruct (last_write name ws) as [ty'|] eqn:El; [|discriminate].
  injection Hlast as ->.
  exists ty, (changes_of (defaultAction description) (apply_writes ws [])).
  split; [reflexivity|]. split.
  - unfold parseChangesToCopadoFormat, parse_with, found_components. rewrite Hws.
    destruct (apply_writes ws []); [destruct Hkey | reflexivity].
  - assert (Hnd : NoDup (map fst (apply_writes ws ([] : list (str * jsval))))).
    { apply NoDup_keys_apply_writes. constructor. }
    pose proof (filter_key_unique name ty _ Hnd Hty) as Hf.
    destruct (apply_writes ws []) as [|e l] eqn:E; [destruct Hkey|].
    unfold changes_of.
    set (mk := fun e0 : str * jsval =>
                 Change (defaultAction description) (fst e0) (snd e0) defaultModule).
    assert (Hmap : forall found,
              filter (fun c => str_eqb (n c) name) (map mk found) =
              map mk (filter (fun e0 => str_eqb (fst e0) name) found)).
    { induction found as [|e0 found IH]; simpl; [reflexivity|].
      destruct (str_eqb (fst e0) name); simpl; now rewrite IH. }
    rewrite Hmap, Hf. reflexivity.
Qed.

Lemma C2_last_write_wins_witness :
  exists ty changes,
    last_write (lit "Foo")
      [(lit "Foo", JStr (lit "ApexClass")); (lit "Foo", JStr (lit "ApexTrigger"));
       (lit "Foo", JStr (lit "ApexTrigger"))] = Some ty /\
    parseChangesToCopadoFormat (lit "Foo class and trigger Foo") = Some changes /\
    filter (fun c => str_eqb (n c) (lit "Foo")) changes =
      [Change (defaultAction (lit "Foo class and trigger Foo")) (lit "Foo") ty
              defaultModule].
Proof.
  apply (C2_last_write_wins (lit "Foo class and trigger Foo")
           [(lit "Foo", JStr (lit "ApexClass")); (lit "Foo", JStr (lit "ApexTrigger"));
            (lit "Foo", JStr (lit "ApexTrigger"))] (lit "Foo")).
  - vm_compute. reflexivity.
  - simpl. auto.
Defined.

(** C2 as stated fails: in "Foo class and trigger Foo" the first type found
    for Foo is ApexClass, and the one record for Foo is an ApexTrigger. *)
Lemma C2_first_writer_wins_counterexample :
  ~ (forall (description : str) (ws : list (str * jsval)) (name : str) (ty : jsval),
       all_writes (S (S (length description))) componentPatterns description = Some ws ->
       first_write name ws = Some ty ->
       exists changes,
         parseChangesToCopadoFormat description = Some changes /\
         filter (fun c => str_eqb (n c) name) changes =
           [Change (defaultAction description) name ty defaultModule]).
Proof.
  intros H.
  specialize (H (lit "Foo class and trigger Foo")
                [(lit "Foo", JStr (lit "ApexClass")); (lit "Foo", JStr (lit "ApexTrigger"));
                 (lit "Foo", JStr (lit "ApexTrigger"))]
                (lit "Foo") (JStr (lit "ApexClass"))).
  destruct H as [changes [Hp Hf]]; [vm_compute; reflexivity | reflexivity |].
  vm_compute in Hp. injection Hp as <-. vm_compute in Hf. discriminate.
Qed.

(** C3 (amended).  Let <Name> be an identifier longer than one character
    that is not excluded.  For a description in which <Name> stands as a
    whole word before " class" and a word boundary, and in which no
    occurrence of <Name> as a whole word is after one of the nine type
    words and white space, or before white space and a word that is, in
    lower case, "apex" or a key of the type table other than "class",
    parsing yields exactly one record whose componentName is <Name>, and
    its componentType is ApexClass. *)
Theorem C3_name_class (Name description : str) :
  identifier_shaped Name ->
  1 < length Name ->
  has excludeWords (toLowerCase Name) = false ->
  (exists pre post,
     description = pre ++ Name ++ lit " class" ++ post /\ whole_word pre post = true) ->
  (forall pre post,
     description = pre ++ Name ++ post -> whole_word pre post = true ->
     after_type_word pre = false /\ other_type_follows post = false) ->
  exists changes,
    parseChangesToCopadoFormat description = Some changes /\
    filter (fun c => str_eqb (n c) Name) changes =
      [Change (defaultAction description) Name (JStr (lit "ApexClass")) defaultModule].
Proof.
  intros Hshape Hlong Hkept [pre [post [Hocc Hw]]] Hall.
  unfold whole_word in Hw. apply andb_true_iff in Hw. destruct Hw as [Hs He].
  set (fuel := S (S (length description))).
  destruct (all_writes_total componentPatterns description fuel componentPatterns_consume)
    as [ws Hws]; [unfold fuel; lia|].
  pose proof (name_is_written Name description Hshape Hlong Hkept Hall pre post
                Hocc Hs He ws fuel Hws) as Hin.
  assert (Hkey : In Name (map fst (rev ws))).
  { change Name with (fst (Name, JStr (lit "ApexClass"))). apply in_map.
    now apply in_rev in Hin. }
  destruct (assoc_in_keys Name _ Hkey) as [ty Hty].
  assert (Hlast : last_write Name ws = Some ty) by exact Hty.
  apply record_of_last_write with (ws := ws); [exact Hws|].
  rewrite Hlast. f_equal.
  apply assoc_in in Hty. apply in_rev in Hty.
  destruct (all_writes_in fuel description (Name, ty) componentPatterns ws Hws Hty)
    as [p [mt [seen [rest [Hp [Hacc [Hd Hm]]]]]]].
  now apply (name_written_as_class Name description Hall p mt seen rest ty).
Qed.

(** The occurrences of a word in a text that is given: the equation [E]
    of a decomposition is followed along [pre]. *)
Ltac occurrences E pre Hw :=
  first
    [ discriminate E
    | destruct pre as [|? pre]; cbn [app] in E;
      [ first [ discriminate E
              | injection E as E; subst;
                first [ split; reflexivity | discriminate Hw ] ]
      | first [ discriminate E
              | injection E as ? E; subst; occurrences E pre Hw ] ] ].

Lemma C3_name_class_witness :
  exists changes,
    parseChangesToCopadoFormat (lit "I modified the Foo class so that Foo handles FooBar") =
      Some changes /\
    filter (fun c => str_eqb (n c) (lit "Foo")) changes =
      [Change (defaultAction (lit "I modified the Foo class so that Foo handles FooBar"))
              (lit "Foo") (JStr (lit "ApexClass")) defaultModule].
Proof.
  apply (C3_name_class (lit "Foo") (lit "I modified the Foo class so that Foo handles FooBar")).
  - exists "F"%char, (lit "oo"). repeat split. repeat constructor.
  - simpl. lia.
  - reflexivity.
  - exists (lit "I modified the "), (lit " so that Foo handles FooBar").
    split; reflexivity.
  - intros pre post E Hw. cbv [lit list_ascii_of_string] in E.
    occurrences E pre Hw.
Defined.

(** C3 as stated fails: "trigger Foo class" contains "Foo class", and its
    one record for Foo is an ApexTrigger. *)
Lemma C3_name_class_counterexample :
  ~ (forall Name pre post : str,
       identifier_shaped Name ->
       1 < length Name ->
       has excludeWords (toLowerCase Name) = false ->
       exists changes c,
         parseChangesToCopadoFormat (pre ++ Name ++ lit " class" ++ post) = Some changes /\
         filter (fun c => str_eqb (n c) Name) changes = [c] /\
         t c = JStr (lit "ApexClass")).
Proof.
  intros H. specialize (H (lit "Foo") (lit "trigger ") []).
  destruct H as [changes [c [Hp [Hf Ht]]]].
  - exists "F"%char, (lit "oo"). repeat split. repeat constructor.
  - simpl. lia.
  - reflexivity.
  - vm_compute in Hp. injection Hp as <-. vm_compute in Hf. injection Hf as <-.
    vm_compute in Ht. discriminate.
Qed.

(** C4.  "I modified the AccountController apex class" yields exactly one
    record: Add, AccountController, ApexClass, force-app/main/default. *)
Theorem C4_account_controller :
  parseChangesToCopadoFormat (lit "I modified the AccountController apex class") =
  Some [Change (lit "Add") (lit "AccountController") (JStr (lit "ApexClass"))
               (lit "force-app/main/default")].
Proof. vm_compute. reflexivity. Qed.

(** C5.  For every description the parser returns, and returns a list that
    is not empty: the records of the components found, or, when the
    patterns and the fallback have found none, the one placeholder record
    with the default action; "no changes here" yields that record. *)
Theorem C5_never_fails :
  (forall description : str,
     exists found changes,
       found_components (S (S (length description))) description = Some found /\
       parseChangesToCopadoFormat description = Some changes /\
       0 < length changes /\
       match found with
       | [] =>
           changes = [Change (defaultAction description) (lit "UnknownComponent")
                             (JStr (lit "ApexClass")) (lit "force-app/main/default")]
       | _ :: _ =>
           changes = map (fun e => Change (defaultAction description) (fst e) (snd e)
                                          (lit "force-app/main/default")) found
       end) /\
  parseChangesToCopadoFormat (lit "no changes here") =
    Some [Change (lit "Add") (lit "UnknownComponent") (JStr (lit "ApexClass"))
                 (lit "force-app/main/default")].
Proof.
  split; [|vm_compute; reflexivity].
  intros description. destruct (parse_returns description) as [found [Hf Hp]].
  exists found, (changes_of (defaultAction description) found).
  repeat split; try assumption.
  - destruct found; simpl; lia.
  - destruct found; reflexivity.
Qed.

(** C6 (amended).  For every input the identifier-list parser equals the
    reference algorithm that deletes the brackets and quotes, replaces
    from left to right each run of whitespace, "and" in either case and
    run of whitespace by a comma (an occurrence takes both runs whole, so
    the whitespace between two "and" serves the first one only), splits
    on commas, trims and drops the empty pieces.  Every element is
    trimmed and not empty; order and duplicates are kept. *)
Theorem C6_identifier_list :
  (forall s : str,
     parseUserStoryIds s = ref_parse s /\
     Forall (fun e => 0 < length e /\ trim e = e) (parseUserStoryIds s)) /\
  parseUserStoryIds (lit "a1u1, a1u2 and a1u3") = [lit "a1u1"; lit "a1u2"; lit "a1u3"] /\
  parseUserStoryIds (lit "['a1u1', 'a1u2']") = [lit "a1u1"; lit "a1u2"] /\
  parseUserStoryIds (lit "a1u2,a1u1,a1u2") = [lit "a1u2"; lit "a1u1"; lit "a1u2"].
Proof.
  split; [|repeat split; vm_compute; reflexivity].
  intros s. split; [apply parseUserStoryIds_is_ref|].
  rewrite parseUserStoryIds_is_ref.
  apply Forall_impl with (2 := ref_parse_normal s).
  intros e [Hne Htrim _ _ _]. split; [|assumption].
  destruct e; [now contradiction Hne | simpl; lia].
Qed.

(** C6 as stated fails: in "a and and b" both "and" stand between
    whitespace, the reference algorithm of the claim gives a and b, the
    parser gives a and "and b". *)
Lemma C6_identifier_list_counterexample :
  parseUserStoryIds (lit "a and and b") = [lit "a"; lit "and b"] /\
  spec_parse (lit "a and and b") = [lit "a"; lit "b"] /\
  ~ (forall s : str, parseUserStoryIds s = spec_parse s).
Proof.
  split; [vm_compute; reflexivity|]. split; [vm_compute; reflexivity|].
  intros H. specialize (H (lit "a and and b")). vm_compute in H. discriminate.
Qed.

(** C7.  Parsing the comma-join of a parsed list gives the list again. *)
Theorem C7_rejoin_idempotent (x : str) :
  parseUserStoryIds (join (lit ",") (parseUserStoryIds x)) = parseUserStoryIds x.
Proof.
  rewrite (parseUserStoryIds_is_ref x), parseUserStoryIds_is_ref.
  apply ref_parse_join. apply ref_parse_normal.
Qed.

(** C8.  The classification depends on the lower-cased status only: the
    status the dictionary lists under a bucket is shown with the emoji,
    the colour and the next step of that bucket, and every other status
    with those of the Unknown bucket. *)
Theorem C8_status_classification (status : str) (b : bucket) :
  bucket_of (toLowerCase status) b ->
  classify status = view b /\
  forall other : str, toLowerCase other = toLowerCase status -> classify other = view b.
Proof.
  intros H. split; [now apply classify_listed|].
  intros other E. rewrite (classify_by_lowered other status E). now apply classify_listed.
Qed.

Lemma C8_status_classification_witness :
  (classify (lit "Success") = view Completed /\
   forall other : str,
     toLowerCase other = toLowerCase (lit "Success") -> classify other = view Completed) /\
  (classify (lit "bogus") = view Unknown /\
   forall other : str,
     toLowerCase other = toLowerCase (lit "bogus") -> classify other = view Unknown).
Proof.
  split.
  - apply (C8_status_classification (lit "Success") Completed).
    apply Listed with "success"%string; [simpl; auto | reflexivity].
  - apply (C8_status_classification (lit "bogus") Unknown).
    apply Unlisted. intros word b Hin. simpl in Hin.
    repeat (destruct Hin as [Hin | Hin]; [injection Hin as <- <-; vm_compute; discriminate|]).
    destruct Hin.
Defined.

(** C9.  The action of every record is the action of the first keyword of
    the action map, in the order of the map, that occurs anywhere in the
    lower-cased description. *)
Theorem C9_default_action_by_containment
    (description keyword action : str) (before after : list (str * str)) :
  actionMap = before ++ (keyword, action) :: after ->
  occurs keyword (toLowerCase description) ->
  (forall k, In k (map fst before) -> ~ occurs k (toLowerCase description)) ->
  exists changes,
    parseChangesToCopadoFormat description = Some changes /\
    0 < length changes /\
    Forall (fun c => a c = action) changes.
Proof.
  intros Hmap Hocc Hnot. destruct (parse_returns description) as [found [_ Hp]].
  exists (changes_of (defaultAction description) found). split; [assumption|]. split.
  - destruct found; simpl; lia.
  - assert (E : defaultAction description = action).
    { unfold defaultAction. rewrite Hmap. now apply first_action_occurs. }
    rewrite E. apply changes_of_action.
Qed.

Lemma C9_default_action_by_containment_witness :
  exists changes,
    parseChangesToCopadoFormat (lit "PreremovedItems class") = Some changes /\
    0 < length changes /\
    Forall (fun c => a c = lit "Delete") changes.
Proof.
  apply (C9_default_action_by_containment (lit "PreremovedItems class")
           (lit "removed") (lit "Delete") (firstn 8 actionMap) []).
  - reflexivity.
  - apply includes_occurs. vm_compute. reflexivity.
  - intros k Hin. apply includes_not_occurs. simpl in Hin.
    repeat (destruct Hin as [<- | Hin]; [vm_compute; reflexivity|]). destruct Hin.
Defined.

(** C10.  A commit request carries the commitMessage argument as its
    message, and "Commit changes: " followed by the description when the
    argument is absent or empty. *)
Theorem C10_commit_message
    (userStoryId changesDescription : str) (commitMessage apiKey : option str) :
  Tools.truthy apiKey = true ->
  exists token changes,
    apiKey = Some token /\
    parseChangesToCopadoFormat changesDescription = Some changes /\
    commit_request userStoryId changesDescription commitMessage apiKey =
      Ok (Request "https://app-api.copado.com/json/v1/webhook/mcwebhook/commit"
            token "Commit" token
            (CommitPayload userStoryId changes
               match commitMessage with
               | Some (c :: msg) => c :: msg
               | _ => lit "Commit changes: " ++ changesDescription
               end)).
Proof.
  intros Hkey. destruct apiKey as [[|c k]|]; try discriminate.
  destruct (parse_returns changesDescription) as [found [_ Hp]].
  exists (c :: k), (changes_of (defaultAction changesDescription) found).
  split; [reflexivity|]. split; [assumption|].
  unfold commit_request. cbn [require_token bind]. rewrite Hp. cbn [bind].
  destruct commitMessage as [[|c' msg]|]; reflexivity.
Qed.

Lemma C10_commit_message_witness :
  exists token changes,
    Some (lit "key") = Some token /\
    parseChangesToCopadoFormat (lit "Foo class") = Some changes /\
    commit_request (lit "a1u7") (lit "Foo class") None (Some (lit "key")) =
      Ok (Request "https://app-api.copado.com/json/v1/webhook/mcwebhook/commit"
            token "Commit" token
            (CommitPayload (lit "a1u7") changes
               (lit "Commit changes: " ++ lit "Foo class"))).
Proof.
  apply (C10_commit_message (lit "a1u7") (lit "Foo class") None (Some (lit "key"))).
  reflexivity.
Defined.

End Claims.

(** * Further properties of the sources *)

Section RecordProperties.

Import CommitTool.

Lemma first_action_value (entries : list (str * str)) (lowerDesc dflt : str) :
  first_action entries lowerDesc dflt = dflt \/
  In (first_action entries lowerDesc dflt) (map snd entries).
Proof.
  induction entries as [|[k v] entries IH]; simpl; [auto|].
  destruct (includes lowerDesc k); [auto|]. destruct IH; auto.
Qed.

Lemma defaultAction_value (description : str) :
  defaultAction description = lit "Add" \/ defaultAction description = lit "Delete".
Proof.
  unfold defaultAction.
  destruct (first_action_value actionMap (toLowerCase description) (lit "Add")) as [H | H];
    [now left|].
  revert H. generalize (first_action actionMap (toLowerCase description) (lit "Add")).
  intros act H. simpl in H.
  repeat (destruct H as [H | H]; [subst act; (now left) || (now right)|]). destruct H.
Qed.

Lemma found_names_shape (fuel : nat) (description : str)
    (found : list (str * jsval)) (e : str * jsval) :
  found_components fuel description = Some found -> In e found ->
  identifier_shaped (fst e) /\ 1 < length (fst e) /\
  has excludeWords (toLowerCase (fst e)) = false.
Proof.
  intros Hf Hin. destruct e as [name ty]. cbn [fst].
  destruct (found_components_in fuel description found _ Hf Hin)
    as [[ws [Hws Hw]] | [ws [Hws Hw]]].
  - destruct (all_writes_in fuel description _ _ _ Hws Hw)
      as [p [mt [seen [rest [_ [Hacc _]]]]]].
    apply accepted_acceptable in Hacc. destruct Hacc as [_ Hacc].
    now apply acceptable_name_shape.
  - destruct (fallback_writes_in fuel description _ _ Hws Hw)
      as [mt [seen [rest [Hfw [_ Hm]]]]].
    apply fallback_write_shape in Hfw. destruct Hfw as [Hcap [Hlen [Hex _]]].
    apply fallbackPattern_capture in Hm. destruct Hm as [name' [Hc [Hshape _]]].
    unfold capture in Hcap. rewrite Hc in Hcap. cbn in Hcap. injection Hcap as <-.
    repeat split; auto. lia.
Qed.

(** Every record of every parse has the default module path, the action
    Add or Delete, and a name of the identifier grammar that is longer
    than one character and not an excluded word. *)
Theorem records_well_formed (description : str) :
  exists changes,
    parseChangesToCopadoFormat description = Some changes /\
    Forall (fun c =>
              m c = lit "force-app/main/default" /\
              (a c = lit "Add" \/ a c = lit "Delete") /\
              identifier_shaped (n c) /\
              1 < length (n c) /\
              has excludeWords (toLowerCase (n c)) = false) changes.
Proof.
  destruct (parse_returns description) as [found [Hf Hp]].
  exists (changes_of (defaultAction description) found). split; [assumption|].
  pose proof (defaultAction_value description) as Hact.
  destruct found as [|e0 l].
  - simpl. constructor; [|constructor]. cbn [m a n]. repeat split; auto.
    + exists "U"%char, (lit "nknownComponent"). repeat split. repeat constructor.
    + simpl. lia.
  - unfold changes_of.
    apply Forall_forall. intros c Hc. apply in_map_iff in Hc.
    destruct Hc as [e [<- He]]. cbn [m a n].
    destruct (found_names_shape _ description (e0 :: l) e Hf He) as [H1 [H2 H3]].
    repeat split; auto.
Qed.

(** No two records of a parse have the same name. *)
Theorem records_distinct_names (description : str) :
  exists changes,
    parseChangesToCopadoFormat description = Some changes /\
    NoDup (map n changes).
Proof.
  destruct (parse_returns description) as [found [_ Hp]].
  eexists. split; [exact Hp|]. now apply parse_distinct with (1 := Hp).
Qed.

Lemma distinct_from_ext (s1 s2 : list str) (l : list str) :
  (forall x, existsb (str_eqb x) s1 = existsb (str_eqb x) s2) ->
  distinct_from s1 l = distinct_from s2 l.
Proof.
  revert s1 s2. induction l as [|x l IH]; intros s1 s2 H; simpl; [reflexivity|].
  rewrite <- (H x). destruct (existsb (str_eqb x) s1); [now apply IH|].
  f_equal. apply IH. intros y. simpl. now rewrite H.
Qed.

Lemma keys_map_set {V : Type} (k : str) (v : V) (m0 : list (str * V)) :
  map fst (map_set k v m0) =
  if existsb (str_eqb k) (map fst m0) then map fst m0 else map fst m0 ++ [k].
Proof.
  induction m0 as [|[k0 v0] m0 IH]; simpl; [reflexivity|].
  destruct (str_eqb k k0) eqn:E; simpl.
  - apply str_eqb_eq in E. now subst.
  - rewrite IH. destruct (existsb (str_eqb k) (map fst m0)); reflexivity.
Qed.

(** The keys of a Map after a sequence of writes: the keys it had, then
    the new keys in the order of their first write. *)
Lemma keys_apply_writes {V : Type} (ws : list (str * V)) : forall m0 : list (str * V),
  map fst (apply_writes ws m0) = map fst m0 ++ distinct_from (map fst m0) (map fst ws).
Proof.
  unfold apply_writes. induction ws as [|[k v] ws IH]; intros m0; simpl.
  - now rewrite app_nil_r.
  - rewrite IH, keys_map_set.
    destruct (existsb (str_eqb k) (map fst m0)) eqn:E; [reflexivity|].
    rewrite <- app_assoc. cbn [app]. do 2 f_equal.
    apply distinct_from_ext. intros x. rewrite existsb_app. simpl.
    rewrite orb_false_r. apply orb_comm.
Qed.

(** When the patterns accept a name, the records are those of the names
    the patterns wrote, in the order of their first write. *)
Theorem records_in_first_write_order (description : str) (ws : list (str * jsval)) :
  all_writes (S (S (length description))) componentPatterns description = Some ws ->
  ws <> [] ->
  exists changes,
    parseChangesToCopadoFormat description = Some changes /\
    map n changes = first_occurrences (map fst ws).
Proof.
  intros Hws Hne.
  assert (Hk : map fst (apply_writes ws ([] : list (str * jsval))) =
               first_occurrences (map fst ws)) by (now rewrite keys_apply_writes).
  unfold parseChangesToCopadoFormat, parse_with, found_components. rewrite Hws.
  destruct (apply_writes ws []) as [|e l] eqn:E.
  - exfalso. destruct ws as [|[k v] ws]; [contradiction|].
    simpl in Hk. discriminate.
  - eexists. split; [reflexivity|]. rewrite <- Hk.
    unfold changes_of. cbn [map n fst]. f_equal. rewrite map_map. reflexivity.
Qed.

Lemma records_in_first_write_order_witness :
  exists changes,
    parseChangesToCopadoFormat
      (lit "Foo class, Bar trigger and class Foo") = Some changes /\
    map n changes =
      first_occurrences
        (map fst [(lit "Foo", JStr (lit "ApexClass")); (lit "Bar", JStr (lit "ApexTrigger"));
                  (lit "Foo", JStr (lit "ApexClass")); (lit "Foo", JStr (lit "ApexClass"))]).
Proof.
  apply (records_in_first_write_order (lit "Foo class, Bar trigger and class Foo")).
  - vm_compute. reflexivity.
  - discriminate.
Defined.

End RecordProperties.

(** ** Capture groups hold pieces of the input *)

Lemma caps_from_input ic r : forall st e,
  In e (rx_match ic r st) ->
  forall p, In p (m_caps e) ->
  In p (m_caps st) \/ exists pre post, m_rest st = pre ++ snd p ++ post.
Proof.
  induction r as [| cs | | | | r1 IH1 r2 IH2 | r1 IH1 r2 IH2 | r1 IH1 | min cs | k r1 IH1];
    intros st e H p Hp.
  - destruct H as [<- | []]. now left.
  - apply in_rx_set in H. destruct H as [c [r [_ [_ ->]]]]. now left.
  - apply in_rx_wordb in H. destruct H as [-> _]. now left.
  - cbn [rx_match] in H. destruct (m_seen st); [|contradiction].
    destruct H as [<- | []]. now left.
  - cbn [rx_match] in H. destruct (m_rest st); [|contradiction].
    destruct H as [<- | []]. now left.
  - apply in_rx_seq in H. destruct H as [st1 [H1 H2]].
    destruct (IH2 st1 e H2 p Hp) as [Hin | [pre [post Hr]]].
    + now apply IH1 with st1.
    + right. destruct (rx_match_consumes ic r1 st st1 H1) as [w [Hw _]].
      exists (w ++ pre), post. rewrite Hw, Hr. now rewrite <- app_assoc.
  - cbn [rx_match] in H. apply in_app_or in H. destruct H as [H | H]; eauto.
  - apply in_rx_opt in H. destruct H as [-> | H]; [now left | eauto].
  - apply in_rx_rep in H. destruct H as [w [_ [_ [_ [Hc _]]]]]. left. now rewrite <- Hc.
  - apply in_rx_group_inner in H. destruct H as [st1 [w [H1 [Hr [Hs ->]]]]].
    cbn [m_caps] in Hp. destruct Hp as [<- | Hp].
    + right. exists [], (m_rest st1). exact Hr.
    + apply IH1 with st1; assumption.
Qed.

Lemma group_in (k : nat) (caps : list (nat * str)) (v : str) :
  group k caps = Some v -> In (k, v) caps.
Proof.
  induction caps as [|[k' v'] caps IH]; simpl; [discriminate|].
  destruct (k' =? k) eqn:E.
  - apply Nat.eqb_eq in E. subst. intros [= ->]. now left.
  - intros H. right. now apply IH.
Qed.

(** A capture of a match is a piece of the searched string. *)
Lemma capture_from_input ic r (seen rest : str) (mt : rmatch) (k : nat) (v : str) :
  In (m_end mt) (rx_match ic r (MState seen rest [])) ->
  capture k mt = Some v ->
  exists pre post, rest = pre ++ v ++ post.
Proof.
  intros H Hc. apply group_in in Hc.
  destruct (caps_from_input ic r _ _ H _ Hc) as [[] | H']. exact H'.
Qed.

Section NoCapital.

Import CommitTool.

Lemma accepted_name_capture (mt : rmatch) (name : str) (ty : jsval) :
  accepted mt = Some (name, ty) ->
  capture 1 mt = Some name \/ capture 2 mt = Some name.
Proof.
  intros H. apply accepted_acceptable in H. destruct H as [H _].
  unfold name_and_type in H.
  destruct (truthy (capture 1 mt) && truthy (capture 2 mt)).
  - destruct (capture 1 mt) as [first|]; [|discriminate].
    destruct (capture 2 mt) as [second|]; [|discriminate].
    destruct (get_property typeMap (toLowerCase second)).
    + injection H as -> _. now left.
    + destruct (get_property typeMap (toLowerCase first)); [|discriminate].
      injection H as -> _. now right.
  - injection H as H _. now left.
Qed.

Lemma shaped_name_has_capital (name pre post : str) :
  identifier_shaped name ->
  exists c, In c (pre ++ name ++ post) /\ is_upper c = true.
Proof.
  intros [c [rest [-> [Hc _]]]]. exists c. split; [|assumption].
  apply in_or_app. right. now left.
Qed.

Variable description : str.
Hypothesis no_capital : Forall (fun c => is_upper c = false) description.

Lemma no_capital_no_piece (seen rest pre name post : str) :
  rev seen ++ rest = description -> rest = pre ++ name ++ post ->
  identifier_shaped name -> False.
Proof.
  intros Hd Hr Hs.
  destruct (shaped_name_has_capital name pre post Hs) as [c [Hin Hc]].
  rewrite Forall_forall in no_capital.
  assert (Hf : is_upper c = false).
  { apply no_capital. rewrite <- Hd, Hr. apply in_or_app. now right. }
  congruence.
Qed.

Lemma no_capital_no_pattern_write (fuel : nat) (ws : list (str * jsval)) :
  all_writes fuel componentPatterns description = Some ws -> ws = [].
Proof.
  intros H. destruct ws as [|[name ty] ws]; [reflexivity|]. exfalso.
  destruct (all_writes_in fuel description (name, ty) _ _ H (or_introl eq_refl))
    as [p [mt [seen [rest [_ [Hacc [Hd Hm]]]]]]].
  pose proof (accepted_acceptable mt name ty Hacc) as [_ Hok].
  apply acceptable_name_shape in Hok. destruct Hok as [Hshape _].
  destruct (accepted_name_capture mt name ty Hacc) as [Hc | Hc];
    destruct (capture_from_input _ _ _ _ _ _ _ Hm Hc) as [pre [post Hr]];
    exact (no_capital_no_piece seen rest pre name post Hd Hr Hshape).
Qed.

Lemma no_capital_no_fallback_write (fuel : nat) (ws : list (str * jsval)) :
  fallback_writes fuel description = Some ws -> ws = [].
Proof.
  intros H. destruct ws as [|[name ty] ws]; [reflexivity|]. exfalso.
  destruct (fallback_writes_in fuel description (name, ty) _ H (or_introl eq_refl))
    as [mt [seen [rest [_ [Hd Hm]]]]].
  apply fallbackPattern_capture in Hm.
  destruct Hm as [name' [_ [Hshape [pre [post Hr]]]]].
  exact (no_capital_no_piece seen rest pre name' post Hd Hr Hshape).
Qed.

End NoCapital.

Section PlaceholderOnly.

Import CommitTool.

(** A description without a capital letter A to Z yields the placeholder
    record and nothing else. *)
Theorem no_capital_placeholder (description : str) :
  Forall (fun c => is_upper c = false) description ->
  parseChangesToCopadoFormat description =
    Some [Change (defaultAction description) (lit "UnknownComponent")
                 (JStr (lit "ApexClass")) (lit "force-app/main/default")].
Proof.
  intros Hno. unfold parseChangesToCopadoFormat, parse_with, found_components.
  set (fuel := S (S (length description))).
  assert (Hlen : length description < fuel) by (unfold fuel; lia).
  destruct (all_writes_total componentPatterns description fuel
              componentPatterns_consume Hlen) as [ws Hws].
  rewrite Hws. rewrite (no_capital_no_pattern_write description Hno fuel ws Hws).
  cbn [apply_writes fold_left].
  destruct (fallback_writes_total description fuel Hlen) as [fws Hfws].
  rewrite Hfws. rewrite (no_capital_no_fallback_write description Hno fuel fws Hfws).
  reflexivity.
Qed.

Lemma no_capital_placeholder_witness :
  parseChangesToCopadoFormat (lit "updated the account trigger and its tests") =
    Some [Change (defaultAction (lit "updated the account trigger and its tests"))
                 (lit "UnknownComponent") (JStr (lit "ApexClass"))
                 (lit "force-app/main/default")].
Proof.
  apply (no_capital_placeholder (lit "updated the account trigger and its tests")).
  repeat constructor.
Defined.

End PlaceholderOnly.

(** ** The action of a parse *)

Section ActionProperties.

Import CommitTool.

Lemma defaultAction_cases (description : str) :
  let l := toLowerCase description in
  defaultAction description =
  if existsb (includes l)
       (map lit ["added"; "created"; "new"; "modified"; "changed"; "updated"; "edited"]%string)
  then lit "Add"
  else if includes l (lit "deleted") || includes l (lit "removed") then lit "Delete"
  else lit "Add".
Proof.
  cbv zeta. unfold defaultAction, actionMap.
  cbn [map fst snd first_action existsb].
  repeat match goal with
         | |- context [includes ?l ?k] =>
             let E := fresh "E" in destruct (includes l k) eqn:E; cbn [orb]; try reflexivity
         end.
Qed.

Lemma changes_of_action_iff (act x : str) (found : list (str * jsval)) :
  Forall (fun c => a c = x) (changes_of act found) <-> act = x.
Proof.
  split.
  - intros H. destruct found as [|e l]; simpl in H; now inversion H.
  - intros <-. apply changes_of_action.
Qed.

Lemma existsb_includes_false (l : str) (ks : list str) :
  existsb (includes l) ks = false <-> Forall (fun k => ~ occurs k l) ks.
Proof.
  induction ks as [|k ks IH]; simpl.
  - split; [constructor | reflexivity].
  - rewrite orb_false_iff, IH, includes_not_occurs. split.
    + intros [H1 H2]. now constructor.
    + intros H. inversion H. auto.
Qed.

(** The records of a parse are deletions exactly when the lower-cased
    description contains "deleted" or "removed" and none of the seven
    keywords of addition; otherwise they are additions. *)
Theorem delete_only_without_add_keyword (description : str) (changes : list change) :
  parseChangesToCopadoFormat description = Some changes ->
  let l := toLowerCase description in
  let deletion :=
    Forall (fun k => ~ occurs k l)
      (map lit ["added"; "created"; "new"; "modified"; "changed"; "updated"; "edited"]%string)
    /\ (occurs (lit "deleted") l \/ occurs (lit "removed") l) in
  (Forall (fun c => a c = lit "Delete") changes <-> deletion) /\
  (Forall (fun c => a c = lit "Add") changes <-> ~ deletion).
Proof.
  intros Hp. cbv zeta.
  destruct (parse_returns description) as [found [_ Hp']].
  rewrite Hp in Hp'. injection Hp' as ->.
  rewrite !changes_of_action_iff, defaultAction_cases. cbv zeta.
  set (l := toLowerCase description).
  set (adds := map lit ["added"; "created"; "new"; "modified"; "changed"; "updated";
                         "edited"]%string).
  rewrite <- existsb_includes_false, <- !includes_occurs.
  destruct (existsb (includes l) adds); destruct (includes l (lit "deleted"));
    destruct (includes l (lit "removed")); cbn [orb]; split; split;
    try discriminate; try reflexivity; intuition discriminate.
Qed.

Lemma delete_only_without_add_keyword_witness :
  let l := toLowerCase (lit "Removed the new OldHelper class") in
  let deletion :=
    Forall (fun k => ~ occurs k l)
      (map lit ["added"; "created"; "new"; "modified"; "changed"; "updated"; "edited"]%string)
    /\ (occurs (lit "deleted") l \/ occurs (lit "removed") l) in
  (Forall (fun c => a c = lit "Delete")
     [Change (lit "Add") (lit "OldHelper") (JStr (lit "ApexClass")) defaultModule]
   <-> deletion) /\
  (Forall (fun c => a c = lit "Add")
     [Change (lit "Add") (lit "OldHelper") (JStr (lit "ApexClass")) defaultModule]
   <-> ~ deletion).
Proof.
  apply (delete_only_without_add_keyword (lit "Removed the new OldHelper class")).
  vm_compute. reflexivity.
Defined.

End ActionProperties.

(** ** The types of the records *)

Lemma in_all_chars (c : ascii) : In c all_chars.
Proof.
  unfold all_chars. apply in_map_iff. exists (nat_of_ascii c). split.
  - apply ascii_nat_embedding.
  - apply in_seq. pose proof (nat_ascii_bounded c). lia.
Qed.

Lemma class_implies (ic : bool) (cs : charset) (P : ascii -> bool) (c : ascii) :
  forallb (fun x => implb (cs_match ic cs x) (P x)) all_chars = true ->
  cs_match ic cs c = true -> P c = true.
Proof.
  intros H Hc. rewrite forallb_forall in H. specialize (H c (in_all_chars c)).
  rewrite Hc in H. exact H.
Qed.

Lemma first_chars_sound ic P r : first_chars_ok ic P r = true ->
  forall st e, In e (rx_match ic r st) ->
  exists c w, m_rest st = (c :: w) ++ m_rest e /\ P c = true.
Proof.
  induction r as [| cs | | | | r1 IH1 r2 IH2 | r1 IH1 r2 IH2 | r1 IH1 | min cs | k r1 IH1];
    intros Hok st e H; cbn [first_chars_ok] in Hok; try discriminate.
  - apply in_rx_set in H. destruct H as [c [r [Hr [Hc ->]]]].
    exists c, []. split; [exact Hr | now apply class_implies with ic cs].
  - apply in_rx_seq in H. destruct H as [st1 [H1 H2]].
    destruct (IH1 Hok st st1 H1) as [c [w [Hr Hc]]].
    destruct (rx_match_consumes ic r2 st1 e H2) as [w2 [Hr2 _]].
    exists c, (w ++ w2). split; [|assumption].
    rewrite Hr, Hr2. cbn [app]. now rewrite <- app_assoc.
  - apply andb_true_iff in Hok. destruct Hok as [H1 H2].
    cbn [rx_match] in H. apply in_app_or in H. destruct H as [H | H]; eauto.
  - apply andb_true_iff in Hok. destruct Hok as [Hmin Hcls].
    apply Nat.leb_le in Hmin.
    apply in_rx_rep in H. destruct H as [w [Hr [_ [Hlen [_ Hall]]]]].
    destruct w as [|c w]; [simpl in Hlen; lia|].
    exists c, w. split; [exact Hr|]. inversion Hall; subst.
    now apply class_implies with ic cs.
  - apply in_rx_group_inner in H. destruct H as [st1 [w [H1 [_ [_ ->]]]]].
    cbn [m_rest]. now apply IH1.
Qed.

(** With such patterns in the groups, every capture starts with a
    character that satisfies [P]. *)
Lemma groups_start_sound ic P r : groups_start_ok ic P r = true ->
  forall st e, In e (rx_match ic r st) ->
  forall p, In p (m_caps e) ->
  In p (m_caps st) \/ exists c w, snd p = c :: w /\ P c = true.
Proof.
  induction r as [| cs | | | | r1 IH1 r2 IH2 | r1 IH1 r2 IH2 | r1 IH1 | min cs | k r1 IH1];
    intros Hok st e H p Hp; cbn [groups_start_ok] in Hok.
  - destruct H as [<- | []]. now left.
  - apply in_rx_set in H. destruct H as [c [r [_ [_ ->]]]]. now left.
  - apply in_rx_wordb in H. destruct H as [-> _]. now left.
  - cbn [rx_match] in H. destruct (m_seen st); [|contradiction].
    destruct H as [<- | []]. now left.
  - cbn [rx_match] in H. destruct (m_rest st); [|contradiction].
    destruct H as [<- | []]. now left.
  - apply andb_true_iff in Hok. destruct Hok as [Hk1 Hk2].
    apply in_rx_seq in H. destruct H as [st1 [H1 H2]].
    destruct (IH2 Hk2 st1 e H2 p Hp) as [Hin | Hs]; [|now right].
    now apply IH1 with st1.
  - apply andb_true_iff in Hok. destruct Hok as [Hk1 Hk2].
    cbn [rx_match] in H. apply in_app_or in H. destruct H as [H | H]; eauto.
  - apply in_rx_opt in H. destruct H as [-> | H]; [now left | eauto].
  - apply in_rx_rep in H. destruct H as [w [_ [_ [_ [Hc _]]]]]. left. now rewrite <- Hc.
  - apply andb_true_iff in Hok. destruct Hok as [Hf Hg].
    pose proof H as H'. apply in_rx_group_inner in H.
    destruct H as [st1 [w [H1 [Hr [Hs ->]]]]].
    cbn [m_caps] in Hp. destruct Hp as [<- | Hp].
    + right. destruct (first_chars_sound ic P r1 Hf st st1 H1) as [c [w' [Hr' Hc]]].
      rewrite Hr' in Hr. apply app_inv_tail in Hr. subst w. now exists c, w'.
    + apply IH1 with st1; assumption.
Qed.

Lemma lower_never_upper (c : ascii) : is_upper (lower_char c) = false.
Proof. each_char c; reflexivity. Qed.

Lemma alpha_lower_not_underscore (c : ascii) :
  is_alpha c = true -> lower_char c <> "_"%char.
Proof. each_char c; vm_compute; congruence. Qed.

Lemma toLowerCase_no_upper (s : str) :
  forallb (fun c => negb (is_upper c)) (toLowerCase s) = true.
Proof.
  induction s as [|c s IH]; simpl; [reflexivity|].
  now rewrite lower_never_upper, IH.
Qed.

Section RecordTypes.

Import CommitTool.

Lemma componentPatterns_groups :
  forallb (fun p => groups_start_ok (fst p) is_alpha (snd p)) componentPatterns = true.
Proof. vm_compute. reflexivity. Qed.

Lemma assoc_in_snd {V : Type} (k : str) (o : list (str * V)) (v : V) :
  assoc k o = Some v -> In v (map snd o).
Proof.
  induction o as [|[k0 v0] o IH]; simpl; [discriminate|].
  destruct (str_eqb k k0); [intros [= ->]; now left | auto].
Qed.

(** What [typeMap] holds under the lower-cased form of a word that starts
    with a letter: one of its types, or the inherited [constructor]. *)
Lemma get_property_lowered (x : str) (c : ascii) (w : str) (ty : jsval) :
  x = c :: w -> is_alpha c = true ->
  get_property typeMap (toLowerCase x) = Some ty ->
  (exists v, ty = JStr v /\ In v (map snd typeMap)) \/
  ty = JInherited (lit "constructor").
Proof.
  intros Hx Hc. unfold get_property.
  destruct (assoc (toLowerCase x) typeMap) as [v|] eqn:E.
  - intros [= <-]. left. exists v. split; [reflexivity|]. now apply assoc_in_snd with (1 := E).
  - destruct (existsb (str_eqb (toLowerCase x)) object_prototype_keys) eqn:Ek; [|discriminate].
    intros [= <-]. right.
    apply existsb_exists in Ek. destruct Ek as [k [Hin Hk]]. apply str_eqb_eq in Hk.
    pose proof (toLowerCase_no_upper x) as Hup. rewrite Hk in Hup |- *.
    simpl in Hin.
    repeat (destruct Hin as [<- | Hin];
            [try reflexivity; try (vm_compute in Hup; discriminate)|]);
      try destruct Hin.
    exfalso. subst x. cbn in Hk. injection Hk as Hk _.
    now apply (alpha_lower_not_underscore c Hc).
Qed.

Lemma infer_type_value (entries : list (str * str)) (ctx dflt : str) :
  infer_type entries ctx dflt = dflt \/ In (infer_type entries ctx dflt) (map snd entries).
Proof.
  induction entries as [|[k v] entries IH]; simpl; [auto|].
  destruct (includes ctx k); [auto|]. destruct IH; auto.
Qed.

Lemma apexClass_listed : In (lit "ApexClass") (map snd typeMap).
Proof. simpl. auto. Qed.

Lemma accepted_type (p : bool * regex) (seen rest : str) (mt : rmatch)
    (name : str) (ty : jsval) :
  In p componentPatterns ->
  In (m_end mt) (rx_match (fst p) (snd p) (MState seen rest [])) ->
  accepted mt = Some (name, ty) ->
  (exists v, ty = JStr v /\ In v (map snd typeMap)) \/
  ty = JInherited (lit "constructor").
Proof.
  intros Hp Hm Hacc.
  assert (Hstart : forall k v, capture k mt = Some v ->
                     exists c w, v = c :: w /\ is_alpha c = true).
  { intros k v Hc. apply group_in in Hc.
    pose proof componentPatterns_groups as Hg. rewrite forallb_forall in Hg.
    destruct (groups_start_sound _ _ _ (Hg p Hp) _ _ Hm _ Hc) as [[] | H]. exact H. }
  apply accepted_acceptable in Hacc. destruct Hacc as [Hnt _].
  unfold name_and_type in Hnt.
  destruct (truthy (capture 1 mt) && truthy (capture 2 mt)).
  - destruct (capture 1 mt) as [first|] eqn:E1; [|discriminate].
    destruct (capture 2 mt) as [second|] eqn:E2; [|discriminate].
    destruct (get_property typeMap (toLowerCase second)) as [ty2|] eqn:G2.
    + injection Hnt as _ <-. destruct (Hstart 2 second E2) as [c [w [Hx Hc]]].
      now apply get_property_lowered with second c w.
    + destruct (get_property typeMap (toLowerCase first)) as [ty1|] eqn:G1; [|discriminate].
      injection Hnt as _ <-. destruct (Hstart 1 first E1) as [c [w [Hx Hc]]].
      now apply get_property_lowered with first c w.
  - injection Hnt as _ <-. left. exists (lit "ApexClass"). split; [reflexivity|].
    apply apexClass_listed.
Qed.

(** The type of every record is one of the types of [typeMap], or what
    [typeMap] inherits under the name [constructor], which is not a
    string. *)
Theorem record_types (description : str) :
  exists changes,
    parseChangesToCopadoFormat description = Some changes /\
    Forall (fun c =>
              (exists v, t c = JStr v /\ In v (map snd typeMap)) \/
              t c = JInherited (lit "constructor")) changes.
Proof.
  destruct (parse_returns description) as [found [Hf Hp]].
  exists (changes_of (defaultAction description) found). split; [assumption|].
  destruct found as [|e0 l].
  - simpl. constructor; [|constructor]. left. exists (lit "ApexClass").
    split; [reflexivity | apply apexClass_listed].
  - unfold changes_of. apply Forall_forall. intros c Hc. apply in_map_iff in Hc.
    destruct Hc as [e [<- He]]. cbn [t]. destruct e as [name ty]. cbn [snd].
    destruct (found_components_in _ description _ _ Hf He) as [[ws [Hws Hw]] | [ws [Hws Hw]]].
    + destruct (all_writes_in _ description _ _ _ Hws Hw)
        as [p [mt [seen [rest [Hp' [Hacc [_ Hm]]]]]]].
      now apply accepted_type with p seen rest mt name.
    + destruct (fallback_writes_in _ description _ _ Hws Hw)
        as [mt [seen [rest [Hfw _]]]].
      apply fallback_write_shape in Hfw. destruct Hfw as [_ [_ [_ [ctx ->]]]].
      left. eexists. split; [reflexivity|].
      destruct (infer_type_value typeMap ctx (lit "ApexClass")) as [-> | H];
        [apply apexClass_listed | exact H].
Qed.

End RecordTypes.

(** ** More on the identifier-list parser *)

Section IdentifierListProperties.

Import PromoteTool IdentifierList.

(** No element of a parsed list contains a comma, a square bracket or a
    quote. *)
Theorem ids_without_separators (s : str) :
  Forall (fun e =>
            ~ In ","%char e /\ ~ In "["%char e /\ ~ In "]"%char e /\
            ~ In dquote e /\ ~ In "'"%char e)
         (parseUserStoryIds s).
Proof.
  rewrite parseUserStoryIds_is_ref.
  apply Forall_impl with (2 := ref_parse_normal s).
  intros e [_ _ Hc Hb _]. rewrite Forall_forall in Hb.
  repeat split; try assumption; intros Hin; apply Hb in Hin; discriminate.
Qed.

Lemma no_space_and_length (s : str) :
  (forall c, hd_error s = Some c -> is_space c = false) -> and_length s = 0.
Proof.
  intros H. unfold and_length, count_spaces.
  destruct s as [|c s]; [reflexivity|]. cbn [run_length].
  now rewrite (H c eq_refl).
Qed.

Lemma no_space_and_free (s : str) :
  Forall (fun c => is_space c = false) s -> and_free s.
Proof.
  intros H pre post ->. apply Forall_app in H. destruct H as [_ H].
  apply no_space_and_length. intros c Hc. destruct post as [|x post]; [discriminate|].
  injection Hc as ->. now inversion H.
Qed.

Lemma no_space_trim (s : str) :
  Forall (fun c => is_space c = false) s -> trim s = s.
Proof.
  intros H. unfold trim, trim_end.
  assert (Hs : trim_start s = s).
  { apply trim_start_noop. intros c Hc. destruct s as [|x s]; [discriminate|].
    injection Hc as ->. now inversion H. }
  rewrite Hs.
  assert (Hr : trim_start (rev s) = rev s).
  { apply trim_start_noop. intros c Hc. rewrite Forall_forall in H. apply H.
    apply in_rev. destruct (rev s) as [|x r]; [discriminate|].
    injection Hc as ->. now left. }
  rewrite Hr. apply rev_involutive.
Qed.

Lemma plain_normal (e : str) :
  e <> [] ->
  Forall (fun c => is_space c = false /\ c <> ","%char /\ is_bracket_or_quote c = false) e ->
  normal e.
Proof.
  intros Hne H.
  assert (Hs : Forall (fun c => is_space c = false) e).
  { apply Forall_impl with (2 := H). now intros c [Hc _]. }
  constructor.
  - assumption.
  - now apply no_space_trim.
  - intros Hin. rewrite Forall_forall in H. destruct (H _ Hin) as [_ [Hc _]]. now apply Hc.
  - apply Forall_impl with (2 := H). now intros c [_ [_ Hc]].
  - now apply no_space_and_free.
Qed.

(** A list of identifiers without whitespace, commas, brackets and quotes
    comes back from the parser when it is written with commas. *)
Theorem ids_round_trip (l : list str) :
  Forall (fun e =>
            e <> [] /\
            Forall (fun c => is_space c = false /\ c <> ","%char /\
                             is_bracket_or_quote c = false) e) l ->
  parseUserStoryIds (join (lit ",") l) = l.
Proof.
  intros H. rewrite parseUserStoryIds_is_ref. apply ref_parse_join.
  apply Forall_impl with (2 := H). intros e [Hne He]. now apply plain_normal.
Qed.

Lemma ids_round_trip_witness :
  parseUserStoryIds
    (join (lit ",") [lit "a0u1v00001fGK5PAAW"; lit "a0u1v00001fGK5PBAW"]) =
  [lit "a0u1v00001fGK5PAAW"; lit "a0u1v00001fGK5PBAW"].
Proof.
  apply (ids_round_trip [lit "a0u1v00001fGK5PAAW"; lit "a0u1v00001fGK5PBAW"]).
  repeat constructor; discriminate.
Defined.

Lemma ref_replace_and_fuel : forall fuel1 fuel2 s,
  length s <= fuel1 -> length s <= fuel2 ->
  ref_replace_and fuel1 s = ref_replace_and fuel2 s.
Proof.
  induction fuel1 as [|fuel1 IH]; intros fuel2 s H1 H2.
  - destruct s; [now destruct fuel2 | simpl in H1; lia].
  - destruct s as [|c s]; [now destruct fuel2|].
    destruct fuel2 as [|fuel2]; [simpl in H2; lia|]. cbn [ref_replace_and].
    simpl in H1, H2. destruct (and_length (c :: s)) as [|len].
    + f_equal. apply IH; lia.
    + f_equal. apply IH; rewrite length_skipn; lia.
Qed.

Lemma is_and_before_comma (y b : str) : is_and (y ++ ","%char :: b) = is_and y.
Proof.
  destruct y as [|y1 [|y2 [|y3 y]]]; cbn [app is_and]; try reflexivity.
  - destruct b as [|b1 [|b2 b]]; reflexivity.
  - destruct b as [|b1 b]; [reflexivity|]. cbn [is_and].
    change (Ascii.eqb (lower_char ",") "n") with false. now rewrite andb_false_r.
  - change (Ascii.eqb (lower_char ",") "d") with false. now rewrite andb_false_r.
Qed.

Lemma is_and_length (y : str) : is_and y = true -> 3 <= length y.
Proof. destruct y as [|y1 [|y2 [|y3 y]]]; simpl; try discriminate. lia. Qed.

Lemma skipn_app_le {A : Type} (k : nat) (x y : list A) :
  k <= length x -> skipn k (x ++ y) = skipn k x ++ y.
Proof.
  intros H. rewrite skipn_app. replace (k - length x) with 0 by lia. reflexivity.
Qed.

(** An occurrence does not reach over a comma. *)
Lemma and_length_before_comma (x b : str) :
  and_length (x ++ ","%char :: b) = and_length x.
Proof.
  unfold and_length, count_spaces.
  rewrite (run_length_app_stop is_space x b ","%char eq_refl).
  set (k := run_length is_space x).
  assert (Hk : k <= length x) by apply run_length_le.
  rewrite (skipn_app_le k x _ Hk), is_and_before_comma.
  destruct (is_and (skipn k x)) eqn:Ea.
  - apply is_and_length in Ea.
    rewrite (skipn_app_le 3 (skipn k x) _ Ea).
    now rewrite (run_length_app_stop is_space _ b ","%char eq_refl).
  - now rewrite !andb_false_r.
Qed.

Lemma ref_replace_and_comma : forall (bound : nat) (x b : str),
  length x <= bound ->
  ref_replace_and (length (x ++ ","%char :: b)) (x ++ ","%char :: b) =
  ref_replace_and (length x) x ++ ","%char :: ref_replace_and (length b) b.
Proof.
  assert (Hcomma : forall b, and_length (","%char :: b) = 0).
  { intros b. apply (and_length_before_comma [] b). }
  induction bound as [|bound IH]; intros x b Hlen.
  - destruct x; [|simpl in Hlen; lia]. cbn [app length ref_replace_and].
    now rewrite Hcomma.
  - destruct x as [|c x].
    + cbn [app length ref_replace_and]. now rewrite Hcomma.
    + cbn [app length ref_replace_and].
      change (c :: x ++ ","%char :: b) with ((c :: x) ++ ","%char :: b).
      rewrite and_length_before_comma. simpl in Hlen.
      destruct (and_length (c :: x)) as [|len] eqn:E.
      * cbn [app]. f_equal. apply IH. lia.
      * assert (Hle : len <= length x).
        { pose proof (and_length_le (c :: x)) as Hl. rewrite E in Hl. simpl in Hl. lia. }
        cbn [app]. f_equal. rewrite (skipn_app_le len x _ Hle).
        rewrite (ref_replace_and_fuel _ (length (skipn len x ++ ","%char :: b))).
        -- rewrite IH by (rewrite length_skipn; lia). f_equal.
           apply ref_replace_and_fuel; rewrite length_skipn; lia.
        -- rewrite <- (skipn_app_le len x _ Hle), length_skipn. lia.
        -- lia.
Qed.

Lemma split_app (sep : ascii) (x y : str) :
  split sep (x ++ sep :: y) = split sep x ++ split sep y.
Proof.
  induction x as [|c x IH]; cbn [app split].
  - now rewrite Ascii.eqb_refl.
  - rewrite IH. destruct (Ascii.eqb c sep); [reflexivity|].
    pose proof (split_nonempty sep x) as Hne.
    destruct (split sep x) as [|p ps]; [contradiction | reflexivity].
Qed.

(** Writing two inputs with a comma between them concatenates their
    lists. *)
Theorem ids_comma_concat (x y : str) :
  parseUserStoryIds (x ++ lit "," ++ y) = parseUserStoryIds x ++ parseUserStoryIds y.
Proof.
  rewrite !parseUserStoryIds_is_ref. unfold ref_parse. cbv zeta.
  change (lit "," ++ y) with (","%char :: y).
  assert (Hs : strip (x ++ ","%char :: y) = strip x ++ ","%char :: strip y).
  { unfold strip. now rewrite filter_app. }
  rewrite Hs, (ref_replace_and_comma (length (strip x)) _ _ (Nat.le_refl _)).
  now rewrite split_app, map_app, filter_app.
Qed.

Lemma separators_and_length (s : str) :
  Forall (fun c => is_space c = true \/ c = ","%char) s -> and_length s = 0.
Proof.
  intros H. unfold and_length, count_spaces.
  set (k := run_length is_space s).
  assert (Ha : is_and (skipn k s) = false).
  { rewrite <- (firstn_skipn k s) in H. apply Forall_app in H. destruct H as [_ H].
    destruct (skipn k s) as [|x [|y [|z r]]]; try reflexivity.
    inversion H as [|x' l' Hx _]; subst. cbn [is_and].
    destruct Hx as [Hx | ->]; [|reflexivity].
    destruct (Ascii.eqb (lower_char x) "a") eqn:E; [|reflexivity].
    apply letter_a_not_space in E. congruence. }
  rewrite Ha. now rewrite andb_false_r.
Qed.

Lemma separators_and_free (s : str) :
  Forall (fun c => is_space c = true \/ c = ","%char) s -> and_free s.
Proof.
  intros H pre post ->. apply Forall_app in H. destruct H as [_ H].
  now apply separators_and_length.
Qed.

Lemma separators_split (s : str) :
  Forall (fun c => is_space c = true \/ c = ","%char) s ->
  Forall (fun p => Forall (fun c => is_space c = true) p) (split ","%char s).
Proof.
  induction 1 as [|c s Hc Hs IH]; cbn [split]; [repeat constructor|].
  destruct (Ascii.eqb c ",") eqn:E.
  - constructor; [constructor | assumption].
  - destruct Hc as [Hc | ->]; [|rewrite Ascii.eqb_refl in E; discriminate].
    destruct (split ","%char s) as [|p ps]; [repeat constructor; assumption|].
    inversion IH; subst. constructor; [now constructor | assumption].
Qed.

Lemma trim_spaces (p : str) : Forall (fun c => is_space c = true) p -> trim p = [].
Proof.
  intros H. unfold trim.
  assert (Hs : trim_start p = []).
  { induction H as [|c p Hc Hp IH]; simpl; [reflexivity | now rewrite Hc]. }
  now rewrite Hs.
Qed.

(** An input of whitespace, commas, brackets and quotes only holds no
    identifier. *)
Lemma ids_only_separators (s : str) :
  Forall (fun c => is_space c = true \/ c = ","%char \/ is_bracket_or_quote c = true) s ->
  parseUserStoryIds s = [].
Proof.
  intros H. rewrite parseUserStoryIds_is_ref. unfold ref_parse. cbv zeta.
  assert (Hs : Forall (fun c => is_space c = true \/ c = ","%char) (strip s)).
  { apply Forall_forall. intros c Hc. apply filter_In in Hc. destruct Hc as [Hin Hb].
    rewrite Forall_forall in H. apply negb_true_iff in Hb.
    destruct (H c Hin) as [Hc | [Hc | Hc]]; auto. congruence. }
  rewrite (and_free_fixed _ (separators_and_free _ Hs) _ (Nat.le_refl _)).
  pose proof (separators_split _ Hs) as Hp.
  induction Hp as [|p ps Hp Hps IH]; [reflexivity|].
  cbn [map filter]. rewrite (trim_spaces p Hp). exact IH.
Qed.

End IdentifierListProperties.

(** ** The requests of the tools *)

Section RequestProperties.

Import CommitTool PromoteTool Tools.

(** A tool that gets as far as its request sends a token that is not
    empty, the same in the header and in the body, to the address and
    with the action of that tool. *)
Theorem request_token_and_target (env : option str) (call : tool_call) (rq : request) :
  prepare env call = Ok rq ->
  key rq <> [] /\
  webhook_key_header rq = key rq /\
  (action rq, url rq) =
    match call with
    | commit_changes _ _ _ _ =>
        ("Commit", "https://app-api.copado.com/json/v1/webhook/mcwebhook/commit")
    | promote_user_story _ _ _ _ =>
        ("Promotion", "https://app-api.copado.com/json/v1/webhook/mcwebhook/promotion")
    | deploy_promotion _ _ =>
        ("PromotionDeployment",
         "https://app-api.copado.com/json/v1/webhook/mcwebhook/promotiondeployment")
    | check_job_status _ _ =>
        ("CheckStatusAction",
         "https://app-api.copado.com/json/v1/webhook/mcwebhook/checkStatusAction")
    end%string.
Proof.
  destruct call as [u d msg k | ids e v k | p k | j k]; cbn [prepare].
  - unfold commit_request. destruct k as [[|c k]|]; cbn [require_token bind]; try discriminate.
    destruct (parseChangesToCopadoFormat d); cbn [bind]; [|discriminate].
    intros [= <-]. cbn. repeat split. discriminate.
  - unfold promote_request. destruct k as [[|c k]|]; cbn [require_token bind]; try discriminate.
    destruct (length (parseUserStoryIds ids) =? 0); [discriminate|].
    intros [= <-]. cbn. repeat split. discriminate.
  - unfold deploy_request. destruct env as [[|c k']|]; cbn [require_token bind];
      try discriminate.
    intros [= <-]. cbn. repeat split. discriminate.
  - unfold check_request, or_else.
    destruct k as [[|c k]|]; cbn [truthy CommitTool.truthy];
      try (destruct env as [[|c' k']|]); cbn [require_token bind]; try discriminate;
      intros [= <-]; cbn; repeat split; discriminate.
Qed.

Lemma request_token_and_target_witness :
  key (Request "https://app-api.copado.com/json/v1/webhook/mcwebhook/checkStatusAction"
         (lit "arg-key") "CheckStatusAction" (lit "arg-key")
         (CheckStatusPayload (lit "job1"))) <> [] /\
  webhook_key_header
    (Request "https://app-api.copado.com/json/v1/webhook/mcwebhook/checkStatusAction"
       (lit "arg-key") "CheckStatusAction" (lit "arg-key")
       (CheckStatusPayload (lit "job1"))) =
  key (Request "https://app-api.copado.com/json/v1/webhook/mcwebhook/checkStatusAction"
         (lit "arg-key") "CheckStatusAction" (lit "arg-key")
         (CheckStatusPayload (lit "job1"))) /\
  (action
     (Request "https://app-api.copado.com/json/v1/webhook/mcwebhook/checkStatusAction"
        (lit "arg-key") "CheckStatusAction" (lit "arg-key")
        (CheckStatusPayload (lit "job1"))),
   url
     (Request "https://app-api.copado.com/json/v1/webhook/mcwebhook/checkStatusAction"
        (lit "arg-key") "CheckStatusAction" (lit "arg-key")
        (CheckStatusPayload (lit "job1")))) =
  ("CheckStatusAction",
   "https://app-api.copado.com/json/v1/webhook/mcwebhook/checkStatusAction")%string.
Proof.
  apply (request_token_and_target None
           (check_job_status (lit "job1") (Some (lit "arg-key")))).
  reflexivity.
Defined.

(** A promotion request carries the parsed list of identifiers, which is
    not empty, the two flags as they were given and the fixed source
    environment. *)
Theorem promotion_request_payload (env : option str) (userStoryIds : str)
    (executeDeployment deploymentDryRun : bool) (apiKey : option str) (rq : request) :
  prepare env (promote_user_story userStoryIds executeDeployment deploymentDryRun apiKey)
    = Ok rq ->
  body rq = PromotionPayload (parseUserStoryIds userStoryIds) executeDeployment
              deploymentDryRun (lit "a0c8c00000LpAxEAAV") /\
  0 < length (parseUserStoryIds userStoryIds) /\
  Forall (fun id => 0 < length id /\ trim id = id) (parseUserStoryIds userStoryIds).
Proof.
  cbn [prepare]. unfold promote_request.
  destruct apiKey as [[|c k]|]; cbn [require_token bind]; try discriminate.
  destruct (length (parseUserStoryIds userStoryIds) =? 0) eqn:E; [discriminate|].
  intros [= <-]. apply Nat.eqb_neq in E. cbn [body]. repeat split; [lia|].
  rewrite parseUserStoryIds_is_ref.
  apply Forall_impl with (2 := ref_parse_normal userStoryIds).
  intros id [Hne Ht _ _ _]. split; [|assumption].
  destruct id; [now contradiction Hne | simpl; lia].
Qed.

Lemma promotion_request_payload_witness :
  body (Request "https://app-api.copado.com/json/v1/webhook/mcwebhook/promotion"
          (lit "key") "Promotion" (lit "key")
          (PromotionPayload [lit "a1u1"; lit "a1u2"] true false (lit "a0c8c00000LpAxEAAV")))
    = PromotionPayload (parseUserStoryIds (lit "a1u1 and a1u2")) true false
        (lit "a0c8c00000LpAxEAAV") /\
  0 < length (parseUserStoryIds (lit "a1u1 and a1u2")) /\
  Forall (fun id => 0 < length id /\ trim id = id) (parseUserStoryIds (lit "a1u1 and a1u2")).
Proof.
  apply (promotion_request_payload None (lit "a1u1 and a1u2") true false (Some (lit "key"))).
  reflexivity.
Defined.

(** With a token, a list of identifiers that holds whitespace, commas,
    brackets and quotes only is refused before any request. *)
Theorem promotion_without_ids_refused (env : option str) (userStoryIds key : str)
    (executeDeployment deploymentDryRun : bool) :
  key <> [] ->
  Forall (fun c => is_space c = true \/ c = ","%char \/
                   IdentifierList.is_bracket_or_quote c = true) userStoryIds ->
  prepare env (promote_user_story userStoryIds executeDeployment deploymentDryRun (Some key))
    = Throw "No valid user story IDs provided. Please provide at least one user story ID." /\
  forall (response : Type) (fetch : request -> response) (throws_after : response -> bool),
    execute env response fetch throws_after
      (promote_user_story userStoryIds executeDeployment deploymentDryRun (Some key))
    = Some (Outcome [] true).
Proof.
  intros Hk Hs.
  assert (E : prepare env
                (promote_user_story userStoryIds executeDeployment deploymentDryRun (Some key))
              = Throw "No valid user story IDs provided. Please provide at least one user story ID.").
  { cbn [prepare]. unfold promote_request.
    destruct key as [|c k]; [contradiction|]. cbn [require_token bind].
    now rewrite (ids_only_separators userStoryIds Hs). }
  split; [exact E|]. intros response fetch throws_after. unfold execute. now rewrite E.
Qed.

Lemma promotion_without_ids_refused_witness :
  prepare None (promote_user_story (lit "[ ' ' , ]") false false (Some (lit "key")))
    = Throw "No valid user story IDs provided. Please provide at least one user story ID." /\
  forall (response : Type) (fetch : request -> response) (throws_after : response -> bool),
    execute None response fetch throws_after
      (promote_user_story (lit "[ ' ' , ]") false false (Some (lit "key")))
    = Some (Outcome [] true).
Proof.
  apply (promotion_without_ids_refused None (lit "[ ' ' , ]") (lit "key") false false).
  - discriminate.
  - repeat (apply Forall_cons;
            [first [left; reflexivity | right; left; reflexivity
                   | right; right; reflexivity]|]).
    apply Forall_nil.
Defined.

End RequestProperties.

(** ** The status a job reports *)

Section StatusProperties.

Import CheckJobStatusTool StatusBuckets StatusFields Tools.

Lemma space_lower (c : ascii) : is_space c = true -> lower_char c = c.
Proof. each_char c; intros H; solve [reflexivity | discriminate H]. Qed.

Lemma spaced_unlisted (lowered : str) :
  is_space (hd "a"%char lowered) = true \/ is_space (last lowered "a"%char) = true ->
  forall word b, In (word, b) dictionary -> lowered <> lit word.
Proof.
  intros H word b Hin ->. simpl in Hin.
  repeat (destruct Hin as [Hin | Hin];
          [injection Hin as <- <-; vm_compute in H; destruct H; discriminate|]).
  contradiction.
Qed.

Lemma last_snoc {A : Type} (l : list A) (x d : A) : last (l ++ [x]) d = x.
Proof.
  induction l as [|y l IH]; [reflexivity|].
  simpl. destruct (l ++ [x]) eqn:E; [now destruct l|exact IH].
Qed.

(** A status is compared as it comes, without trimming: white space in
    front of it or behind it puts even a listed word into the unknown
    bucket. *)
Theorem status_not_trimmed (status : str) (c : ascii) :
  is_space c = true ->
  classify (c :: status) = view Unknown /\ classify (status ++ [c]) = view Unknown.
Proof.
  intros Hc. split; apply classify_listed, Unlisted, spaced_unlisted.
  - left. cbn [toLowerCase map hd]. now rewrite (space_lower c Hc).
  - right. unfold toLowerCase. rewrite map_app. cbn [map].
    rewrite last_snoc. now rewrite (space_lower c Hc).
Qed.

Lemma status_not_trimmed_witness :
  classify (" "%char :: lit "Completed") = view Unknown /\
  classify (lit "Completed" ++ [" "%char]) = view Unknown.
Proof. apply (status_not_trimmed (lit "Completed") " "%char). reflexivity. Defined.

(** Of the two status fields of a response the first that is truthy is
    the status, whatever the other holds: a text that is not empty is
    classified, any other truthy value makes the tool fail, and with both
    fields missing or empty the status is unknown. *)
Theorem status_field_precedence :
  (forall (c : ascii) (s : str) (other : field),
     report (Text (c :: s)) other = Ok (classify (c :: s))) /\
  (forall other : field,
     report OtherTruthy other = Throw "status.toLowerCase is not a function") /\
  (forall second : field,
     report (Text []) second = report Falsy second /\
     report Falsy second =
       match second with
       | Text (c :: s) => Ok (classify (c :: s))
       | OtherTruthy => Throw "status.toLowerCase is not a function"
       | _ => Ok (view Unknown)
       end).
Proof.
  split; [reflexivity|]. split; [reflexivity|].
  intros second. split; [reflexivity|]. now destruct second as [| [|c s] |].
Qed.

End StatusProperties.

(** ** A description that is one name *)

Section BareName.

Import CommitTool.

Variable Name : str.
Hypothesis Name_shaped : identifier_shaped Name.
Hypothesis Name_long : 2 < length Name.
Hypothesis Name_kept : has excludeWords (toLowerCase Name) = false.
Hypothesis Name_free : has fallbackExcluded Name = false.

Lemma bare_word (c : ascii) : In c Name -> is_word c = true.
Proof.
  intros H. destruct (identifier_shaped_word Name Name_shaped) as [_ Hw].
  rewrite Forall_forall in Hw. now apply Hw.
Qed.

Lemma bare_no_space (p q : str) (s : ascii) :
  Name = p ++ s :: q -> is_space s = true -> False.
Proof.
  intros E Hs. assert (Hin : In s Name) by (rewrite E; apply in_elt).
  apply bare_word in Hin. apply space_not_word in Hs. congruence.
Qed.

Lemma bare_no_shape (seen rest : str) (e : mstate) :
  rev seen ++ rest = Name -> word_space_word seen rest e -> False.
Proof.
  intros Hd [c1 [c2 [c3 [Hr [_ [_ [_ [L2 [_ [Hsp _]]]]]]]]]].
  destruct c2 as [|s c2]; [simpl in L2; lia|].
  inversion Hsp as [|x l Hs _]; subst x l.
  apply (bare_no_space (rev seen ++ c1) (c2 ++ c3 ++ m_rest e) s); [|assumption].
  rewrite <- Hd, Hr. cbn [app]. now rewrite <- app_assoc.
Qed.

Lemma bare_no_two_spaces (seen rest p q r : str) (s1 s2 : ascii) :
  rev seen ++ rest = Name -> rest = p ++ s1 :: q ++ s2 :: r ->
  is_space s1 = true -> False.
Proof.
  intros Hd Hr Hs.
  apply (bare_no_space (rev seen ++ p) (q ++ s2 :: r) s1); [|assumption].
  rewrite <- Hd, Hr. now rewrite <- app_assoc.
Qed.

(** No component pattern matches in a single name. *)
Lemma bare_no_pattern_write (fuel : nat) (ws : list (str * jsval)) :
  all_writes fuel componentPatterns Name = Some ws -> ws = [].
Proof.
  intros H. destruct ws as [|w ws]; [reflexivity|]. exfalso.
  destruct (all_writes_in fuel Name w componentPatterns (w :: ws) H (or_introl eq_refl))
    as [p [mt [seen [rest [Hp [_ [Hd Hin]]]]]]].
  simpl in Hp. destruct Hp as [<- | [<- | [<- | [<- | [<- | []]]]]]; cbn [fst] in Hin.
  - apply pattern1_shape in Hin. now apply (bare_no_shape seen rest (m_end mt)).
  - apply pattern2_shape in Hin. now apply (bare_no_shape seen rest (m_end mt)).
  - apply pattern3_shape in Hin.
    destruct Hin as [Hs | [p [s1 [q [s2 [r [Hr [H1 _]]]]]]]].
    + now apply (bare_no_shape seen rest (m_end mt)).
    + now apply (bare_no_two_spaces seen rest p q r s1 s2).
  - apply pattern4_shape in Hin. destruct Hin as [p [s1 [q [s2 [r [Hr [H1 _]]]]]]].
    now apply (bare_no_two_spaces seen rest p q r s1 s2).
  - apply pattern5_shape in Hin. destruct Hin as [q [rest' [-> Hq]]].
    assert (Hin : In q Name) by (rewrite <- Hd; apply in_elt).
    apply bare_word, word_not_quote in Hin. congruence.
Qed.

(** Inside a word there is no word boundary. *)
Lemma bare_boundary (seen rest : str) (caps : list (nat * str)) :
  rev seen ++ rest = Name -> at_word_boundary (MState seen rest caps) = true ->
  seen = [] \/ rest = [].
Proof.
  intros Hd Hb. destruct seen as [|a seen]; [now left|].
  destruct rest as [|b rest]; [now right|]. exfalso.
  unfold at_word_boundary in Hb. cbn [m_seen m_rest] in Hb.
  assert (Ha : is_word a = true).
  { apply bare_word. rewrite <- Hd. apply in_or_app. left.
    apply in_rev. rewrite rev_involutive. now left. }
  assert (Hb' : is_word b = true).
  { apply bare_word. rewrite <- Hd. apply in_elt. }
  rewrite Ha, Hb' in Hb. discriminate.
Qed.

(** A match of the fallback pattern in a single name is the name. *)
Lemma bare_fallback_match (seen rest : str) (e : mstate) :
  rev seen ++ rest = Name ->
  In e (rx_match false (snd fallbackPattern) (MState seen rest [])) ->
  seen = [] /\ m_caps e = [(1, Name)].
Proof.
  intros Hd H. unfold fallbackPattern in H. cbn [snd rseq] in H.
  apply in_rx_seq in H. destruct H as [st1 [H1 H]].
  apply in_rx_wordb in H1. destruct H1 as [-> Hb0].
  apply in_rx_seq in H. destruct H as [st2 [H2 H]].
  apply in_rx_wordb in H. destruct H as [-> Hb1].
  apply in_rx_group_inner in H2. destruct H2 as [st3 [w [H3 [Hr [Hs ->]]]]].
  apply in_rx_seq in H3. destruct H3 as [st4 [H4 H5]].
  apply in_rx_set in H4. destruct H4 as [c [r [Hc [_ ->]]]].
  apply in_rx_rep in H5. destruct H5 as [w' [Hr' [Hs' [_ [Hcaps _]]]]].
  cbn [m_rest m_seen m_caps] in *.
  apply bare_boundary in Hb0; [|assumption].
  destruct Hb0 as [-> | ->]; [|discriminate Hc].
  cbn [rev app] in Hd. subst rest.
  apply bare_boundary in Hb1.
  - destruct Hb1 as [Hb1 | Hb1].
    + rewrite Hs' in Hb1. now destruct (rev w').
    + rewrite Hb1, app_nil_r in Hr. rewrite Hcaps. now subst w.
  - rewrite Hs, app_nil_r, rev_involutive. now symmetry.
Qed.

Lemma bare_fallback_write (mt : rmatch) :
  index mt = 0 -> m_caps (m_end mt) = [(1, Name)] ->
  fallback_write Name mt = Some (Name, JStr (lit "ApexClass")).
Proof.
  intros Hi Hc. unfold fallback_write, capture. rewrite Hc, Hi. cbn [group Nat.eqb].
  rewrite Name_kept, Name_free.
  replace (2 <? length Name) with true by (symmetry; now apply Nat.ltb_lt).
  cbn [negb andb]. unfold substring.
  replace (Nat.min (0 + length Name) (0 + length Name + 20)) with (length Name) by lia.
  rewrite skipn_all. cbn [Nat.sub Nat.max Nat.min skipn firstn]. rewrite firstn_nil.
  reflexivity.
Qed.

Lemma bare_fallback_first :
  exists e l, rx_match false (snd fallbackPattern) (MState [] Name []) = e :: l.
Proof.
  destruct Name_shaped as [u [w [E [Hu Hw]]]].
  apply in_nonempty with (x := MState (rev w ++ [u]) [] [(1, u :: w)]).
  rewrite E. unfold fallbackPattern. cbn [snd rseq].
  apply in_rx_seq. exists (MState [] (u :: w) []). split.
  { apply in_rx_wordb. split; [reflexivity|]. unfold at_word_boundary. cbn.
    now rewrite (upper_is_word u Hu). }
  apply in_rx_seq. exists (MState (rev w ++ [u]) [] [(1, u :: w)]). split.
  - apply (in_rx_group_intro false 1 _ (MState [] (u :: w) [])
             (MState (rev w ++ [u]) [] []) (u :: w)).
    + cbn [m_seen rev]. now rewrite app_nil_r.
    + apply in_rx_seq. exists (MState [u] w []). split.
      * apply in_rx_set. exists u, w. repeat split. now rewrite upperAZ_class.
      * cbn [rx_match m_seen m_rest m_caps]. apply hd_error_in.
        rewrite rep_match_head.
        assert (Hrun : run_length (cs_match false identChar) w = length w).
        { apply run_length_all. apply Forall_impl with (2 := Hw).
          intros x Hx. now rewrite identChar_class. }
        rewrite Hrun.
        assert (Hl : 2 <= length w) by (rewrite E in Name_long; simpl in Name_long; lia).
        replace (2 <=? length w) with true by (symmetry; now apply Nat.leb_le).
        unfold advance. now rewrite firstn_all, skipn_all.
  - apply in_rx_wordb. split; [reflexivity|]. unfold at_word_boundary.
    cbn [m_seen m_rest]. destruct (rev w) as [|x l] eqn:Er; cbn [app].
    + now rewrite (upper_is_word u Hu).
    + assert (Hx : In x w) by (apply in_rev; rewrite Er; now left).
      rewrite Forall_forall in Hw. now rewrite (Hw x Hx).
Qed.

Lemma bare_fallback_writes (fuel : nat) (ws : list (str * jsval)) :
  fallback_writes fuel Name = Some ws ->
  apply_writes ws [] = [(Name, JStr (lit "ApexClass"))].
Proof.
  unfold fallback_writes.
  destruct (exec_all fuel (fst fallbackPattern) (snd fallbackPattern) [] Name)
    as [ms|] eqn:E; [|discriminate].
  intros [= <-]. change (fst fallbackPattern) with false in E.
  assert (Hne : ms <> []).
  { destruct fuel as [|fuel]; [discriminate|]. cbn [exec_all] in E.
    destruct bare_fallback_first as [e [l Hl]].
    rewrite (rx_search_here _ _ _ _ _ _ Hl) in E.
    destruct (exec_all fuel false (snd fallbackPattern) _ _); [|discriminate].
    injection E as <-. discriminate. }
  assert (Hall : Forall (fun mt => fallback_write Name mt
                                   = Some (Name, JStr (lit "ApexClass"))) ms).
  { apply exec_all_in in E. apply Forall_impl with (2 := E).
    intros mt [seen' [rest' [Hw [Hi Hin]]]]. cbn [rev app] in Hw.
    destruct (bare_fallback_match seen' rest' (m_end mt) Hw Hin) as [-> Hc].
    now apply bare_fallback_write. }
  destruct (filter_map_same (fallback_write Name) _ ms Hall) as [Hsame Hsome].
  apply apply_writes_same; auto.
Qed.

Lemma bare_name_result :
  parseChangesToCopadoFormat Name =
    Some [Change (defaultAction Name) Name (JStr (lit "ApexClass")) defaultModule].
Proof.
  unfold parseChangesToCopadoFormat, parse_with, found_components.
  set (fuel := S (S (length Name))).
  assert (Hfuel : length Name < fuel) by (unfold fuel; lia).
  destruct (all_writes_total componentPatterns Name fuel componentPatterns_consume Hfuel)
    as [ws Hws].
  rewrite Hws. rewrite (bare_no_pattern_write fuel ws Hws).
  change (apply_writes [] []) with (@nil (str * jsval)). cbv iota.
  destruct (fallback_writes_total Name fuel Hfuel) as [fws Hf].
  rewrite Hf, (bare_fallback_writes fuel fws Hf). reflexivity.
Qed.

End BareName.

Section BareNameResult.

Import CommitTool.

(** A description that is nothing but one capitalised name of three
    characters or more, not an excluded word and none of Add, Modify,
    Delete, User and Story, is recorded as that name with the type
    ApexClass: no component pattern applies and the fallback finds it. *)
Theorem bare_name_is_apex_class (Name : str) :
  identifier_shaped Name -> 2 < length Name ->
  has excludeWords (toLowerCase Name) = false ->
  has fallbackExcluded Name = false ->
  parseChangesToCopadoFormat Name =
    Some [Change (defaultAction Name) Name (JStr (lit "ApexClass")) defaultModule].
Proof. exact (bare_name_result Name). Qed.

Lemma bare_name_is_apex_class_witness :
  parseChangesToCopadoFormat (lit "AccountHelper") =
    Some [Change (defaultAction (lit "AccountHelper")) (lit "AccountHelper")
            (JStr (lit "ApexClass")) defaultModule].
Proof.
  apply (bare_name_is_apex_class (lit "AccountHelper")).
  - exists "A"%char, (lit "ccountHelper"). repeat split. repeat constructor.
  - simpl. lia.
  - reflexivity.
  - reflexivity.
Defined.

(** The test of a component name accepts the names of the identifier
    grammar and no others. *)
Theorem name_test_grammar (name : str) :
  rx_test false namePattern name = true <-> identifier_shaped name.
Proof. split; [apply namePattern_sound | apply namePattern_accepts]. Qed.

End BareNameResult.
